(** * ControlFlow: tasks and orchestration

    A shallow embedding of [controlflow/tasks/task.py] and
    [controlflow/orchestration/orchestrator.py].

    Python objects live in a heap indexed by their address (what [id(obj)]
    returns, which is also what [Task.__hash__] returns); a method that
    mutates [self] is a function from heaps to heaps.  A method that can
    raise returns an [outcome] together with the heap it leaves behind. *)

From stdpp Require Import base gmap sets list strings sorting pretty.
From Stdlib Require Import ZArith.

Set Warnings "-clear-no-such-hyp".

Open Scope Z_scope.
Open Scope string_scope.
Open Scope list_scope.

(** ** Python values, exceptions, outcomes *)

(** The values a task result, an option of a result type or a context entry
    can be in this model.  Python's [==] on them is Leibniz equality. *)
Inductive pyval :=
  | PyNone
  | PyInt (n : Z)
  | PyStr (s : string).

#[global] Instance pyval_eq_dec : EqDecision pyval.
Proof. solve_decision. Defined.

(** Exceptions, with their messages cut down to the fixed part of the
    text.  [KeyboardInterrupt] stands for the exceptions that derive from
    [BaseException] but not from [Exception]; [Unallocated] is not a Python
    exception: it is what the model answers for an address that is not in
    the heap, which no Python reference can be. *)
Inductive exn :=
  | ValueError (msg : string)
  | TypeError (msg : string)
  | ValidationError (msg : string)
  | RecursionError
  | IndexError
  | ExternalError (tag : nat)
  | KeyboardInterrupt
  | Unallocated.

#[global] Instance exn_eq_dec : EqDecision exn.
Proof. solve_decision. Defined.

(** [isinstance(e, Exception)]: what [except Exception] catches. *)
Definition is_Exception (e : exn) : bool :=
  match e with
  | KeyboardInterrupt => false
  | _ => true
  end.

Inductive outcome (A : Type) :=
  | Ok (a : A)
  | Raise (e : exn).
Arguments Ok {A} a.
Arguments Raise {A} e.

Definition is_Ok {A} (o : outcome A) : bool :=
  match o with Ok _ => true | Raise _ => false end.

(** ** Tasks *)

Inductive TaskStatus :=
  | PENDING
  | RUNNING
  | SUCCESSFUL
  | FAILED
  | SKIPPED.

#[global] Instance TaskStatus_eq_dec : EqDecision TaskStatus.
Proof. solve_decision. Defined.

Definition INCOMPLETE_STATUSES : list TaskStatus := [PENDING; RUNNING].
Definition COMPLETE_STATUSES : list TaskStatus := [SUCCESSFUL; FAILED; SKIPPED].

(** Agents and tools are external collaborators: only their identity
    matters here.  A type given as [result_type] is known by its name. *)
Abbreviation Agent := string (only parsing).
Abbreviation Tool := string (only parsing).
Abbreviation PyType := string (only parsing).

(** [Task.result_type] after the field validator
    [_ensure_result_type_is_list_if_literal]: [None], a tuple of options, or
    a type. *)
Inductive ResultType :=
  | RT_None
  | RT_Options (options : list pyval)
  | RT_Type (ty : PyType).

(** A value of the [context] dict: a plain value, or a task (by address). *)
Inductive ctxval :=
  | CVal (v : pyval)
  | CTask (r : nat).

#[global] Instance ctxval_eq_dec : EqDecision ctxval.
Proof. solve_decision. Defined.

(** The fields of [class Task].  [depends_on], [_subtasks] and
    [_downstreams] are Python sets of tasks hashed by address. *)
Record Task := mkTask {
  id : option string;
  name : option string;
  objective : string;
  instructions : option string;
  agents : option (list Agent);
  context : list (string * ctxval);
  parent : option nat;
  depends_on : gset nat;
  prompt : option string;
  status : TaskStatus;
  result : pyval;
  result_type : ResultType;
  result_validator : option (pyval → outcome pyval);
  tools : list Tool;
  interactive : bool;
  created_at : Z;
  _subtasks : gset nat;
  _downstreams : gset nat;
}.

Abbreviation heap := (gmap nat Task) (only parsing).

(** Field assignments [self.f = v]. *)
Definition with_id (v : option string) (t : Task) : Task :=
  mkTask v (name t) (objective t) (instructions t) (agents t) (context t)
    (parent t) (depends_on t) (prompt t) (status t) (result t) (result_type t)
    (result_validator t) (tools t) (interactive t) (created_at t)
    (_subtasks t) (_downstreams t).

Definition with_parent (v : option nat) (t : Task) : Task :=
  mkTask (id t) (name t) (objective t) (instructions t) (agents t) (context t)
    v (depends_on t) (prompt t) (status t) (result t) (result_type t)
    (result_validator t) (tools t) (interactive t) (created_at t)
    (_subtasks t) (_downstreams t).

Definition with_depends_on (v : gset nat) (t : Task) : Task :=
  mkTask (id t) (name t) (objective t) (instructions t) (agents t) (context t)
    (parent t) v (prompt t) (status t) (result t) (result_type t)
    (result_validator t) (tools t) (interactive t) (created_at t)
    (_subtasks t) (_downstreams t).

Definition with_status (v : TaskStatus) (t : Task) : Task :=
  mkTask (id t) (name t) (objective t) (instructions t) (agents t) (context t)
    (parent t) (depends_on t) (prompt t) v (result t) (result_type t)
    (result_validator t) (tools t) (interactive t) (created_at t)
    (_subtasks t) (_downstreams t).

Definition with_result (v : pyval) (t : Task) : Task :=
  mkTask (id t) (name t) (objective t) (instructions t) (agents t) (context t)
    (parent t) (depends_on t) (prompt t) (status t) v (result_type t)
    (result_validator t) (tools t) (interactive t) (created_at t)
    (_subtasks t) (_downstreams t).

Definition with_subtasks (v : gset nat) (t : Task) : Task :=
  mkTask (id t) (name t) (objective t) (instructions t) (agents t) (context t)
    (parent t) (depends_on t) (prompt t) (status t) (result t) (result_type t)
    (result_validator t) (tools t) (interactive t) (created_at t)
    v (_downstreams t).

Definition with_downstreams (v : gset nat) (t : Task) : Task :=
  mkTask (id t) (name t) (objective t) (instructions t) (agents t) (context t)
    (parent t) (depends_on t) (prompt t) (status t) (result t) (result_type t)
    (result_validator t) (tools t) (interactive t) (created_at t)
    (_subtasks t) v.

(** *** Status predicates (task.py, [is_incomplete] .. [is_ready]) *)

Definition is_incomplete (t : Task) : bool :=
  bool_decide (status t ∈ INCOMPLETE_STATUSES).

Definition is_complete (t : Task) : bool :=
  bool_decide (status t ∈ COMPLETE_STATUSES).

Definition is_pending (t : Task) : bool := bool_decide (status t = PENDING).
Definition is_running (t : Task) : bool := bool_decide (status t = RUNNING).
Definition is_successful (t : Task) : bool := bool_decide (status t = SUCCESSFUL).
Definition is_failed (t : Task) : bool := bool_decide (status t = FAILED).
Definition is_skipped (t : Task) : bool := bool_decide (status t = SKIPPED).

(** [f(t)] for the task at address [r]; [false] for an address outside the
    heap. *)
Definition at_ref (h : heap) (f : Task → bool) (r : nat) : bool :=
  match h !! r with
  | Some t => f t
  | None => false
  end.

(** [return self.is_incomplete() and all(t.is_complete() for t in self.depends_on)] *)
Definition is_ready (h : heap) (self : Task) : bool :=
  is_incomplete self && forallb (at_ref h is_complete) (elements (depends_on self)).

(** *** What the task code takes from outside the repository's files

    pydantic's [TypeAdapter], the helper [hash_objects] of
    [controlflow.utilities.general], Python's [repr] and [str], the
    interpreter's recursion limit, and the ambient flow and default agent
    that [get_agents] falls back to. *)

Class Runtime := {
  (** [TypeAdapter(ty)]: [None] when pydantic raises
      [PydanticSchemaGenerationError], else the adapter's [validate_python],
      which returns the coerced value or raises [ValidationError] *)
  TypeAdapter : PyType → option (pyval → outcome pyval);
  (** [self.result_type(raw)], the fallback when no schema can be built *)
  call_type : PyType → pyval → outcome pyval;
  (** [hash_objects((name, objective, instructions, str(result_type), prompt, str(context)))] *)
  hash_objects : string * string * option string * string * option string * string → string;
  (** [repr] of [None], an [int], a [str] *)
  py_repr : pyval → string;
  (** [str] of a type object *)
  type_str : PyType → string;
  (** [sys.getrecursionlimit()] *)
  recursion_limit : nat;
  (** [get_flow().agent] when there is a flow with an agent *)
  flow_agent : option Agent;
  (** [controlflow.defaults.agent] *)
  default_agent : Agent;
  (** [Task.__eq__] on two tasks at different addresses: it compares
      [dict(self)] with [dict(other)], that is every public field, callables
      by identity, parents and dependencies by [==] again *)
  Task_eq : gmap nat Task → Task → Task → bool;
}.

Section TaskOperations.
Context `{Runtime}.

(** *** Graph edges (task.py, [add_subtask], [add_dependency]) *)

(** Runs [k] on the task at [self]. *)
Definition on_task {A} (self : nat) (h : heap)
    (k : Task → outcome A * heap) : outcome A * heap :=
  match h !! self with
  | Some t => k t
  | None => (Raise Unallocated, h)
  end.

(** [self._subtasks.add(task); self.depends_on.add(task)] *)
Definition adopt (task : nat) (p : Task) : Task :=
  with_depends_on ({[task]} ∪ depends_on p)
    (with_subtasks ({[task]} ∪ _subtasks p) p).

Definition add_subtask (self task : nat) (h : heap) : outcome unit * heap :=
  on_task self h (λ _,
  on_task task h (λ c,
    match parent c with
    | None =>
        (Ok tt, alter (adopt task) self (alter (with_parent (Some self)) task h))
    | Some q =>
        if decide (q = self) then (Ok tt, alter (adopt task) self h)
        else (Raise (ValueError "already has a parent."), h)
    end)).

Definition add_dependency (self task : nat) (h : heap) : outcome unit * heap :=
  on_task self h (λ _,
  on_task task h (λ _,
    let h1 := alter (λ s, with_depends_on ({[task]} ∪ depends_on s) s) self h in
    (Ok tt, alter (λ d, with_downstreams ({[self]} ∪ _downstreams d) d) task h1))).

(** *** Result validation (task.py, [validate_result]) *)

Definition validate_result (self : Task) (raw_result : pyval) : outcome pyval :=
  let typed :=
    match result_type self with
    | RT_None =>
        if decide (raw_result = PyNone) then Ok raw_result
        else Raise (ValueError "Task has result_type=None, but a result was provided.")
    | RT_Options options =>
        if decide (raw_result ∈ options) then Ok raw_result
        else Raise (ValueError "Result is not in the list of valid result types")
    | RT_Type ty =>
        match TypeAdapter ty with
        | Some validate_python => validate_python raw_result
        | None => call_type ty raw_result
        end
    end in
  match typed with
  | Raise e => Raise e
  | Ok result =>
      match result_validator self with
      | None => Ok result
      | Some validator => validator result
      end
  end.

(** *** Status transitions (task.py, [set_status] .. [mark_skipped]) *)

(** [self.status = status].  The notification of the terminal UI that
    follows it in the source shows the task and changes nothing of it. *)
Definition set_status (self : nat) (st : TaskStatus) (h : heap) : heap :=
  alter (with_status st) self h.

Definition mark_running (self : nat) (h : heap) : outcome unit * heap :=
  on_task self h (λ _, (Ok tt, set_status self RUNNING h)).

(** [any(t.is_incomplete() for t in s)] *)
Definition any_incomplete (h : heap) (s : gset nat) : bool :=
  existsb (at_ref h is_incomplete) (elements s).

Definition mark_successful (self : nat) (result : pyval)
    (validate_upstreams : bool) (h : heap) : outcome unit * heap :=
  on_task self h (λ t,
    if validate_upstreams && any_incomplete h (depends_on t) then
      (Raise (ValueError "cannot be marked successful until all of its upstream dependencies are completed."), h)
    else if validate_upstreams && any_incomplete h (_subtasks t) then
      (Raise (ValueError "cannot be marked successful until all of its subtasks are completed."), h)
    else
      match validate_result t result with
      | Raise e => (Raise e, h)
      | Ok v => (Ok tt, set_status self SUCCESSFUL (alter (with_result v) self h))
      end).

Definition mark_failed (self : nat) (reason : option string) (h : heap)
    : outcome unit * heap :=
  on_task self h (λ _,
    let r := match reason with Some s => PyStr s | None => PyNone end in
    (Ok tt, set_status self FAILED (alter (with_result r) self h))).

Definition mark_skipped (self : nat) (h : heap) : outcome unit * heap :=
  on_task self h (λ _, (Ok tt, set_status self SKIPPED h)).

(** *** Completion tools (task.py, [create_success_tool], [create_fail_tool]) *)

(** The dict [options] that [create_success_tool] builds by enumerating a
    tuple result type; it stays empty for the other result types. *)
Definition tool_options (rt : ResultType) : list pyval :=
  match rt with
  | RT_Options options => options
  | _ => []
  end.

(** [result in options] and [options[result]]: the keys are the ints
    [0 .. len-1]. *)
Definition option_at (options : list pyval) (result : pyval) : option pyval :=
  match result with
  | PyInt i => if decide (0 ≤ i)%Z then options !! Z.to_nat i else None
  | _ => None
  end.

(** The closure [succeed] for the task at [self], with the [options] it
    captured. *)
Definition succeed (self : nat) (options : list pyval) (result : pyval)
    (h : heap) : outcome string * heap :=
  on_task self h (λ t,
    if is_successful t then
      (Raise (ValueError "is already marked successful."), h)
    else
      let chosen :=
        match options with
        | [] => Ok result
        | _ :: _ =>
            match option_at options result with
            | None => Raise (ValueError "Invalid option.")
            | Some o => Ok o
            end
        end in
      match chosen with
      | Raise e => (Raise e, h)
      | Ok r =>
          match mark_successful self r true h with
          | (Ok _, h') => (Ok "marked successful.", h')
          | (Raise e, h') => (Raise e, h')
          end
      end).

(** [create_success_tool]: a result type that is neither a tuple nor [None]
    must have a schema. *)
Definition create_success_tool (self : nat) (h : heap)
    : outcome (pyval → heap → outcome string * heap) :=
  match h !! self with
  | None => Raise Unallocated
  | Some t =>
      match result_type t with
      | RT_Type ty =>
          match TypeAdapter ty with
          | None =>
              Raise (ValueError "Could not load or infer schema for result type.")
          | Some _ => Ok (succeed self [])
          end
      | rt => Ok (succeed self (tool_options rt))
      end
  end.

Definition fail (self : nat) (reason : string) (h : heap) : outcome string * heap :=
  match mark_failed self (Some reason) h with
  | (Ok _, h') => (Ok "marked failed.", h')
  | (Raise e, h') => (Raise e, h')
  end.

(** *** Identifiers (task.py, [_generate_id], [__repr__]) *)

(** [str] of a tuple whose items have the given [repr]s. *)
Definition str_tuple (items : list string) : string :=
  match items with
  | [x] => "(" +:+ x +:+ ",)"
  | _ => "(" +:+ String.concat ", " items +:+ ")"
  end.

(** [str(self.result_type)] *)
Definition str_result_type (rt : ResultType) : string :=
  match rt with
  | RT_None => "None"
  | RT_Options options => str_tuple (map py_repr options)
  | RT_Type ty => type_str ty
  end.

(** [Task.__repr__]: the class name with the fields [id] and [objective]. *)
Definition Task_repr (t : Task) : string :=
  "Task(id=" +:+ py_repr (match id t with Some i => PyStr i | None => PyNone end)
  +:+ ", objective=" +:+ py_repr (PyStr (objective t)) +:+ ")".

Definition repr_ctxval (h : heap) (v : ctxval) : string :=
  match v with
  | CVal v => py_repr v
  | CTask r => match h !! r with Some t => Task_repr t | None => "" end
  end.

(** [str(self.context)] *)
Definition str_context (h : heap) (ctx : list (string * ctxval)) : string :=
  "{" +:+ String.concat ", "
            (map (λ kv, py_repr (PyStr kv.1) +:+ ": " +:+ repr_ctxval h kv.2) ctx)
  +:+ "}".

Definition _generate_id (h : heap) (self : Task) : string :=
  hash_objects
    ("Task", objective self, instructions self,
     str_result_type (result_type self), prompt self,
     str_context h (context self)).

(** The id of a task and the fields it is derived from. *)
Definition described (t : Task)
    : option string * string * option string * option string * ResultType
      * list (string * ctxval) :=
  (id t, objective t, instructions t, prompt t, result_type t, context t).

(** *** Construction (task.py, [__init__] after [super().__init__]) *)

(** Sequencing of heap operations that can raise. *)
Definition and_then (m : outcome unit * heap)
    (k : heap → outcome unit * heap) : outcome unit * heap :=
  match m with
  | (Ok _, h) => k h
  | (Raise e, h) => (Raise e, h)
  end.

(** [for task in l: self.add_dependency(task)] *)
Definition add_dependencies (self : nat) (l : list nat) (h : heap)
    : outcome unit * heap :=
  foldl (λ m task, and_then m (add_dependency self task)) (Ok tt, h) l.

(** The tasks among the values of a context dict. *)
Definition context_tasks (ctx : list (string * ctxval)) : list nat :=
  omap (λ kv, match kv.2 with CTask r => Some r | CVal _ => None end) ctx.

(** Allocates [fields] at a fresh address and wires its edges; the id is
    derived when none was given. *)
Definition Task_init (fields : Task) (h : heap) : outcome nat * heap :=
  let self := fresh (dom h) in
  let wired :=
    and_then (add_dependencies self (elements (depends_on fields))
                (<[self := fields]> h)) (λ h1,
    and_then (match parent fields with
              | Some p => add_subtask p self h1
              | None => (Ok tt, h1)
              end) (λ h2,
    and_then (add_dependencies self (context_tasks (context fields)) h2) (λ h3,
      (Ok tt,
       alter (λ t, match id t with
                   | None => with_id (Some (_generate_id h3 t)) t
                   | Some _ => t
                   end) self h3)))) in
  match wired with
  | (Ok _, h') => (Ok self, h')
  | (Raise e, h') => (Raise e, h')
  end.

(** *** Agents, tools and subtasks of a task *)

Fixpoint get_agents_rec (depth : nat) (h : heap) (self : Task)
    : outcome (list Agent) :=
  match agents self with
  | Some l => Ok l
  | None =>
      match parent self with
      | Some p =>
          match depth with
          | O => Raise RecursionError
          | S d =>
              match h !! p with
              | Some pt => get_agents_rec d h pt
              | None => Raise Unallocated
              end
          end
      | None =>
          match flow_agent with
          | Some a => Ok [a]
          | None => Ok [default_agent]
          end
      end
  end.

Definition get_agents (h : heap) (self : Task) : outcome (list Agent) :=
  get_agents_rec recursion_limit h self.

Definition Task_get_tools (self : Task) : list Tool :=
  if interactive self then tools self ++ ["cli_input"] else tools self.

Definition created_at_of (h : heap) (r : nat) : Z :=
  match h !! r with
  | Some t => created_at t
  | None => 0
  end.

Definition created_le (h : heap) (a b : nat) : Prop :=
  (created_at_of h a ≤ created_at_of h b)%Z.

#[global] Instance created_le_dec h a b : Decision (created_le h a b).
Proof. unfold created_le. apply _. Defined.

(** The property [subtasks]: [sorted(self._subtasks, key=lambda t: t.created_at)] *)
Definition subtasks (h : heap) (self : Task) : list nat :=
  merge_sort (created_le h) (elements (_subtasks self)).

End TaskOperations.

(** ** Orchestration (orchestrator.py) *)

(** Sequencing in [outcome]. *)
Definition try_ {A B} (m : outcome A) (k : A → outcome B) : outcome B :=
  match m with
  | Ok a => k a
  | Raise e => Raise e
  end.

Notation "'let?' x := m 'in' k" := (try_ m (λ x, k))
  (at level 10, x name, m at level 100, k at level 200).

(** Events.  The orchestrator builds the three lifecycle events itself; the
    events an agent's model yields are of the other kinds, told apart here
    by a payload. *)
Inductive EventKind :=
  | OrchestratorStart
  | OrchestratorError (error : exn)
  | OrchestratorEnd
  | AgentEvent (payload : nat).

#[global] Instance EventKind_eq_dec : EqDecision EventKind.
Proof. solve_decision. Defined.

Record Event := mkEvent {
  kind : EventKind;
  persist : bool;
}.

#[global] Instance Event_eq_dec : EqDecision Event.
Proof. solve_decision. Defined.

(** What an execution does that its surroundings can see: [handle_event]
    was entered with an event, a handler's [handle] was called with it,
    [flow.add_events] was called, an agent's model was invoked. *)
Inductive Obs :=
  | Emitted (e : Event)
  | Handled (handler : nat) (e : Event)
  | Persisted (es : list Event)
  | Invoked (a : Agent).

#[global] Instance Obs_eq_dec : EqDecision Obs.
Proof. solve_decision. Defined.

(** The fields of [class Orchestrator] that the code reads; handlers are
    known by a number, [flow] and [turn_strategy] are collaborators. *)
Record Orchestrator := mkOrchestrator {
  agent : Agent;
  tasks : list nat;
  handlers : list nat;
}.

(** The collaborators of the orchestrator, each acting on the task heap
    and on a state [X] of their own: the turn strategy, the handlers, the
    flow, the prompt and message compilers, and the agent's model, which
    yields its events one by one ([None] when it is exhausted). *)
Class Collaborators (X : Type) := {
  begin_turn : gmap nat Task * X → outcome unit * (gmap nat Task * X);
  should_end_turn : gmap nat Task * X → outcome bool * (gmap nat Task * X);
  should_end_session : gmap nat Task * X → outcome bool * (gmap nat Task * X);
  get_next_agent : Agent → list Agent →
    gmap nat Task * X → outcome Agent * (gmap nat Task * X);
  strategy_get_tools : Agent → list Agent →
    gmap nat Task * X → outcome (list Tool) * (gmap nat Task * X);
  handle : nat → Event → gmap nat Task * X → outcome unit * (gmap nat Task * X);
  flow_tools : list Tool;
  flow_add_task : nat → gmap nat Task * X → outcome unit * (gmap nat Task * X);
  flow_add_events : list Event →
    gmap nat Task * X → outcome unit * (gmap nat Task * X);
  render_prompt : Agent → list nat → list Tool →
    gmap nat Task * X → outcome string * (gmap nat Task * X);
  compile_to_messages : Agent → string →
    gmap nat Task * X → outcome (list string) * (gmap nat Task * X);
  run_model : Agent → list string → list Tool →
    gmap nat Task * X → outcome unit * (gmap nat Task * X);
  next_event : Agent →
    gmap nat Task * X → outcome (option (nat * bool)) * (gmap nat Task * X);
  (** the [persist] field the lifecycle event classes are built with *)
  lifecycle_persist : EventKind → bool;
  (** the handlers an orchestrator gets when none are given *)
  default_handlers : list nat;
}.

Record State (X : Type) := mkState {
  orchestrator : Orchestrator;
  task_heap : gmap nat Task;
  ext : X;
  log : list Obs;
}.
Arguments mkState {X} _ _ _ _.
Arguments orchestrator {X} _.
Arguments task_heap {X} _.
Arguments ext {X} _.
Arguments log {X} _.

(** *** Reading the log *)

(** The number of times [handle_event] was entered with an event of kind
    [k]. *)
Definition count_emitted (k : EventKind) (l : list Obs) : nat :=
  length (List.filter (λ o, match o with
                            | Emitted e => bool_decide (kind e = k)
                            | _ => false
                            end) l).

(** The number of times an agent's model was invoked. *)
Definition count_invoked (l : list Obs) : nat :=
  length (List.filter (λ o, match o with
                            | Invoked _ => true
                            | _ => false
                            end) l).

(** The three kinds of event that [run] builds. *)
Definition is_lifecycle (k : EventKind) : bool :=
  match k with
  | AgentEvent _ => false
  | _ => true
  end.

(** What [handle_event] leaves in the log after its own entry: calls of
    handlers and of [flow.add_events]. *)
Definition is_delivery (o : Obs) : Prop :=
  match o with
  | Handled _ _ | Persisted _ => True
  | Emitted _ | Invoked _ => False
  end.

(** A stretch of the log in which no lifecycle event is emitted. *)
Definition quiet (l : list Obs) : Prop :=
  ∀ k, is_lifecycle k = true → count_emitted k l = 0%nat.

Section Orchestration.
Context `{Runtime} {X : Type} `{Collaborators X}.

(** *** Task collection ([get_tasks]) *)

(** [task in l], for a list of tasks: identity first, then [__eq__]. *)
Definition task_in (h : heap) (task : nat) (l : list nat) : bool :=
  existsb (λ r, bool_decide (r = task)
                || match h !! task, h !! r with
                   | Some a, Some b => Task_eq h a b
                   | _, _ => false
                   end) l.

(** The nested function [collect_tasks] of [get_tasks], on the pair
    [(all_tasks, active_tasks)]. *)
Fixpoint collect_tasks (depth : nat) (h : heap) (is_root : bool) (task : nat)
    (acc : list nat * list nat) : outcome (list nat * list nat) :=
  match depth with
  | O => Raise RecursionError
  | S d =>
      match h !! task with
      | None => Raise Unallocated
      | Some t =>
          if task_in h task acc.1 then Ok acc
          else
            let all_tasks := acc.1 ++ [task] in
            let active_tasks :=
              if is_root && is_ready h t then acc.2 ++ [task] else acc.2 in
            foldl (λ m subtask, try_ m (collect_tasks d h is_root subtask))
              (Ok (all_tasks, active_tasks)) (subtasks h t)
      end
  end.

(** [for task in self.tasks: collect_tasks(task, is_root=True)] *)
Definition collect_roots (h : heap) (roots : list nat)
    : outcome (list nat * list nat) :=
  foldl (λ m task, try_ m (collect_tasks recursion_limit h true task))
    (Ok ([], [])) roots.

Definition active_tasks (h : heap) (o : Orchestrator) : outcome (list nat) :=
  let? acc := collect_roots h (tasks o) in Ok acc.2.

(** [[task for task in active_tasks if self.agent in task.get_agents()]] *)
Fixpoint assigned_among (h : heap) (a : Agent) (active : list nat)
    : outcome (list nat) :=
  match active with
  | [] => Ok []
  | r :: rest =>
      match h !! r with
      | None => Raise Unallocated
      | Some t =>
          let? l := get_agents h t in
          let? rest' := assigned_among h a rest in
          Ok (if bool_decide (a ∈ l) then r :: rest' else rest')
      end
  end.

Definition assigned_tasks (h : heap) (o : Orchestrator) : outcome (list nat) :=
  let? active := active_tasks h o in assigned_among h (agent o) active.

(** [while current: ...; current = current.parent], which does not end on
    a cyclic parent chain: [None] when [fuel] steps were not enough. *)
Fixpoint ancestors (fuel : nat) (h : heap) (current : option nat)
    (all_tasks : list nat) : option (outcome (list nat)) :=
  match current with
  | None => Some (Ok all_tasks)
  | Some c =>
      match fuel with
      | O => None
      | S n =>
          match h !! c with
          | None => Some (Raise Unallocated)
          | Some t =>
              ancestors n h (parent t)
                (if task_in h c all_tasks then all_tasks else all_tasks ++ [c])
          end
      end
  end.

Fixpoint all_ancestors (fuel : nat) (h : heap) (roots : list nat)
    (all_tasks : list nat) : option (outcome (list nat)) :=
  match roots with
  | [] => Some (Ok all_tasks)
  | task :: rest =>
      match h !! task with
      | None => Some (Raise Unallocated)
      | Some t =>
          match ancestors fuel h (parent t) all_tasks with
          | Some (Ok all') => all_ancestors fuel h rest all'
          | r => r
          end
      end
  end.

Definition get_tasks (fuel : nat) (filter : string) (h : heap)
    (o : Orchestrator) : option (outcome (list nat)) :=
  if bool_decide (filter ∉ ["active"; "assigned"; "all"]) then
    Some (Raise (ValueError "Invalid filter"))
  else if bool_decide (filter = "active") then Some (active_tasks h o)
  else if bool_decide (filter = "assigned") then Some (assigned_tasks h o)
  else
    match collect_roots h (tasks o) with
    | Raise e => Some (Raise e)
    | Ok acc => all_ancestors fuel h (tasks o) acc.1
    end.

(** *** Available agents ([get_available_agents]) *)

(** [set(a for t in active_tasks for a in t.get_agents())] *)
Fixpoint agents_of_tasks (h : heap) (active : list nat)
    : outcome (gset Agent) :=
  match active with
  | [] => Ok ∅
  | r :: rest =>
      match h !! r with
      | None => Raise Unallocated
      | Some t =>
          let? l := get_agents h t in
          let? s := agents_of_tasks h rest in
          Ok (list_to_set l ∪ s)
      end
  end.

Definition get_available_agents (h : heap) (o : Orchestrator)
    : outcome (list Agent) :=
  let? active := active_tasks h o in
  let? s := agents_of_tasks h active in
  Ok (elements (s ∪ {[agent o]})).

(** *** Stateful steps *)

(** A method of the orchestrator: it may raise, and leaves a state behind
    either way. *)
Definition M (A : Type) : Type := State X → outcome A * State X.

Definition ret {A} (a : A) : M A := λ s, (Ok a, s).

Definition bind {A B} (m : M A) (k : A → M B) : M B := λ s,
  match m s with
  | (Ok a, s') => k a s'
  | (Raise e, s') => (Raise e, s')
  end.

Notation "x <- m ;; k" := (bind m (λ x, k))
  (at level 100, m at next level, right associativity).

(** A pure computation on the current heap and orchestrator. *)
Definition reading {A} (f : heap → Orchestrator → outcome A) : M A := λ s,
  (f (task_heap s) (orchestrator s), s).

(** A call of a collaborator. *)
Definition external {A}
    (f : gmap nat Task * X → outcome A * (gmap nat Task * X)) : M A := λ s,
  let '(r, (h, x)) := f (task_heap s, ext s) in
  (r, mkState (orchestrator s) h x (log s)).

Definition note (o : Obs) : M unit := λ s,
  (Ok tt, mkState (orchestrator s) (task_heap s) (ext s) (log s ++ [o])).

(** [self.agent = a] *)
Definition set_agent (a : Agent) : M unit := λ s,
  (Ok tt,
   mkState (mkOrchestrator a (tasks (orchestrator s)) (handlers (orchestrator s)))
     (task_heap s) (ext s) (log s)).

(** *** Event handling ([handle_event]) *)

(** [for handler in hs: handler.handle(event)] *)
Fixpoint for_handlers (hs : list nat) (event : Event) : M unit :=
  match hs with
  | [] => ret tt
  | handler :: rest =>
      _ <- note (Handled handler event) ;;
      _ <- external (handle handler event) ;;
      for_handlers rest event
  end.

Definition handle_event (event : Event) : M unit :=
  _ <- note (Emitted event) ;;
  hs <- reading (λ _ o, Ok (handlers o)) ;;
  _ <- for_handlers hs event ;;
  if persist event then
    _ <- note (Persisted [event]) ;;
    external (flow_add_events [event])
  else ret tt.

(** *** Tools, prompt and messages of a turn *)

Definition get_tools : M (list Tool) :=
  assigned <- reading assigned_tasks ;;
  task_tools <- reading (λ h _,
    Ok (flat_map (λ r, match h !! r with
                       | Some t => Task_get_tools t
                       | None => []
                       end) assigned)) ;;
  available <- reading get_available_agents ;;
  a <- reading (λ _ o, Ok (agent o)) ;;
  strategy_tools <- external (strategy_get_tools a available) ;;
  ret (flow_tools ++ task_tools ++ strategy_tools).

Definition compile_prompt : M string :=
  tools <- get_tools ;;
  active <- reading active_tasks ;;
  a <- reading (λ _ o, Ok (agent o)) ;;
  external (render_prompt a active tools).

Definition compile_messages : M (list string) :=
  prompt <- compile_prompt ;;
  a <- reading (λ _ o, Ok (agent o)) ;;
  external (compile_to_messages a prompt).

(** *** One turn ([run_turn]) *)

(** [for event in self.agent._run_model(...): self.handle_event(event)],
    after the model was started; [None] when the model has not finished
    yielding within [fuel] events. *)
Fixpoint consume_events (fuel : nat) (a : Agent) (s : State X)
    : option (outcome unit * State X) :=
  match fuel with
  | O => None
  | S n =>
      match external (next_event a) s with
      | (Raise e, s1) => Some (Raise e, s1)
      | (Ok None, s1) => Some (Ok tt, s1)
      | (Ok (Some (payload, p)), s1) =>
          match handle_event (mkEvent (AgentEvent payload) p) s1 with
          | (Raise e, s2) => Some (Raise e, s2)
          | (Ok _, s2) => consume_events n a s2
          end
      end
  end.

(** [self.agent not in self.get_available_agents()] *)
Definition agent_unavailable : M bool :=
  available <- reading get_available_agents ;;
  a <- reading (λ _ o, Ok (agent o)) ;;
  ret (bool_decide (a ∉ available)).

(** The body of the [while] loop of [run_turn] up to the model's events. *)
Definition invoke_agent : M Agent :=
  messages <- compile_messages ;;
  tools <- get_tools ;;
  a <- reading (λ _ o, Ok (agent o)) ;;
  _ <- note (Invoked a) ;;
  _ <- external (run_model a messages tools) ;;
  ret a.

(** The [while] loop of [run_turn]; [None] when it has not ended within
    [fuel] iterations, each of at most [fuel] events. *)
Fixpoint turn_loop (fuel : nat) (s : State X) : option (outcome unit * State X) :=
  match fuel with
  | O => None
  | S n =>
      match external should_end_turn s with
      | (Raise e, s1) => Some (Raise e, s1)
      | (Ok true, s1) => Some (Ok tt, s1)
      | (Ok false, s1) =>
          match invoke_agent s1 with
          | (Raise e, s2) => Some (Raise e, s2)
          | (Ok a, s2) =>
              match consume_events fuel a s2 with
              | None => None
              | Some (Raise e, s3) => Some (Raise e, s3)
              | Some (Ok _, s3) =>
                  match reading active_tasks s3 with
                  | (Raise e, s4) => Some (Raise e, s4)
                  | (Ok [], s4) => Some (Ok tt, s4)
                  | (Ok (_ :: _), s4) =>
                      match agent_unavailable s4 with
                      | (Raise e, s5) => Some (Raise e, s5)
                      | (Ok true, s5) => Some (Ok tt, s5)
                      | (Ok false, s5) => turn_loop n s5
                      end
                  end
              end
          end
      end
  end.

Definition run_turn (fuel : nat) (s : State X) : option (outcome unit * State X) :=
  match external begin_turn s with
  | (Raise e, s1) => Some (Raise e, s1)
  | (Ok _, s1) =>
      match turn_loop fuel s1 with
      | None => None
      | Some (Raise e, s2) => Some (Raise e, s2)
      | Some (Ok _, s2) =>
          Some ((available <- reading get_available_agents ;;
                 a <- reading (λ _ o, Ok (agent o)) ;;
                 next <- external (get_next_agent a available) ;;
                 set_agent next) s2)
      end
  end.

(** *** The session ([run]) *)

(** [while self.get_tasks("active") and not
    self.turn_strategy.should_end_session(): self.run_turn()] *)
Fixpoint session_loop (fuel : nat) (s : State X)
    : option (outcome unit * State X) :=
  match fuel with
  | O => None
  | S n =>
      match reading active_tasks s with
      | (Raise e, s1) => Some (Raise e, s1)
      | (Ok [], s1) => Some (Ok tt, s1)
      | (Ok (_ :: _), s1) =>
          match external should_end_session s1 with
          | (Raise e, s2) => Some (Raise e, s2)
          | (Ok true, s2) => Some (Ok tt, s2)
          | (Ok false, s2) =>
              match run_turn fuel s2 with
              | None => None
              | Some (Raise e, s3) => Some (Raise e, s3)
              | Some (Ok _, s3) => session_loop n s3
              end
          end
      end
  end.

Definition lifecycle (k : EventKind) : Event := mkEvent k (lifecycle_persist k).

(** The [finally] clause: the event is handled, and the exception of the
    clause, if any, replaces what was on its way out. *)
Definition finally_end (r : outcome unit) (s : State X) : outcome unit * State X :=
  match handle_event (lifecycle OrchestratorEnd) s with
  | (Raise e, s') => (Raise e, s')
  | (Ok _, s') => (r, s')
  end.

Definition run (fuel : nat) (s : State X) : option (outcome unit * State X) :=
  match handle_event (lifecycle OrchestratorStart) s with
  | (Raise e, s1) => Some (Raise e, s1)
  | (Ok _, s1) =>
      match session_loop fuel s1 with
      | None => None
      | Some (Ok _, s2) => Some (finally_end (Ok tt) s2)
      | Some (Raise exc, s2) =>
          if is_Exception exc then
            match handle_event (lifecycle (OrchestratorError exc)) s2 with
            | (Raise e, s3) => Some (finally_end (Raise e) s3)
            | (Ok _, s3) => Some (finally_end (Raise exc) s3)
            end
          else Some (finally_end (Raise exc) s2)
      end
  end.

(** *** Running a task ([Task.run]) *)

(** How Python binds the keyword arguments of a call: each must name a
    parameter of the callee, or the call raises [TypeError] before the body
    runs. *)
Definition bind_keywords (parameters : list string)
    (kwargs : list (string * pyval)) : outcome unit :=
  match filter (λ kv, kv.1 ∉ parameters) kwargs with
  | [] => Ok tt
  | (k, _) :: _ => Raise (TypeError ("run() got an unexpected keyword argument " +:+ k))
  end.

(** [def run(self):] declares no parameter besides [self]. *)
Definition run_parameters : list string := [].

(** [orchestrator.run] called with the keyword arguments [kwargs] *)
Definition call_run (kwargs : list (string * pyval)) (fuel : nat) (s : State X)
    : option (outcome unit * State X) :=
  match bind_keywords run_parameters kwargs with
  | Raise e => Some (Raise e, s)
  | Ok _ => run fuel s
  end.

(** [for task in self.tasks: self.flow.add_task(task)] *)
Fixpoint add_tasks_to_flow (l : list nat) : M unit :=
  match l with
  | [] => ret tt
  | task :: rest => _ <- external (flow_add_task task) ;; add_tasks_to_flow rest
  end.

(** [Task.run]: the orchestrator is built for the task alone, run with the
    two limits, and the task's result is returned when it succeeded.  The
    state that goes in has the caller's heap; its orchestrator is replaced. *)
Definition Task_run (self : nat) (agent_arg : option Agent)
    (max_calls_per_turn max_turns : pyval) (fuel : nat) (s : State X)
    : option (outcome pyval * State X) :=
  match task_heap s !! self with
  | None => Some (Raise Unallocated, s)
  | Some t =>
      let chosen :=
        match agent_arg with
        | Some a => Ok a
        | None =>
            let? l := get_agents (task_heap s) t in
            match l with
            | a :: _ => Ok a
            | [] => Raise IndexError
            end
        end in
      match chosen with
      | Raise e => Some (Raise e, s)
      | Ok a =>
          let s0 :=
            mkState (mkOrchestrator a [self] default_handlers)
              (task_heap s) (ext s) (log s) in
          match add_tasks_to_flow [self] s0 with
          | (Raise e, s1) => Some (Raise e, s1)
          | (Ok _, s1) =>
              match call_run [("max_calls_per_turn", max_calls_per_turn);
                              ("max_turns", max_turns)] fuel s1 with
              | None => None
              | Some (Raise e, s2) => Some (Raise e, s2)
              | Some (Ok _, s2) =>
                  match task_heap s2 !! self with
                  | None => Some (Raise Unallocated, s2)
                  | Some t' =>
                      if is_successful t' then Some (Ok (result t'), s2)
                      else if is_failed t' then
                        Some (Raise (ValueError "failed"), s2)
                      else Some (Ok PyNone, s2)
                  end
              end
          end
      end
  end.

(** *** Relating two states by the log *)

(** [s'] comes after [s]: the log has grown by [l]. *)
Definition grows_by (l : list Obs) (s s' : State X) : Prop :=
  log s' = log s ++ l.

(** The log has grown, and no lifecycle event was emitted meanwhile. *)
Definition after_quietly (s s' : State X) : Prop :=
  ∃ l, grows_by l s s' ∧ quiet l.

Definition quiet_step {A} (m : M A) : Prop :=
  ∀ s, after_quietly s (m s).2.

End Orchestration.

(** ** Sample inputs *)

(** A runtime in which [str] is the one type pydantic knows, [repr] quotes
    strings, and the hash keeps its input apart. *)
Definition sample_runtime : Runtime := {|
  TypeAdapter ty :=
    if decide (ty = "str") then
      Some (λ v, match v with
                 | PyStr _ => Ok v
                 | _ => Raise (ValidationError "Input should be a valid string")
                 end)
    else None;
  call_type _ v := Ok v;
  hash_objects '(n, o, i, rt, p, c) :=
    n +:+ "|" +:+ o +:+ "|" +:+ default "" i +:+ "|" +:+ rt +:+ "|"
      +:+ default "" p +:+ "|" +:+ c;
  py_repr v :=
    match v with
    | PyNone => "None"
    | PyInt n => pretty n
    | PyStr s => "'" +:+ s +:+ "'"
    end;
  type_str ty := "<class '" +:+ ty +:+ "'>";
  recursion_limit := 1000;
  flow_agent := None;
  default_agent := "Marvin";
  Task_eq _ _ _ := false;
|}.

(** [Task(objective)] before its edges are wired: every other field at its
    default. *)
Definition fresh_task (objective : string) : Task :=
  mkTask None None objective None None [] None ∅ None PENDING PyNone
    (RT_Type "str") None [] false 0 ∅ ∅.

Definition with_result_type (v : ResultType) (t : Task) : Task :=
  mkTask (id t) (name t) (objective t) (instructions t) (agents t) (context t)
    (parent t) (depends_on t) (prompt t) (status t) (result t) v
    (result_validator t) (tools t) (interactive t) (created_at t)
    (_subtasks t) (_downstreams t).

Definition with_result_validator (v : option (pyval → outcome pyval))
    (t : Task) : Task :=
  mkTask (id t) (name t) (objective t) (instructions t) (agents t) (context t)
    (parent t) (depends_on t) (prompt t) (status t) (result t) (result_type t)
    v (tools t) (interactive t) (created_at t)
    (_subtasks t) (_downstreams t).

Definition with_name (v : option string) (t : Task) : Task :=
  mkTask (id t) v (objective t) (instructions t) (agents t) (context t)
    (parent t) (depends_on t) (prompt t) (status t) (result t) (result_type t)
    (result_validator t) (tools t) (interactive t) (created_at t)
    (_subtasks t) (_downstreams t).

Definition with_context (v : list (string * ctxval)) (t : Task) : Task :=
  mkTask (id t) (name t) (objective t) (instructions t) (agents t) v
    (parent t) (depends_on t) (prompt t) (status t) (result t) (result_type t)
    (result_validator t) (tools t) (interactive t) (created_at t)
    (_subtasks t) (_downstreams t).

(** A task whose result is one of three options. *)
Definition abc : list pyval := [PyStr "a"; PyStr "b"; PyStr "c"].
Definition choice_task : Task := with_result_type (RT_Options abc) (fresh_task "choose").

(** Task 1 with no dependency, task 2 depending on it. *)
Definition two_tasks : gmap nat Task :=
  {[ 1%nat := with_downstreams {[2%nat]} (fresh_task "first");
     2%nat := with_depends_on {[1%nat]} (fresh_task "second") ]}.

(** Collaborators that follow a script: handlers and the flow accept
    everything, the turn strategy never ends a turn or the session by
    itself, and the model, the first time it is asked for an event, either
    fails or marks task 1 successful and yields one event to persist. *)
Definition scripted (failing : bool) : Collaborators nat := {|
  begin_turn w := (Ok tt, w);
  should_end_turn w := (Ok false, w);
  should_end_session w := (Ok false, w);
  get_next_agent a _ w := (Ok a, w);
  strategy_get_tools _ _ w := (Ok [], w);
  handle _ _ w := (Ok tt, w);
  flow_tools := [];
  flow_add_task _ w := (Ok tt, w);
  flow_add_events _ w := (Ok tt, w);
  render_prompt _ _ _ w := (Ok "", w);
  compile_to_messages _ _ w := (Ok [], w);
  run_model _ _ _ w := (Ok tt, w);
  next_event _ w :=
    match w.2 with
    | O =>
        if failing then (Raise (ExternalError 1), (w.1, 1%nat))
        else (Ok (Some (7%nat, true)),
              ((@mark_successful sample_runtime 1 PyNone true w.1).2, 1%nat))
    | S _ => (Ok None, w)
    end;
  lifecycle_persist _ := false;
  default_handlers := [0%nat];
|}.

(** One pending task that expects no result, an orchestrator for it with
    two handlers, nothing logged yet. *)
Definition one_task : gmap nat Task :=
  {[ 1%nat := with_result_type RT_None (fresh_task "work") ]}.

Definition sample_state : State nat :=
  mkState (mkOrchestrator "Marvin" [1%nat] [0%nat; 1%nat]) one_task 0%nat [].

(** A task that is already SUCCESSFUL. *)
Definition done_heap : gmap nat Task :=
  {[ 1%nat := with_status SUCCESSFUL (fresh_task "done") ]}.

(** Task 2 depends on task 1, which has failed. *)
Definition after_failure : gmap nat Task :=
  {[ 1%nat := with_status FAILED (with_downstreams {[2%nat]} (fresh_task "first"));
     2%nat := with_depends_on {[1%nat]} (fresh_task "second") ]}.

(** The three-option task with a validator that upper-cases its input. *)
Definition upper (v : pyval) : outcome pyval :=
  if decide (v = PyStr "a") then Ok (PyStr "A")
  else if decide (v = PyStr "b") then Ok (PyStr "B")
  else if decide (v = PyStr "c") then Ok (PyStr "C")
  else Ok v.

Definition shouting_task : Task :=
  with_result_validator (Some upper) choice_task.

Definition choice_heap : gmap nat Task := {[ 1%nat := choice_task ]}.
Definition shouting_heap : gmap nat Task := {[ 1%nat := shouting_task ]}.

(** An orchestrator whose current agent has no task: the one task goes to
    the default agent. *)
Definition idle_agent_state : State nat :=
  mkState (mkOrchestrator "Nobody" [1%nat] []) one_task 0%nat [].

(** The sample session with the failing model, after the start signal and
    after the turn loop. *)
Definition failing_started : State nat :=
  (@handle_event nat (scripted true)
     (@lifecycle nat (scripted true) OrchestratorStart) sample_state).2.

Definition failing_stopped : State nat :=
  match @session_loop sample_runtime nat (scripted true) 3 failing_started with
  | Some (_, s) => s
  | None => failing_started
  end.

(** A task that takes task 1 as context, constructed twice on top of the
    two sample tasks. *)
Definition report : Task :=
  with_context [("data", CTask 1)] (fresh_task "report").

Definition first_report : outcome nat * gmap nat Task :=
  @Task_init sample_runtime report two_tasks.

Definition second_report : outcome nat * gmap nat Task :=
  @Task_init sample_runtime report first_report.2.

(** Collaborators with a model that yields nothing and completes nothing,
    and a turn strategy that ends neither turn nor session. *)
Definition stalling : Collaborators nat := {|
  begin_turn w := (Ok tt, w);
  should_end_turn w := (Ok false, w);
  should_end_session w := (Ok false, w);
  get_next_agent a _ w := (Ok a, w);
  strategy_get_tools _ _ w := (Ok [], w);
  handle _ _ w := (Ok tt, w);
  flow_tools := [];
  flow_add_task _ w := (Ok tt, w);
  flow_add_events _ w := (Ok tt, w);
  render_prompt _ _ _ w := (Ok "", w);
  compile_to_messages _ _ w := (Ok [], w);
  run_model _ _ _ w := (Ok tt, w);
  next_event _ w := (Ok None, w);
  lifecycle_persist _ := false;
  default_handlers := [];
|}.

Definition stalled (l : list Obs) : State nat :=
  mkState (mkOrchestrator "Marvin" [1%nat] []) one_task 0%nat l.

(** ** Further operations of a task *)

(** The field validator [_validate_agents]: an empty list is refused. *)
Definition _validate_agents (v : option (list Agent))
    : outcome (option (list Agent)) :=
  match v with
  | Some [] => Raise (ValueError "Agents must be `None` or a non-empty list of agents.")
  | _ => Ok v
  end.

(** The edges of the graph at a task. *)
Definition edges (t : Task) : option nat * gset nat * gset nat * gset nat :=
  (parent t, depends_on t, _subtasks t, _downstreams t).

(** What a status transition may change of a task. *)
Definition outcome_of (t : Task) : TaskStatus * pyval := (status t, result t).

(** ** What a collection of tasks should be *)

(** The tasks that the roots reach through subtask edges. *)
Inductive reaches (h : gmap nat Task) (roots : list nat) : nat → Prop :=
  | reaches_root r : r ∈ roots → reaches h roots r
  | reaches_subtask p P r :
      reaches h roots p → h !! p = Some P → r ∈ _subtasks P →
      reaches h roots r.

(** A pair [(all_tasks, active_tasks)] as [get_tasks] should build it: no
    task twice, every task existing and reached from the roots, and the
    active ones the ready ones, in the same order. *)
Definition well_collected (h : gmap nat Task) (roots : list nat)
    (acc : list nat * list nat) : Prop :=
  NoDup acc.1
  ∧ (∀ r, r ∈ acc.1 → is_Some (h !! r) ∧ reaches h roots r)
  ∧ acc.2 = List.filter (at_ref h (is_ready h)) acc.1.

(** What one call of [collect_tasks] owes, given what the calls one level
    deeper owe. *)
Definition collects `{Runtime} (depth : nat) (h : heap) (roots : list nat) : Prop :=
  ∀ task acc acc',
    collect_tasks depth h true task acc = Ok acc' →
    well_collected h roots acc →
    reaches h roots task →
    ∃ more,
      acc'.1 = acc.1 ++ more
      ∧ well_collected h roots acc'
      ∧ task_in h task acc'.1 = true
      ∧ (∀ p P s, p ∈ more → h !! p = Some P → s ∈ _subtasks P →
           task_in h s acc'.1 = true).

(** ** Further sample inputs *)

(** A parent task 1 with the subtasks 2 and 3, all pending. *)
Definition family : gmap nat Task :=
  {[ 1%nat := with_depends_on {[2%nat; 3%nat]}
                (with_subtasks {[2%nat; 3%nat]} (fresh_task "parent"));
     2%nat := with_parent (Some 1%nat) (fresh_task "left");
     3%nat := with_parent (Some 1%nat) (fresh_task "right") ]}.

(** ** Relating two states of one turn *)

(** No model but [a]'s is invoked in the stretch [l] of the log. *)
Definition only_invokes (a : Agent) (l : list Obs) : Prop :=
  ∀ b, Invoked b ∈ l → b = a.

(** [s'] comes after [s] within one turn: the orchestrator is the same, and
    only its agent's model was invoked meanwhile. *)
Definition same_turn {X} (s s' : State X) : Prop :=
  orchestrator s' = orchestrator s
  ∧ ∃ l, log s' = log s ++ l ∧ only_invokes (agent (orchestrator s)) l.

Definition turn_step {X A} (m : State X → outcome A * State X) : Prop :=
  ∀ s, same_turn s (m s).2.

(** The orchestrator of [s'] has the tasks and the handlers of [s]. *)
Definition same_session {X} (s s' : State X) : Prop :=
  tasks (orchestrator s') = tasks (orchestrator s)
  ∧ handlers (orchestrator s') = handlers (orchestrator s).

(** An orchestrator for a task that is SUCCESSFUL already. *)
Definition finished_state : State nat :=
  mkState (mkOrchestrator "Marvin" [1%nat] [0%nat]) done_heap 0%nat [].

(** ** Edges that a construction adds *)

(** Every task of [h] is still in [h'], with at least the edges it had,
    and with the parent it had, if it had one. *)
Definition edges_grow (h h' : gmap nat Task) : Prop :=
  ∀ x a, h !! x = Some a →
    ∃ a', h' !! x = Some a'
          ∧ depends_on a ⊆ depends_on a'
          ∧ _subtasks a ⊆ _subtasks a'
          ∧ _downstreams a ⊆ _downstreams a'
          ∧ (∀ q, parent a = Some q → parent a' = Some q).

(** The two ends of a dependency of [self] on [d]. *)
Definition wired (h : gmap nat Task) (self d : nat) : Prop :=
  (∃ a, h !! self = Some a ∧ d ∈ depends_on a)
  ∧ (∃ b, h !! d = Some b ∧ self ∈ _downstreams b).

(** ** The parent chain *)

(** [a] is met when walking up from [current] along [parent]. *)
Inductive on_chain (h : gmap nat Task) : option nat → nat → Prop :=
  | on_chain_here c : on_chain h (Some c) c
  | on_chain_up c t a :
      h !! c = Some t → on_chain h (parent t) a → on_chain h (Some c) a.

(** The sample family with a fourth task whose result type has no schema. *)
Definition with_agents (v : option (list Agent)) (t : Task) : Task :=
  mkTask (id t) (name t) (objective t) (instructions t) v (context t)
    (parent t) (depends_on t) (prompt t) (status t) (result t) (result_type t)
    (result_validator t) (tools t) (interactive t) (created_at t)
    (_subtasks t) (_downstreams t).

Definition with_created_at (v : Z) (t : Task) : Task :=
  mkTask (id t) (name t) (objective t) (instructions t) (agents t) (context t)
    (parent t) (depends_on t) (prompt t) (status t) (result t) (result_type t)
    (result_validator t) (tools t) (interactive t) v
    (_subtasks t) (_downstreams t).

(** A parent with agents of its own and a child that has none. *)
Definition staffed : gmap nat Task :=
  {[ 1%nat := with_agents (Some ["Ada"; "Bob"])
                (with_depends_on {[2%nat]}
                   (with_subtasks {[2%nat]} (fresh_task "parent")));
     2%nat := with_parent (Some 1%nat) (fresh_task "child") ]}.

(** A task whose result type pydantic has no schema for. *)
Definition schemaless : gmap nat Task :=
  {[ 1%nat := with_result_type (RT_Type "Custom") (fresh_task "build") ]}.

(** An orchestrator for the left child of the sample family. *)
Definition left_child : Orchestrator := mkOrchestrator "Marvin" [2%nat] [].

(** ** Sample heaps after an operation *)

(** The sample family after [add_subtask(1, 2)], which changes nothing of
    it but goes through. *)
Definition adopted : gmap nat Task := (add_subtask 1 2 family).2.

(** The two sample tasks after [add_dependency(1, 2)], after
    [mark_skipped(1)] and after [mark_failed(1)]. *)
Definition rewired : gmap nat Task := (add_dependency 1 2 two_tasks).2.
Definition skipped_first : gmap nat Task := (mark_skipped 1 two_tasks).2.
Definition failed_first : gmap nat Task := (mark_failed 1 None two_tasks).2.

(** An orchestrator for the staffed parent, run by one of its agents. *)
Definition ada : Orchestrator := mkOrchestrator "Ada" [1%nat] [].

(** ** Sample collaborators that raise *)

(** Collaborators whose handler 1 refuses every event. *)
Definition picky : Collaborators nat := {|
  begin_turn w := (Ok tt, w);
  should_end_turn w := (Ok false, w);
  should_end_session w := (Ok false, w);
  get_next_agent a _ w := (Ok a, w);
  strategy_get_tools _ _ w := (Ok [], w);
  handle k _ w :=
    if decide (k = 1%nat) then (Raise (ExternalError 2), w) else (Ok tt, w);
  flow_tools := [];
  flow_add_task _ w := (Ok tt, w);
  flow_add_events _ w := (Ok tt, w);
  render_prompt _ _ _ w := (Ok "", w);
  compile_to_messages _ _ w := (Ok [], w);
  run_model _ _ _ w := (Ok tt, w);
  next_event _ w := (Ok None, w);
  lifecycle_persist _ := true;
  default_handlers := [];
|}.

(** The sample session with the picky handler, after the start signal. *)
Definition refused_start : State nat :=
  (@handle_event nat picky (@lifecycle nat picky OrchestratorStart)
     sample_state).2.

(** Collaborators whose model is interrupted from the keyboard. *)
Definition interrupted : Collaborators nat := {|
  begin_turn w := (Ok tt, w);
  should_end_turn w := (Ok false, w);
  should_end_session w := (Ok false, w);
  get_next_agent a _ w := (Ok a, w);
  strategy_get_tools _ _ w := (Ok [], w);
  handle _ _ w := (Ok tt, w);
  flow_tools := [];
  flow_add_task _ w := (Ok tt, w);
  flow_add_events _ w := (Ok tt, w);
  render_prompt _ _ _ w := (Ok "", w);
  compile_to_messages _ _ w := (Ok [], w);
  run_model _ _ _ w := (Ok tt, w);
  next_event _ w := (Raise KeyboardInterrupt, w);
  lifecycle_persist _ := false;
  default_handlers := [];
|}.

Definition interrupted_started : State nat :=
  (@handle_event nat interrupted (@lifecycle nat interrupted OrchestratorStart)
     sample_state).2.

Definition interrupted_stopped : State nat :=
  match @session_loop sample_runtime nat interrupted 3 interrupted_started with
  | Some (_, s) => s
  | None => interrupted_started
  end.

(** The session on the finished task, after the start signal. *)
Definition finished_started : State nat :=
  (@handle_event nat stalling (@lifecycle nat stalling OrchestratorStart)
     finished_state).2.

(** ** The earlier task and controller (control_flow/core) *)

Module Legacy.

Inductive TaskStatus :=
  | PENDING
  | COMPLETED
  | FAILED.

#[global] Instance TaskStatus_eq_dec : EqDecision TaskStatus.
Proof. solve_decision. Defined.

(** The tools of an assistant: the two that a task builds around its own
    [complete] and [fail], named after the id the flow has for the task, and
    the others, by name. *)
Inductive AssistantTool :=
  | complete_tool (task : nat) (task_id : nat)
  | fail_tool (task : nat) (task_id : nat)
  | other_tool (name : string).

#[global] Instance AssistantTool_eq_dec : EqDecision AssistantTool.
Proof. solve_decision. Defined.

Record Task := mkTask {
  objective : string;
  status : TaskStatus;
  result : pyval;
  error : option string;
  tools : list AssistantTool;
  completed_at : option Z;
}.

(** [complete(result)] and [fail(message)], at the time [now] that
    [datetime.datetime.now()] returns. *)
Definition complete (self : nat) (r : pyval) (now : Z)
    (h : gmap nat Task) : gmap nat Task :=
  alter (λ t, mkTask (objective t) COMPLETED r (error t) (tools t) (Some now))
    self h.

Definition fail (self : nat) (message : option string) (now : Z)
    (h : gmap nat Task) : gmap nat Task :=
  alter (λ t, mkTask (objective t) FAILED (result t) message (tools t) (Some now))
    self h.

(** [get_tools(task_id)] of the task at [self]. *)
Definition get_tools (self : nat) (t : Task) (task_id : nat)
    : list AssistantTool :=
  [complete_tool self task_id; fail_tool self task_id] ++ tools t.

Record Controller := mkController {
  agents : list Agent;
  tasks : list nat;
  user_access : option bool;
}.

(** The field validator of [agents]. *)
Definition _validate_agents (v : list Agent) : outcome (list Agent) :=
  match v with
  | [] => Raise (ValueError "At least one agent is required.")
  | _ => Ok v
  end.

(** What the controller takes from outside the repository's files, each
    acting on a state [X] of its own: the delegation strategy (which may
    answer with no agent), the flow, the agents' own tools, the template
    of the instructions, the assistant's run, which may call the tools and
    so change the tasks, and the artifacts written after it. *)
Class Surroundings (X : Type) := {
  delegation_strategy : list Agent → X → outcome (option Agent) * X;
  flow_tools : X → list AssistantTool;
  flow_get_task_id : nat → X → outcome nat;
  agent_get_tools : Agent → option bool → list AssistantTool;
  render : Agent → Controller → X → outcome string;
  run_assistant : Agent → string → list AssistantTool →
    gmap nat Task * X → outcome unit * (gmap nat Task * X);
  create_artifacts : gmap nat Task * X → outcome unit * (gmap nat Task * X);
}.

Section Controller.
Context {X : Type} `{Surroundings X}.

(** [for task in self.tasks: tools = tools + task.get_tools(task_id)] *)
Fixpoint task_tools (h : gmap nat Task) (x : X) (l : list nat)
    (acc : list AssistantTool) : outcome (list AssistantTool) :=
  match l with
  | [] => Ok acc
  | task :: rest =>
      match flow_get_task_id task x with
      | Raise e => Raise e
      | Ok task_id =>
          match h !! task with
          | None => Raise Unallocated
          | Some t => task_tools h x rest (acc ++ get_tools task t task_id)
          end
      end
  end.

(** The tools that [run_agent] hands to the assistant. *)
Definition run_tools (c : Controller) (a : Agent) (h : gmap nat Task) (x : X)
    : outcome (list AssistantTool) :=
  task_tools h x (tasks c) (flow_tools x ++ agent_get_tools a (user_access c)).






End Controller.

(** One pending task and a controller with one agent for it; an assistant
    that completes the task with its first tool of that kind. *)
Definition draft : gmap nat Task :=
  {[ 1%nat := mkTask "write" PENDING PyNone None [other_tool "search"] None ]}.

Definition solo : Controller := mkController ["Marvin"] [1%nat] None.

Definition diligent : Surroundings nat := {|
  delegation_strategy _ x := (Ok None, x);
  flow_tools _ := [];
  flow_get_task_id task _ := Ok (10 + task)%nat;
  agent_get_tools _ _ := [];
  render _ _ _ := Ok "";
  run_assistant _ _ tools s :=
    match tools with
    | complete_tool task _ :: _ => (Ok tt, (complete task (PyStr "text") 5 s.1, s.2))
    | _ => (Ok tt, s)
    end;
  create_artifacts s := (Ok tt, s);
|}.

End Legacy.

(** * Properties *)

(** ** Readiness *)

Lemma is_incomplete_iff (t : Task) :
  is_incomplete t = true ↔ status t = PENDING ∨ status t = RUNNING.
Proof.
  unfold is_incomplete, INCOMPLETE_STATUSES.
  rewrite bool_decide_eq_true. set_solver.
Qed.

Lemma is_complete_iff (t : Task) :
  is_complete t = true ↔
  status t = SUCCESSFUL ∨ status t = FAILED ∨ status t = SKIPPED.
Proof.
  unfold is_complete, COMPLETE_STATUSES.
  rewrite bool_decide_eq_true. set_solver.
Qed.

Lemma is_complete_negb (t : Task) : is_complete t = negb (is_incomplete t).
Proof.
  unfold is_complete, is_incomplete, COMPLETE_STATUSES, INCOMPLETE_STATUSES.
  destruct (status t); reflexivity.
Qed.

Lemma forallb_elements (f : nat → bool) (s : gset nat) :
  forallb f (elements s) = true ↔ ∀ r, r ∈ s → f r = true.
Proof.
  rewrite forallb_forall. split; intros Hf r Hr.
  - apply Hf. apply list_elem_of_In. by apply elem_of_elements.
  - apply Hf. apply elem_of_elements. by apply list_elem_of_In.
Qed.

Lemma existsb_elements (f : nat → bool) (s : gset nat) :
  existsb f (elements s) = true ↔ ∃ r, r ∈ s ∧ f r = true.
Proof.
  rewrite existsb_exists. split; intros (r & Hr & Hf); exists r; split; try done.
  - apply elem_of_elements. by apply list_elem_of_In.
  - apply list_elem_of_In. by apply elem_of_elements.
Qed.

Lemma at_ref_true (h : heap) (f : Task → bool) (r : nat) :
  at_ref h f r = true ↔ ∃ d, h !! r = Some d ∧ f d = true.
Proof.
  unfold at_ref. destruct (h !! r) as [d|]; split.
  - intros Hf. by exists d.
  - by intros (d' & [= <-] & Hf).
  - done.
  - by intros (d' & [=] & _).
Qed.

(** C1.  [is_ready(t)] holds exactly when [t] is PENDING or RUNNING and
    every task of [t.depends_on] is SUCCESSFUL, FAILED or SKIPPED; and its
    value is the same for any task and heap that agree with [t] on the
    status, on [depends_on] and on the statuses of those dependencies, so
    no other field has a say. *)
Theorem is_ready_iff (h : heap) (t : Task) :
  (is_ready h t = true ↔
     (status t = PENDING ∨ status t = RUNNING) ∧
     ∀ r, r ∈ depends_on t →
       ∃ d, h !! r = Some d ∧
            (status d = SUCCESSFUL ∨ status d = FAILED ∨ status d = SKIPPED))
  ∧ (∀ (h' : heap) (t' : Task),
       status t' = status t →
       depends_on t' = depends_on t →
       (∀ r, r ∈ depends_on t → status <$> h' !! r = status <$> h !! r) →
       is_ready h' t' = is_ready h t).
Proof.
  split.
  - unfold is_ready.
    rewrite andb_true_iff, is_incomplete_iff, forallb_elements.
    split; intros [Hs Hd]; split; try done; intros r Hr.
    + apply Hd, at_ref_true in Hr as (d & Hd' & Hc).
      exists d. split; [done|]. by apply is_complete_iff.
    + apply at_ref_true. destruct (Hd r Hr) as (d & Hd' & Hc).
      exists d. split; [done|]. by apply is_complete_iff.
  - intros h' t' Hst Hdep Hagree. unfold is_ready.
    f_equal.
    + unfold is_incomplete. by rewrite Hst.
    + rewrite Hdep.
      assert (Hall : ∀ r, r ∈ elements (depends_on t) →
                at_ref h' is_complete r = at_ref h is_complete r).
      { intros r Hr%elem_of_elements. specialize (Hagree r Hr).
        unfold at_ref, is_complete.
        destruct (h' !! r) as [d'|], (h !! r) as [d|]; simpl in Hagree;
          try done.
        by injection Hagree as ->. }
      induction (elements (depends_on t)) as [|r l IH]; [done|].
      simpl. rewrite Hall by set_solver. f_equal. apply IH.
      intros r' Hr'. apply Hall. set_solver.
Qed.

Lemma any_incomplete_true (h : heap) (s : gset nat) :
  any_incomplete h s = true ↔
  ∃ u d, u ∈ s ∧ h !! u = Some d ∧ (status d = PENDING ∨ status d = RUNNING).
Proof.
  unfold any_incomplete. rewrite existsb_elements. split.
  - intros (u & Hu & (d & Hd & Hi)%at_ref_true).
    exists u, d. by rewrite <- is_incomplete_iff.
  - intros (u & d & Hu & Hd & Hi). exists u. split; [done|].
    apply at_ref_true. exists d. by rewrite is_incomplete_iff.
Qed.

Lemma any_incomplete_false (h : heap) (s : gset nat) :
  any_incomplete h s = false ↔
  ∀ u d, u ∈ s → h !! u = Some d →
    status d = SUCCESSFUL ∨ status d = FAILED ∨ status d = SKIPPED.
Proof.
  rewrite <- not_true_iff_false, any_incomplete_true. split.
  - intros Hno u d Hu Hd. apply is_complete_iff. rewrite is_complete_negb.
    apply negb_true_iff, not_true_iff_false. intros Hi%is_incomplete_iff.
    apply Hno. by exists u, d.
  - intros Hall (u & d & Hu & Hd & Hi).
    specialize (Hall u d Hu Hd). destruct Hi as [Hi|Hi]; rewrite Hi in Hall;
      naive_solver.
Qed.

(** ** Subtasks *)

Section TaskProperties.
Context `{Runtime}.

Lemma lookup_set_status (h : heap) (self : nat) (st : TaskStatus) (t : Task) :
  h !! self = Some t →
  set_status self st h !! self = Some (with_status st t).
Proof. intros Ht. unfold set_status. by rewrite lookup_alter_eq, Ht. Qed.

Lemma mark_successful_unfold (h : heap) (self : nat) (t : Task) (r : pyval)
    (vu : bool) :
  h !! self = Some t →
  mark_successful self r vu h =
    if vu && (any_incomplete h (depends_on t) || any_incomplete h (_subtasks t))
    then (Raise (ValueError
            (if any_incomplete h (depends_on t)
             then "cannot be marked successful until all of its upstream dependencies are completed."
             else "cannot be marked successful until all of its subtasks are completed.")), h)
    else match validate_result t r with
         | Raise e => (Raise e, h)
         | Ok v => (Ok tt, set_status self SUCCESSFUL (alter (with_result v) self h))
         end.
Proof.
  intros Ht. unfold mark_successful, on_task. rewrite Ht.
  destruct vu, (any_incomplete h (depends_on t)),
    (any_incomplete h (_subtasks t)); reflexivity.
Qed.

Lemma mark_successful_committed (h : heap) (self : nat) (t : Task) (v : pyval) :
  h !! self = Some t →
  status <$> set_status self SUCCESSFUL (alter (with_result v) self h) !! self
    = Some SUCCESSFUL
  ∧ result <$> set_status self SUCCESSFUL (alter (with_result v) self h) !! self
    = Some v.
Proof.
  intros Ht. unfold set_status. by rewrite !lookup_alter_eq, Ht.
Qed.

(** C5.  [add_subtask(parent, child)], for a child whose parent is unset,
    sets it to [parent]; for a child that has another parent it raises
    [ValueError] and changes nothing; and whenever it does not raise (the
    parent was unset, or was [parent] already) the child is afterwards in
    the parent's [_subtasks] and in its [depends_on], which are otherwise as
    before. *)
Theorem add_subtask_spec (h : heap) (self task : nat) (p c : Task) :
  h !! self = Some p →
  h !! task = Some c →
  (parent c = None →
     ∃ h', add_subtask self task h = (Ok tt, h')
           ∧ parent <$> h' !! task = Some (Some self))
  ∧ (∀ q, parent c = Some q → q ≠ self →
       ∃ msg, add_subtask self task h = (Raise (ValueError msg), h))
  ∧ (∀ h', add_subtask self task h = (Ok tt, h') →
       parent <$> h' !! task = Some (Some self)
       ∧ _subtasks <$> h' !! self = Some ({[task]} ∪ _subtasks p)
       ∧ depends_on <$> h' !! self = Some ({[task]} ∪ depends_on p)).
Proof.
  intros Hp Hc. unfold add_subtask, on_task. rewrite Hp, Hc.
  assert (Hok : ∀ h0 : heap,
    h0 !! self = Some p ∨ h0 !! self = Some (with_parent (Some self) p) →
    (parent <$> h0 !! task = Some (Some self)) →
    parent <$> alter (adopt task) self h0 !! task = Some (Some self)
    ∧ _subtasks <$> alter (adopt task) self h0 !! self
      = Some ({[task]} ∪ _subtasks p)
    ∧ depends_on <$> alter (adopt task) self h0 !! self
      = Some ({[task]} ∪ depends_on p)).
  { intros h0 H0 Hpar. rewrite lookup_alter_eq. split.
    - destruct (decide (self = task)) as [->|Hne].
      + rewrite lookup_alter_eq. destruct (h0 !! task); simpl in *; congruence.
      + by rewrite lookup_alter_ne.
    - destruct H0 as [-> | ->]; done. }
  assert (Hfresh : parent c = None →
    parent <$> alter (adopt task) self (alter (with_parent (Some self)) task h)
                 !! task = Some (Some self)
    ∧ _subtasks <$> alter (adopt task) self
                      (alter (with_parent (Some self)) task h) !! self
      = Some ({[task]} ∪ _subtasks p)
    ∧ depends_on <$> alter (adopt task) self
                       (alter (with_parent (Some self)) task h) !! self
      = Some ({[task]} ∪ depends_on p)).
  { intros _. apply Hok.
    - destruct (decide (task = self)) as [->|Hne].
      + right. by rewrite lookup_alter_eq, Hp.
      + left. by rewrite lookup_alter_ne.
    - by rewrite lookup_alter_eq, Hc. }
  split; [|split].
  - intros Hnone. rewrite Hnone. eexists. split; [done|].
    by apply Hfresh.
  - intros q Hq Hne. rewrite Hq. rewrite decide_False by done. by eexists.
  - intros h'. destruct (parent c) as [q|] eqn:Hq.
    + destruct (decide (q = self)) as [->|Hne]; [|done].
      intros [= <-]. apply Hok; [by left|]. by rewrite Hc; simpl; rewrite Hq.
    + intros [= <-]. by apply Hfresh.
Qed.

(** ** Status transitions *)

(** C2, amended.  [mark_successful(t, result)] with [validate_upstreams]
    left at its default raises [ValueError] and changes nothing when a
    dependency or a subtask of [t] is incomplete.  When all of them are
    complete the result is validated: if [validate_result] raises, that
    error propagates and nothing changes; if it returns [v], the call
    succeeds, and afterwards [t.status] is SUCCESSFUL and [t.result] is
    [v]. *)
Theorem mark_successful_upstream (h : heap) (self : nat) (t : Task) (r : pyval) :
  h !! self = Some t →
  ((∃ u d, (u ∈ depends_on t ∨ u ∈ _subtasks t) ∧ h !! u = Some d
           ∧ (status d = PENDING ∨ status d = RUNNING)) →
     ∃ msg, mark_successful self r true h = (Raise (ValueError msg), h))
  ∧ ((∀ u d, u ∈ depends_on t ∨ u ∈ _subtasks t → h !! u = Some d →
        status d = SUCCESSFUL ∨ status d = FAILED ∨ status d = SKIPPED) →
     match validate_result t r with
     | Raise e => mark_successful self r true h = (Raise e, h)
     | Ok v =>
         ∃ h', mark_successful self r true h = (Ok tt, h')
               ∧ status <$> h' !! self = Some SUCCESSFUL
               ∧ result <$> h' !! self = Some v
     end).
Proof.
  intros Ht. rewrite (mark_successful_unfold h self t r true Ht). split.
  - intros (u & d & [Hu|Hu] & Hd & Hi).
    + assert (any_incomplete h (depends_on t) = true) as ->
        by (apply any_incomplete_true; eauto).
      by eexists.
    + assert (any_incomplete h (_subtasks t) = true) as ->
        by (apply any_incomplete_true; eauto).
      rewrite orb_true_r. by eexists.
  - intros Hall.
    assert (any_incomplete h (depends_on t) = false) as ->
      by (apply any_incomplete_false; eauto).
    assert (any_incomplete h (_subtasks t) = false) as ->
      by (apply any_incomplete_false; eauto).
    simpl. destruct (validate_result t r) as [v|e]; [|done].
    eexists. split; [done|]. by apply (mark_successful_committed h self t).
Qed.

(** C3, amended.  The status transitions do not look at the current status.
    For every task [t], terminal or not, [mark_running], [mark_failed] and
    [mark_skipped] succeed and leave [t.status] at RUNNING, FAILED and
    SKIPPED; [mark_successful] either raises and changes nothing or leaves
    it at SUCCESSFUL.  The one rejection that depends on the status is in
    the success tool, which raises [ValueError] for a task that is already
    SUCCESSFUL. *)
Theorem status_transitions_unconditional (h : heap) (self : nat) (t : Task) :
  h !! self = Some t →
  (∃ h', mark_running self h = (Ok tt, h')
         ∧ status <$> h' !! self = Some RUNNING)
  ∧ (∀ reason, ∃ h', mark_failed self reason h = (Ok tt, h')
                     ∧ status <$> h' !! self = Some FAILED)
  ∧ (∃ h', mark_skipped self h = (Ok tt, h')
           ∧ status <$> h' !! self = Some SKIPPED)
  ∧ (∀ r vu,
       (∃ e, mark_successful self r vu h = (Raise e, h))
       ∨ (∃ h', mark_successful self r vu h = (Ok tt, h')
                ∧ status <$> h' !! self = Some SUCCESSFUL))
  ∧ (status t = SUCCESSFUL →
       ∀ options r, ∃ msg,
         succeed self options r h = (Raise (ValueError msg), h)).
Proof.
  intros Ht. split; [|split; [|split; [|split]]].
  - unfold mark_running, on_task. rewrite Ht. eexists. split; [done|].
    by rewrite (lookup_set_status _ _ _ _ Ht).
  - intros reason. unfold mark_failed, on_task. rewrite Ht.
    eexists. split; [done|]. unfold set_status.
    by rewrite !lookup_alter_eq, Ht.
  - unfold mark_skipped, on_task. rewrite Ht. eexists. split; [done|].
    by rewrite (lookup_set_status _ _ _ _ Ht).
  - intros r vu. rewrite (mark_successful_unfold h self t r vu Ht).
    destruct (vu && _); [left; by eexists|].
    destruct (validate_result t r) as [v|e]; [right|left; by eexists].
    eexists. split; [done|]. by apply (mark_successful_committed h self t).
  - intros Hst options r. unfold succeed, on_task. rewrite Ht.
    unfold is_successful. rewrite bool_decide_eq_true_2 by done. by eexists.
Qed.

(** ** Result validation *)

Lemma validate_result_option (t : Task) (options : list pyval) (o : pyval) :
  result_type t = RT_Options options →
  o ∈ options →
  validate_result t o =
    match result_validator t with
    | None => Ok o
    | Some validator => validator o
    end.
Proof.
  intros Hrt Ho. unfold validate_result. rewrite Hrt.
  by rewrite decide_True by done.
Qed.

Lemma option_at_index (options : list pyval) (i : nat) :
  option_at options (PyInt (Z.of_nat i)) = options !! i.
Proof.
  unfold option_at. rewrite decide_True by lia. by rewrite Nat2Z.id.
Qed.

(** What [succeed] does with the index of an option. *)
Lemma succeed_unfold (h : heap) (self : nat) (t : Task)
    (options : list pyval) (i : nat) (o : pyval) :
  h !! self = Some t →
  result_type t = RT_Options options →
  options !! i = Some o →
  succeed self options (PyInt (Z.of_nat i)) h =
    if is_successful t then
      (Raise (ValueError "is already marked successful."), h)
    else
      match mark_successful self o true h with
      | (Ok _, h') => (Ok "marked successful.", h')
      | (Raise e, h') => (Raise e, h')
      end.
Proof.
  intros Ht Hrt Ho. unfold succeed, on_task. rewrite Ht.
  destruct (is_successful t); [done|].
  destruct options as [|o0 options]; [done|].
  by rewrite option_at_index, Ho.
Qed.

(** C4, amended.  (a) For a task whose result type is [None], a raw result
    other than [None] makes [validate_result] raise [ValueError], and
    [mark_successful] raise and change nothing.  (b) For a task whose result
    type is a tuple of options, so does a raw result that is not among the
    options.  (c) The success tool of such a task captures the options;
    called with the index of an option it never commits the index: whenever
    it succeeds, the committed result is that option when the task has no
    [result_validator], and otherwise what the validator returned for that
    option; and it does succeed, committing the option, when the task is
    not yet successful, its upstream tasks are complete and it has no
    validator. *)
Theorem result_validation (h : heap) (self : nat) (t : Task) :
  h !! self = Some t →
  (result_type t = RT_None → ∀ raw vu, raw ≠ PyNone →
     (∃ msg, validate_result t raw = Raise (ValueError msg))
     ∧ (∃ e, mark_successful self raw vu h = (Raise e, h)))
  ∧ (∀ options, result_type t = RT_Options options →
       (∀ raw vu, raw ∉ options →
          (∃ msg, validate_result t raw = Raise (ValueError msg))
          ∧ (∃ e, mark_successful self raw vu h = (Raise e, h)))
       ∧ create_success_tool self h = Ok (succeed self options)
       ∧ (∀ (i : nat) o msg h', options !! i = Some o →
            succeed self options (PyInt (Z.of_nat i)) h = (Ok msg, h') →
            ∃ v, result <$> h' !! self = Some v
                 ∧ status <$> h' !! self = Some SUCCESSFUL
                 ∧ match result_validator t with
                   | None => v = o
                   | Some validator => validator o = Ok v
                   end)
       ∧ (∀ (i : nat) o, options !! i = Some o →
            status t ≠ SUCCESSFUL →
            any_incomplete h (depends_on t) = false →
            any_incomplete h (_subtasks t) = false →
            result_validator t = None →
            ∃ msg h', succeed self options (PyInt (Z.of_nat i)) h = (Ok msg, h')
                      ∧ result <$> h' !! self = Some o)).
Proof.
  intros Ht. split.
  - intros Hrt raw vu Hraw.
    assert (Hv : ∃ msg, validate_result t raw = Raise (ValueError msg)).
    { unfold validate_result. rewrite Hrt, decide_False by done. by eexists. }
    split; [done|]. destruct Hv as [msg Hv].
    rewrite (mark_successful_unfold h self t raw vu Ht), Hv.
    destruct (vu && _); by eexists.
  - intros options Hrt. split; [|split; [|split]].
    + intros raw vu Hraw.
      assert (Hv : ∃ msg, validate_result t raw = Raise (ValueError msg)).
      { unfold validate_result. rewrite Hrt, decide_False by done. by eexists. }
      split; [done|]. destruct Hv as [msg Hv].
      rewrite (mark_successful_unfold h self t raw vu Ht), Hv.
      destruct (vu && _); by eexists.
    + unfold create_success_tool. by rewrite Ht, Hrt.
    + intros i o msg h' Ho.
      rewrite (succeed_unfold h self t options i o Ht Hrt Ho).
      destruct (is_successful t); [done|].
      rewrite (mark_successful_unfold h self t o true Ht).
      destruct (true && _); [done|].
      rewrite (validate_result_option t options o Hrt)
        by (by apply list_elem_of_lookup_2 in Ho).
      destruct (result_validator t) as [validator|].
      * destruct (validator o) as [v|e] eqn:Hv; [|done].
        intros [= _ <-]. exists v.
        by destruct (mark_successful_committed h self t v Ht) as [-> ->].
      * intros [= _ <-]. exists o.
        by destruct (mark_successful_committed h self t o Ht) as [-> ->].
    + intros i o Ho Hst Hdeps Hsubs Hval.
      rewrite (succeed_unfold h self t options i o Ht Hrt Ho).
      unfold is_successful. rewrite bool_decide_eq_false_2 by done.
      rewrite (mark_successful_unfold h self t o true Ht), Hdeps, Hsubs.
      simpl.
      rewrite (validate_result_option t options o Hrt)
        by (by apply list_elem_of_lookup_2 in Ho).
      rewrite Hval. do 2 eexists. split; [done|].
      by destruct (mark_successful_committed h self t o Ht) as [_ ->].
Qed.

(** ** Identifiers *)

(** No edge of the graph is part of what an id is derived from. *)
Lemma described_alter (f : Task → Task) (k : nat) (h : heap) (x : nat) :
  (∀ t, described (f t) = described t) →
  described <$> alter f k h !! x = described <$> h !! x.
Proof.
  intros Hf. destruct (decide (k = x)) as [->|Hne].
  - rewrite lookup_alter_eq. destruct (h !! x); simpl; [by rewrite Hf|done].
  - by rewrite lookup_alter_ne.
Qed.

Lemma add_dependency_described (self task : nat) (h h' : heap)
    (r : outcome unit) (x : nat) :
  add_dependency self task h = (r, h') →
  described <$> h' !! x = described <$> h !! x.
Proof.
  unfold add_dependency, on_task.
  destruct (h !! self); [|by intros [= <- <-]].
  destruct (h !! task); [|by intros [= <- <-]].
  intros [= <- <-]. by rewrite !described_alter.
Qed.

Lemma add_subtask_described (self task : nat) (h h' : heap)
    (r : outcome unit) (x : nat) :
  add_subtask self task h = (r, h') →
  described <$> h' !! x = described <$> h !! x.
Proof.
  unfold add_subtask, on_task.
  destruct (h !! self); [|by intros [= <- <-]].
  destruct (h !! task) as [c|]; [|by intros [= <- <-]].
  destruct (parent c) as [q|].
  - destruct (decide (q = self)); intros [= <- <-]; [|done].
    by rewrite described_alter.
  - intros [= <- <-]. by rewrite !described_alter.
Qed.

Lemma add_dependencies_described (self : nat) (l : list nat) (h h' : heap)
    (r : outcome unit) (x : nat) :
  add_dependencies self l h = (r, h') →
  described <$> h' !! x = described <$> h !! x.
Proof.
  unfold add_dependencies. generalize (Ok tt : outcome unit) as r0.
  revert h. induction l as [|task rest IH]; intros h r0; simpl.
  - by intros [= <- <-].
  - destruct r0 as [[]|e]; simpl.
    + destruct (add_dependency self task h) as [r1 h1] eqn:E1.
      intros Hrest%IH. rewrite Hrest.
      by eapply add_dependency_described.
    + by intros Hrest%IH.
Qed.

Lemma Task_repr_described (t t' : Task) :
  described t = described t' → Task_repr t = Task_repr t'.
Proof. intros [= Hi Ho _ _ _ _]. unfold Task_repr. by rewrite Hi, Ho. Qed.

Lemma str_context_described (h h' : heap) (ctx : list (string * ctxval)) :
  (∀ r, r ∈ context_tasks ctx → described <$> h' !! r = described <$> h !! r) →
  str_context h' ctx = str_context h ctx.
Proof.
  intros Hsame. unfold str_context. do 3 f_equal.
  apply map_ext_in. intros [k v] Hin%list_elem_of_In. simpl.
  destruct v as [v|r]; [done|]. simpl. do 2 f_equal.
  assert (Hr : r ∈ context_tasks ctx).
  { unfold context_tasks. apply list_elem_of_omap. by exists (k, CTask r). }
  specialize (Hsame r Hr).
  destruct (h' !! r) as [t'|], (h !! r) as [t|]; simpl in Hsame; try done.
  apply Task_repr_described. congruence.
Qed.

Lemma generate_id_described (h h' : heap) (t t' : Task) :
  described t' = described t →
  (∀ r, r ∈ context_tasks (context t) →
     described <$> h' !! r = described <$> h !! r) →
  _generate_id h' t' = _generate_id h t.
Proof.
  intros [= _ Ho Hi Hp Hrt Hctx] Hsame. unfold _generate_id.
  rewrite Ho, Hi, Hp, Hrt, Hctx. by rewrite (str_context_described h h').
Qed.

(** What a construction leaves behind: the new task sits at a fresh
    address with the id derived from its fields, and the older tasks keep
    their ids and the fields ids are derived from. *)
Lemma Task_init_id (fields : Task) (h h' : heap) (r : nat) :
  id fields = None →
  (∀ c, c ∈ context_tasks (context fields) → is_Some (h !! c)) →
  Task_init fields h = (Ok r, h') →
  h !! r = None
  ∧ id <$> h' !! r = Some (Some (_generate_id h fields))
  ∧ (∀ x, x ≠ r → described <$> h' !! x = described <$> h !! x).
Proof.
  intros Hid Hctx. unfold Task_init.
  set (self := fresh (dom h)).
  assert (Hfresh : h !! self = None).
  { apply not_elem_of_dom. apply is_fresh. }
  destruct (add_dependencies self (elements (depends_on fields))
              (<[self:=fields]> h)) as [[[]|e1] h1] eqn:E1; simpl; [|done].
  set (step2 := match parent fields with
                | Some p => add_subtask p self h1
                | None => (Ok tt, h1)
                end).
  assert (H2 : ∀ x, described <$> step2.2 !! x = described <$> h1 !! x).
  { intros x. subst step2. destruct (parent fields) as [p|]; [|done].
    destruct (add_subtask p self h1) as [r2 h2] eqn:E2.
    by eapply add_subtask_described. }
  destruct step2 as [[[]|e2] h2]; simpl in *; [|done].
  destruct (add_dependencies self (context_tasks (context fields)) h2)
    as [[[]|e3] h3] eqn:E3; simpl; [|done].
  intros [= <- <-].
  assert (H3 : ∀ x, described <$> h3 !! x
                    = described <$> (<[self:=fields]> h) !! x).
  { intros x.
    rewrite (add_dependencies_described _ _ _ _ _ x E3), H2.
    by rewrite (add_dependencies_described _ _ _ _ _ x E1). }
  split; [done|]. split.
  - rewrite lookup_alter_eq.
    pose proof (H3 self) as Hself. rewrite lookup_insert_eq in Hself.
    destruct (h3 !! self) as [t3|]; [|done]. simpl in *.
    assert (Hd : described t3 = described fields) by congruence.
    assert (Hid3 : id t3 = None) by (unfold described in Hd; congruence).
    rewrite Hid3. simpl. do 2 f_equal.
    apply generate_id_described; [done|].
    intros c Hc. rewrite H3.
    rewrite lookup_insert_ne; [done|].
    intros <-. destruct (Hctx self Hc) as [? ?]. congruence.
  - intros x Hx. rewrite lookup_alter_ne by done.
    rewrite H3. by rewrite lookup_insert_ne.
Qed.

(** C9, amended.  The derived id of a task is a function of its objective,
    instructions and prompt, of [str(result_type)] and of [str(context)]:
    two tasks that agree on the five fields get the same id, and so do two
    tasks whose result types or contexts differ but are written the same by
    [str].  In particular two tasks constructed one after the other with
    the same five fields, no id given, and a context whose tasks exist
    already, are two objects with the same id. *)
Theorem generate_id_deterministic (h : heap) (t1 t2 : Task) :
  objective t1 = objective t2 →
  instructions t1 = instructions t2 →
  prompt t1 = prompt t2 →
  (result_type t1 = result_type t2 → context t1 = context t2 →
     _generate_id h t1 = _generate_id h t2)
  ∧ (str_result_type (result_type t1) = str_result_type (result_type t2) →
     str_context h (context t1) = str_context h (context t2) →
     _generate_id h t1 = _generate_id h t2)
  ∧ (result_type t1 = result_type t2 → context t1 = context t2 →
     id t1 = None → id t2 = None →
     (∀ c, c ∈ context_tasks (context t1) → is_Some (h !! c)) →
     ∀ r1 h1 r2 h2,
       Task_init t1 h = (Ok r1, h1) →
       Task_init t2 h1 = (Ok r2, h2) →
       r1 ≠ r2
       ∧ id <$> h2 !! r1 = Some (Some (_generate_id h t1))
       ∧ id <$> h2 !! r2 = Some (Some (_generate_id h t1))).
Proof.
  intros Ho Hi Hp.
  assert (Hsame : result_type t1 = result_type t2 → context t1 = context t2 →
            _generate_id h t1 = _generate_id h t2).
  { intros Hrt Hctx. unfold _generate_id. by rewrite Ho, Hi, Hp, Hrt, Hctx. }
  split; [done|]. split.
  - intros Hrt Hctx. unfold _generate_id. by rewrite Ho, Hi, Hp, Hrt, Hctx.
  - intros Hrt Hctx Hid1 Hid2 Hexists r1 h1 r2 h2 E1 E2.
    destruct (Task_init_id t1 h h1 r1 Hid1 Hexists E1) as (Hnew1 & Hr1 & Hold1).
    assert (Hctx1 : ∀ c, c ∈ context_tasks (context t2) →
              described <$> h1 !! c = described <$> h !! c).
    { intros c Hc. apply Hold1. intros ->. rewrite <- Hctx in Hc.
      destruct (Hexists r1 Hc) as [? ?]. congruence. }
    assert (Hexists2 : ∀ c, c ∈ context_tasks (context t2) → is_Some (h1 !! c)).
    { intros c Hc. specialize (Hctx1 c Hc). rewrite <- Hctx in Hc.
      destruct (Hexists c Hc) as [t Ht]. rewrite Ht in Hctx1.
      destruct (h1 !! c); [done|discriminate]. }
    destruct (Task_init_id t2 h1 h2 r2 Hid2 Hexists2 E2) as (Hnew2 & Hr2 & Hold2).
    assert (Hne : r1 ≠ r2).
    { intros ->. rewrite Hnew2 in Hr1. discriminate. }
    split; [done|]. split.
    + specialize (Hold2 r1 Hne).
      destruct (h2 !! r1) as [a|], (h1 !! r1) as [b|]; simpl in *; try done.
      unfold described in Hold2. congruence.
    + rewrite Hr2. do 2 f_equal.
      rewrite (generate_id_described h h1 t2 t2 eq_refl Hctx1).
      symmetry. by apply Hsame.
Qed.

End TaskProperties.

(** ** Events and sessions *)

Lemma count_emitted_app (k : EventKind) (l1 l2 : list Obs) :
  count_emitted k (l1 ++ l2) = (count_emitted k l1 + count_emitted k l2)%nat.
Proof. unfold count_emitted. by rewrite List.filter_app, length_app. Qed.

Lemma count_emitted_cons (k : EventKind) (e : Event) (l : list Obs) :
  count_emitted k (Emitted e :: l) =
  ((if bool_decide (kind e = k) then 1 else 0) + count_emitted k l)%nat.
Proof. unfold count_emitted. simpl. by destruct (bool_decide _). Qed.

Lemma count_invoked_app (l1 l2 : list Obs) :
  count_invoked (l1 ++ l2) = (count_invoked l1 + count_invoked l2)%nat.
Proof. unfold count_invoked. by rewrite List.filter_app, length_app. Qed.

Lemma delivery_counts (l : list Obs) :
  Forall is_delivery l →
  (∀ k, count_emitted k l = 0%nat) ∧ count_invoked l = 0%nat.
Proof.
  induction 1 as [|o l Ho _ [IHe IHi]]; [done|].
  destruct o; try done; (split; [intros k; apply IHe | apply IHi]).
Qed.

Lemma quiet_nil : quiet [].
Proof. by intros k _. Qed.

Lemma quiet_app (l1 l2 : list Obs) : quiet l1 → quiet l2 → quiet (l1 ++ l2).
Proof.
  intros H1 H2 k Hk. by rewrite count_emitted_app, H1, H2.
Qed.

Lemma quiet_delivery (l : list Obs) : Forall is_delivery l → quiet l.
Proof. intros Hl k _. by apply delivery_counts. Qed.

Section OrchestrationProperties.
Context `{Runtime} {X : Type} `{Collaborators X}.

Lemma after_quietly_refl (s : State X) : after_quietly s s.
Proof. exists []. split; [|apply quiet_nil]. unfold grows_by. by rewrite app_nil_r. Qed.

Lemma after_quietly_trans (s1 s2 s3 : State X) :
  after_quietly s1 s2 → after_quietly s2 s3 → after_quietly s1 s3.
Proof.
  intros (l1 & H1 & Q1) (l2 & H2 & Q2). exists (l1 ++ l2). split.
  - unfold grows_by in *. by rewrite H2, H1, app_assoc.
  - by apply quiet_app.
Qed.

Lemma quiet_step_run {A} (m : M A) (s s' : State X) (r : outcome A) :
  quiet_step (X:=X) m → m s = (r, s') → after_quietly s s'.
Proof. intros Hm Hs. specialize (Hm s). by rewrite Hs in Hm. Qed.

Lemma quiet_ret {A} (a : A) : quiet_step (X:=X) (ret a).
Proof. intros s. apply after_quietly_refl. Qed.

Lemma quiet_reading {A} (f : heap → Orchestrator → outcome A) :
  quiet_step (X:=X) (reading f).
Proof. intros s. apply after_quietly_refl. Qed.

Lemma external_log {A}
    (f : gmap nat Task * X → outcome A * (gmap nat Task * X)) (s : State X) :
  log (external f s).2 = log s
  ∧ orchestrator (external f s).2 = orchestrator s.
Proof. unfold external. by destruct (f _) as [r [h x]]. Qed.

Lemma quiet_external {A}
    (f : gmap nat Task * X → outcome A * (gmap nat Task * X)) :
  quiet_step (X:=X) (external f).
Proof.
  intros s. exists []. split; [|apply quiet_nil].
  unfold grows_by. rewrite app_nil_r. apply external_log.
Qed.

Lemma quiet_set_agent (a : Agent) : quiet_step (X:=X) (set_agent a).
Proof.
  intros s. exists []. split; [|apply quiet_nil].
  unfold grows_by. by rewrite app_nil_r.
Qed.

Lemma quiet_note (o : Obs) : quiet [o] → quiet_step (X:=X) (note o).
Proof. intros Ho s. by exists [o]. Qed.

Lemma quiet_bind {A B} (m : M A) (k : A → M B) :
  quiet_step (X:=X) m → (∀ a, quiet_step (X:=X) (k a)) →
  quiet_step (X:=X) (bind m k).
Proof.
  intros Hm Hk s. unfold bind. specialize (Hm s).
  destruct (m s) as [[a|e] s1]; [|done].
  eapply after_quietly_trans; [exact Hm|]. apply Hk.
Qed.

Lemma quiet_one_delivery (o : Obs) : is_delivery o → quiet [o].
Proof. intros Ho. apply quiet_delivery. by constructor. Qed.

Lemma quiet_invoked (a : Agent) : quiet [Invoked a].
Proof. by intros k _. Qed.

Lemma quiet_agent_event (e : Event) :
  is_lifecycle (kind e) = false → quiet [Emitted e].
Proof.
  intros He k Hk. rewrite count_emitted_cons.
  rewrite bool_decide_eq_false_2; [done|]. intros <-. congruence.
Qed.

(** *** [handle_event] *)

Lemma for_handlers_cons (handler : nat) (rest : list nat) (event : Event)
    (s : State X) :
  for_handlers (handler :: rest) event s =
    match external (handle handler event)
            (mkState (orchestrator s) (task_heap s) (ext s)
               (log s ++ [Handled handler event])) with
    | (Ok _, s1) => for_handlers rest event s1
    | (Raise e, s1) => (Raise e, s1)
    end.
Proof. reflexivity. Qed.

(** The handlers are called in order up to the first that raises. *)
Lemma for_handlers_log (hs : list nat) (event : Event) (s : State X) :
  ∃ n, (n ≤ length hs)%nat
       ∧ grows_by (map (λ handler, Handled handler event) (take n hs))
           s (for_handlers hs event s).2
       ∧ orchestrator (for_handlers hs event s).2 = orchestrator s
       ∧ ((for_handlers hs event s).1 = Ok tt → n = length hs).
Proof.
  revert s. induction hs as [|handler rest IH]; intros s.
  - exists 0%nat. unfold grows_by. simpl. by rewrite app_nil_r.
  - rewrite for_handlers_cons.
    pose proof (external_log (handle handler event)
      (mkState (orchestrator s) (task_heap s) (ext s)
         (log s ++ [Handled handler event]))) as [Hl Ho].
    destruct (external (handle handler event) _) as [[[]|e] s1] eqn:Hs1;
      simpl in Hl, Ho.
    + destruct (IH s1) as (n & Hn & Hg & Hor & Hok).
      exists (S n). split; [simpl; lia|]. split; [|split].
      * unfold grows_by in *. rewrite Hg, Hl. simpl.
        by rewrite <- app_assoc.
      * by rewrite Hor.
      * intros Hr. simpl. f_equal. by apply Hok.
    + exists 1%nat. split; [simpl; lia|]. split; [|split]; done.
Qed.

Lemma handlers_delivery (event : Event) (hs : list nat) :
  Forall is_delivery (map (λ handler, Handled handler event) hs).
Proof. induction hs; by constructor. Qed.

(** The shape of what any call of [handle_event] adds to the log. *)
Lemma handle_event_log (event : Event) (s : State X) :
  ∃ l, grows_by (Emitted event :: l) s (handle_event event s).2
       ∧ Forall is_delivery l.
Proof.
  unfold handle_event, bind at 1. simpl. unfold bind at 1. simpl.
  unfold bind at 1.
  set (s0 := mkState _ _ _ _).
  destruct (for_handlers_log (handlers (orchestrator s)) event s0)
    as (n & _ & Hg & _ & _).
  destruct (for_handlers _ event s0) as [[[]|e] s1]; simpl in Hg.
  - destruct (persist event).
    + unfold bind. simpl.
      pose proof (external_log (flow_add_events [event])
        (mkState (orchestrator s1) (task_heap s1) (ext s1)
           (log s1 ++ [Persisted [event]]))) as [Hl _].
      destruct (external (flow_add_events [event]) _) as [r s2].
      simpl in *. eexists. split.
      * unfold grows_by in *. rewrite Hl, Hg. subst s0. simpl.
        rewrite <- !app_assoc. simpl. reflexivity.
      * apply Forall_app. split; [apply handlers_delivery|by repeat constructor].
    + simpl. eexists. split.
      * unfold grows_by in *. rewrite Hg. subst s0. simpl.
        rewrite <- !app_assoc. simpl. reflexivity.
      * apply handlers_delivery.
  - simpl. eexists. split.
    + unfold grows_by in *. rewrite Hg. subst s0. simpl.
      rewrite <- !app_assoc. simpl. reflexivity.
    + apply handlers_delivery.
Qed.

Lemma handle_event_unfold (event : Event) (s : State X) :
  handle_event event s =
    match for_handlers (handlers (orchestrator s)) event
            (mkState (orchestrator s) (task_heap s) (ext s)
               (log s ++ [Emitted event])) with
    | (Ok _, s1) =>
        if persist event then
          external (flow_add_events [event])
            (mkState (orchestrator s1) (task_heap s1) (ext s1)
               (log s1 ++ [Persisted [event]]))
        else (Ok tt, s1)
    | (Raise e, s1) => (Raise e, s1)
    end.
Proof.
  unfold handle_event, bind, note, reading. simpl.
  destruct (for_handlers _ _ _) as [[[]|e] s1]; [|done].
  destruct (persist event); [|done]. simpl.
  by destruct (external _ _) as [[[]|e] s2].
Qed.

Lemma for_handlers_ok (hs : list nat) (event : Event) (s : State X) :
  (∀ handler w, handler ∈ hs → (handle handler event w).1 = Ok tt) →
  (for_handlers hs event s).1 = Ok tt.
Proof.
  revert s. induction hs as [|handler rest IH]; intros s Hok; [done|].
  rewrite for_handlers_cons.
  set (s0 := mkState _ _ _ _).
  assert (Hh : (external (handle handler event) s0).1 = Ok tt).
  { unfold external.
    specialize (Hok handler (task_heap s0, ext s0) ltac:(set_solver)).
    by destruct (handle handler event _) as [r [h x]]. }
  destruct (external (handle handler event) s0) as [[[]|e] s1]; [|done].
  apply IH. intros h' w Hin. apply Hok. set_solver.
Qed.

(** C8.  When no registered handler raises on the event, [handle_event]
    calls [handle] of every registered handler with it, in the order of
    [self.handlers], and then calls [flow.add_events] with it exactly when
    its [persist] flag is set: the log grows by the entry of
    [handle_event], the handler calls in registration order, and last the
    persistence, if any. *)
Theorem handle_event_spec (event : Event) (s : State X) :
  (∀ handler w, handler ∈ handlers (orchestrator s) →
     (handle handler event w).1 = Ok tt) →
  ∃ l, log (handle_event event s).2 = log s ++ Emitted event :: l
       ∧ l = map (λ handler, Handled handler event) (handlers (orchestrator s))
               ++ (if persist event then [Persisted [event]] else [])
       ∧ (Persisted [event] ∈ l ↔ persist event = true).
Proof.
  intros Hok. eexists. split; [|split; [reflexivity|]].
  - rewrite handle_event_unfold.
    set (s0 := mkState _ _ _ _).
    pose proof (for_handlers_ok _ event s0 Hok) as Hr.
    destruct (for_handlers_log (handlers (orchestrator s)) event s0)
      as (n & _ & Hg & _ & Hn).
    specialize (Hn Hr). subst n. rewrite firstn_all in Hg.
    unfold grows_by in Hg.
    destruct (for_handlers _ event s0) as [[[]|e] s1]; [|done].
    simpl in Hg. destruct (persist event).
    + pose proof (external_log (flow_add_events [event])
        (mkState (orchestrator s1) (task_heap s1) (ext s1)
           (log s1 ++ [Persisted [event]]))) as [Hl _].
      rewrite Hl. simpl. rewrite Hg. subst s0. simpl.
      by rewrite <- !app_assoc.
    + simpl. rewrite Hg. subst s0. simpl.
      by rewrite app_nil_r, <- !app_assoc.
  - rewrite elem_of_app. split.
    + intros [Hin|Hin].
      * apply list_elem_of_fmap in Hin as (handler & Heq & _). done.
      * destruct (persist event); [done|]. by apply elem_of_nil in Hin.
    + intros ->. right. set_solver.
Qed.

(** *** The loops emit no lifecycle event *)

Lemma quiet_handle_event (event : Event) :
  is_lifecycle (kind event) = false → quiet_step (X:=X) (handle_event event).
Proof.
  intros He s. destruct (handle_event_log event s) as (l & Hg & Hl).
  exists (Emitted event :: l). split; [done|].
  apply (quiet_app [Emitted event] l);
    [by apply quiet_agent_event | by apply quiet_delivery].
Qed.

Ltac quiet_steps :=
  repeat first
    [ apply quiet_reading | apply quiet_external | apply quiet_ret
    | apply quiet_set_agent
    | apply quiet_note, quiet_invoked
    | apply quiet_bind; [|intros ?] ].

Lemma quiet_get_tools : quiet_step (X:=X) get_tools.
Proof. unfold get_tools. quiet_steps. Qed.

Lemma quiet_compile_messages : quiet_step (X:=X) compile_messages.
Proof.
  unfold compile_messages, compile_prompt.
  apply quiet_bind; [|intros ?; quiet_steps].
  apply quiet_bind; [apply quiet_get_tools|intros ?; quiet_steps].
Qed.

Lemma quiet_invoke_agent : quiet_step (X:=X) invoke_agent.
Proof.
  unfold invoke_agent.
  apply quiet_bind; [apply quiet_compile_messages|intros ?].
  apply quiet_bind; [apply quiet_get_tools|intros ?]. quiet_steps.
Qed.

Lemma quiet_agent_unavailable : quiet_step (X:=X) agent_unavailable.
Proof. unfold agent_unavailable. quiet_steps. Qed.

Lemma quiet_consume_events (fuel : nat) (a : Agent) (s s' : State X)
    (r : outcome unit) :
  consume_events fuel a s = Some (r, s') → after_quietly s s'.
Proof.
  revert s. induction fuel as [|n IH]; intros s; simpl; [done|].
  destruct (external (next_event a) s) as [[[[payload p]|]|e] s1] eqn:E1;
    pose proof (quiet_step_run _ _ _ _ (quiet_external _) E1) as Q1.
  - destruct (handle_event (mkEvent (AgentEvent payload) p) s1)
      as [[[]|e] s2] eqn:E2;
      pose proof (quiet_step_run _ _ _ _
        (quiet_handle_event (mkEvent (AgentEvent payload) p) eq_refl) E2) as Q2.
    + intros Hrec%IH. eauto using after_quietly_trans.
    + intros [= <- <-]. eauto using after_quietly_trans.
  - by intros [= <- <-].
  - by intros [= <- <-].
Qed.

Lemma quiet_turn_loop (fuel : nat) (s s' : State X) (r : outcome unit) :
  turn_loop fuel s = Some (r, s') → after_quietly s s'.
Proof.
  revert s. induction fuel as [|n IH]; intros s; [done|].
  cbn [turn_loop].
  destruct (external should_end_turn s) as [[[]|e] s1] eqn:E1;
    pose proof (quiet_step_run _ _ _ _ (quiet_external _) E1) as Q1;
    try by intros [= <- <-].
  destruct (invoke_agent s1) as [[a|e] s2] eqn:E2;
    pose proof (quiet_step_run _ _ _ _ quiet_invoke_agent E2) as Q2;
    [|intros [= <- <-]; eauto using after_quietly_trans].
  destruct (consume_events (S n) a s2) as [[[[]|e] s3]|] eqn:E3; [| |done].
  2: { intros [= <- <-]. apply quiet_consume_events in E3.
       eauto using after_quietly_trans. }
  apply quiet_consume_events in E3.
  destruct (reading active_tasks s3) as [[[|t ts]|e] s4] eqn:E4;
    pose proof (quiet_step_run _ _ _ _ (quiet_reading _) E4) as Q4;
    try (intros [= <- <-]; eauto 6 using after_quietly_trans).
  destruct (agent_unavailable s4) as [[[]|e] s5] eqn:E5;
    pose proof (quiet_step_run _ _ _ _ quiet_agent_unavailable E5) as Q5;
    try (intros [= <- <-]; eauto 7 using after_quietly_trans).
  intros Hrec%IH. eauto 8 using after_quietly_trans.
Qed.

Lemma quiet_run_turn (fuel : nat) (s s' : State X) (r : outcome unit) :
  run_turn fuel s = Some (r, s') → after_quietly s s'.
Proof.
  unfold run_turn.
  destruct (external begin_turn s) as [[[]|e] s1] eqn:E1;
    pose proof (quiet_step_run _ _ _ _ (quiet_external _) E1) as Q1;
    try by intros [= <- <-].
  destruct (turn_loop fuel s1) as [[[[]|e] s2]|] eqn:E2; [| |done];
    apply quiet_turn_loop in E2.
  - set (m := bind _ _).
    assert (Hm : quiet_step (X:=X) m) by (subst m; quiet_steps).
    intros [= Hr]. apply (quiet_step_run _ _ _ _ Hm) in Hr.
    eauto using after_quietly_trans.
  - intros [= <- <-]. eauto using after_quietly_trans.
Qed.

Lemma quiet_session_loop (fuel : nat) (s s' : State X) (r : outcome unit) :
  session_loop fuel s = Some (r, s') → after_quietly s s'.
Proof.
  revert s. induction fuel as [|n IH]; intros s; [done|].
  cbn [session_loop].
  destruct (reading active_tasks s) as [[[|t ts]|e] s1] eqn:E1;
    pose proof (quiet_step_run _ _ _ _ (quiet_reading _) E1) as Q1;
    try by intros [= <- <-].
  destruct (external should_end_session s1) as [[[]|e] s2] eqn:E2;
    pose proof (quiet_step_run _ _ _ _ (quiet_external _) E2) as Q2;
    try (intros [= <- <-]; eauto using after_quietly_trans).
  destruct (run_turn (S n) s2) as [[[[]|e] s3]|] eqn:E3; [| |done];
    apply quiet_run_turn in E3.
  - intros Hrec%IH. eauto 6 using after_quietly_trans.
  - intros [= <- <-]. eauto 6 using after_quietly_trans.
Qed.

(** *** [run] *)

Lemma finally_end_log (r : outcome unit) (s : State X) :
  ∃ l, grows_by (Emitted (lifecycle OrchestratorEnd) :: l) s (finally_end r s).2
       ∧ Forall is_delivery l
       ∧ (∀ e, r = Raise e → ∃ e', (finally_end r s).1 = Raise e')
       ∧ ((handle_event (lifecycle OrchestratorEnd) s).1 = Ok tt →
          (finally_end r s).1 = r).
Proof.
  unfold finally_end.
  destruct (handle_event_log (lifecycle OrchestratorEnd) s) as (l & Hg & Hl).
  exists l.
  destruct (handle_event (lifecycle OrchestratorEnd) s) as [[[]|e] s'];
    simpl in *; repeat split; try done; eauto.
Qed.

(** C6.  Take an execution of [run] in which the start signal was handled
    and the turn loop ended, normally or by raising.  Then [run] returns,
    and the session-end signal was emitted exactly once.  When the loop
    raised an exception [exc] that is an [Exception], the error signal for
    [exc] was emitted after the loop and the end signal after it, nothing
    but handler and persistence calls came in between or after (no agent
    was invoked again), [run] raises, and what it raises is [exc] itself
    when the handling of the two signals returned normally.  When the loop
    ended normally no error signal was emitted, and [run] returns normally
    when the handling of the end signal did. *)
Theorem run_session_end_once (fuel : nat) (s s1 s2 : State X)
    (lr : outcome unit) :
  handle_event (lifecycle OrchestratorStart) s = (Ok tt, s1) →
  session_loop fuel s1 = Some (lr, s2) →
  ∃ r s3,
    run fuel s = Some (r, s3)
    ∧ count_emitted OrchestratorEnd (log s3)
      = S (count_emitted OrchestratorEnd (log s))
    ∧ count_invoked (log s3) = count_invoked (log s2)
    ∧ match lr with
      | Ok _ =>
          (∀ exc, count_emitted (OrchestratorError exc) (log s3)
                  = count_emitted (OrchestratorError exc) (log s))
          ∧ ((handle_event (lifecycle OrchestratorEnd) s2).1 = Ok tt →
             r = Ok tt)
      | Raise exc =>
          (∃ e, r = Raise e)
          ∧ (is_Exception exc = true →
               (∃ l1 l2,
                  log s3 = log s2
                           ++ Emitted (lifecycle (OrchestratorError exc)) :: l1
                           ++ Emitted (lifecycle OrchestratorEnd) :: l2
                  ∧ Forall is_delivery l1 ∧ Forall is_delivery l2)
               ∧ ((handle_event (lifecycle (OrchestratorError exc)) s2).1 = Ok tt →
                  (handle_event (lifecycle OrchestratorEnd)
                     (handle_event (lifecycle (OrchestratorError exc)) s2).2).1
                  = Ok tt →
                  r = Raise exc))
      end.
Proof.
  intros Hstart Hloop. unfold run. rewrite Hstart, Hloop.
  destruct (handle_event_log (lifecycle OrchestratorStart) s) as (l0 & G0 & D0).
  rewrite Hstart in G0. simpl in G0.
  destruct (quiet_session_loop _ _ _ _ Hloop) as (lq & Gq & Qq).
  unfold grows_by in *.
  assert (Hbefore : ∀ k, is_lifecycle k = true → k ≠ OrchestratorStart →
            count_emitted k (log s2) = count_emitted k (log s)).
  { intros k Hk Hne. rewrite Gq, G0, !count_emitted_app, count_emitted_cons.
    rewrite (Qq k Hk), (proj1 (delivery_counts l0 D0) k).
    rewrite bool_decide_eq_false_2 by (simpl; congruence). lia. }
  destruct lr as [[]|exc].
  - destruct (finally_end_log (Ok tt) s2) as (l & G & D & _ & Hr).
    destruct (finally_end (Ok tt) s2) as [r s3]. simpl in *.
    exists r, s3. split; [done|]. split; [|split; [|split]].
    + rewrite G, count_emitted_app, count_emitted_cons.
      rewrite (proj1 (delivery_counts l D)), Hbefore by done.
      rewrite bool_decide_eq_true_2 by done. lia.
    + rewrite G, count_invoked_app. change (Emitted ?e :: l)
        with ([Emitted e] ++ l). rewrite count_invoked_app.
      rewrite (proj2 (delivery_counts l D)). simpl. lia.
    + intros exc. rewrite G, count_emitted_app, count_emitted_cons.
      rewrite (proj1 (delivery_counts l D)), Hbefore by done.
      rewrite bool_decide_eq_false_2 by (simpl; congruence). lia.
    + done.
  - destruct (is_Exception exc) eqn:Hexc.
    + destruct (handle_event_log (lifecycle (OrchestratorError exc)) s2)
        as (l1 & G1 & D1).
      destruct (handle_event (lifecycle (OrchestratorError exc)) s2)
        as [r1 s2'] eqn:E1. simpl in G1.
      assert (Hfin : ∀ r0 : exn,
        (r1 = Ok tt → r0 = exc) →
        ∃ r s3, Some (finally_end (Raise r0) s2') = Some (r, s3)
          ∧ count_emitted OrchestratorEnd (log s3)
            = S (count_emitted OrchestratorEnd (log s))
          ∧ count_invoked (log s3) = count_invoked (log s2)
          ∧ (∃ e, r = Raise e)
          ∧ (true = true →
              (∃ l1 l2,
                 log s3 = log s2
                          ++ Emitted (lifecycle (OrchestratorError exc)) :: l1
                          ++ Emitted (lifecycle OrchestratorEnd) :: l2
                 ∧ Forall is_delivery l1 ∧ Forall is_delivery l2)
              ∧ (r1 = Ok tt →
                 (handle_event (lifecycle OrchestratorEnd) s2').1 = Ok tt →
                 r = Raise exc))).
      { intros r0 Hr0.
        destruct (finally_end_log (Raise r0) s2') as (l2 & G2 & D2 & Hraise & Hr).
        destruct (finally_end (Raise r0) s2') as [r s3]. simpl in *.
        exists r, s3. split; [done|]. split; [|split; [|split; [|split]]].
        - rewrite G2, G1, !count_emitted_app, !count_emitted_cons.
          rewrite (proj1 (delivery_counts l1 D1)),
            (proj1 (delivery_counts l2 D2)), Hbefore by done.
          rewrite bool_decide_eq_false_2 by (simpl; congruence).
          rewrite bool_decide_eq_true_2 by done. lia.
        - rewrite G2, G1.
          change (Emitted ?e :: ?l) with ([Emitted e] ++ l).
          rewrite !count_invoked_app.
          rewrite (proj2 (delivery_counts l1 D1)),
            (proj2 (delivery_counts l2 D2)). simpl. lia.
        - by eapply Hraise.
        - exists l1, l2. rewrite G2, G1. by rewrite <- app_assoc.
        - intros Hr1 Hend. rewrite (Hr Hend). f_equal. by apply Hr0. }
      destruct r1 as [[]|e1].
      * destruct (Hfin exc ltac:(done)) as (r & s3 & Ha & Hb & Hc & Hd & He).
        exists r, s3. do 4 (split; [done|]). intros Ht.
        destruct (He Ht) as [Hshape Hsame]. split; [done|].
        simpl. intros _ Hend. by apply Hsame.
      * destruct (Hfin e1 ltac:(done)) as (r & s3 & Ha & Hb & Hc & Hd & He).
        exists r, s3. do 4 (split; [done|]). intros Ht.
        destruct (He Ht) as [Hshape Hsame]. split; [done|].
        simpl. intros [=].
    + destruct (finally_end_log (Raise exc) s2) as (l & G & D & Hraise & Hr).
      destruct (finally_end (Raise exc) s2) as [r s3]. simpl in *.
      exists r, s3. split; [done|]. split; [|split; [|split]].
      * rewrite G, count_emitted_app, count_emitted_cons.
        rewrite (proj1 (delivery_counts l D)), Hbefore by done.
        rewrite bool_decide_eq_true_2 by done. lia.
      * rewrite G. change (Emitted ?e :: l) with ([Emitted e] ++ l).
        rewrite !count_invoked_app.
        rewrite (proj2 (delivery_counts l D)). simpl. lia.
      * by eapply Hraise.
      * done.
Qed.

(** *** Available agents *)

(** [get_tasks("active")] and [get_tasks("assigned")] need no fuel, and any
    other filter than the three is refused. *)
Lemma get_tasks_filters (fuel : nat) (h : heap) (o : Orchestrator) :
  get_tasks fuel "active" h o = Some (active_tasks h o)
  ∧ get_tasks fuel "assigned" h o = Some (assigned_tasks h o)
  ∧ get_tasks fuel "ready" h o = Some (Raise (ValueError "Invalid filter")).
Proof. done. Qed.

(** C10.  Whenever [get_available_agents] returns, what it returns contains
    the orchestrator's current agent, whatever the tasks and their agents
    are; so the test [self.agent not in self.get_available_agents()] of
    [run_turn] evaluates to false, and never ends a turn. *)
Theorem current_agent_available (s : State X) (l : list Agent) :
  get_available_agents (task_heap s) (orchestrator s) = Ok l →
  agent (orchestrator s) ∈ l ∧ agent_unavailable s = (Ok false, s).
Proof.
  intros Hl.
  assert (Hin : agent (orchestrator s) ∈ l).
  { unfold get_available_agents in Hl.
    destruct (active_tasks _ _) as [active|e]; [|done]. simpl in Hl.
    destruct (agents_of_tasks _ active) as [set|e]; [|done]. simpl in Hl.
    injection Hl as <-. apply elem_of_elements. set_solver. }
  split; [done|].
  unfold agent_unavailable, bind, reading, ret. rewrite Hl.
  by rewrite bool_decide_eq_false_2 by (intros Hn; by apply Hn).
Qed.

(** *** [Task.run] *)

Lemma add_tasks_to_flow_log (l : list nat) (s : State X) :
  log (add_tasks_to_flow l s).2 = log s.
Proof.
  revert s. induction l as [|task rest IH]; intros s; [done|].
  simpl. unfold bind.
  pose proof (external_log (flow_add_task task) s) as [Hl _].
  destruct (external (flow_add_task task) s) as [[[]|e] s1]; simpl in *.
  - by rewrite IH.
  - done.
Qed.

(** C7 on the code.  [Task.run] passes [max_calls_per_turn] and [max_turns]
    to [Orchestrator.run] by keyword, and [run] declares neither: whatever
    the limits are, the call raises before [run] does anything, so
    [Task.run] always raises and no event is emitted and no agent invoked.
    With an allocated task, a given agent and a flow that accepts the task,
    what it raises is the [TypeError] of the call. *)
Theorem Task_run_rejects_limits (self : nat) (agent_arg : option Agent)
    (max_calls_per_turn max_turns : pyval) (fuel : nat) (s : State X) :
  ∃ e s',
    Task_run self agent_arg max_calls_per_turn max_turns fuel s
      = Some (Raise e, s')
    ∧ log s' = log s
    ∧ (is_Some (task_heap s !! self) → is_Some agent_arg →
       (∀ w, (flow_add_task self w).1 = Ok tt) →
       e = TypeError "run() got an unexpected keyword argument max_calls_per_turn").
Proof.
  unfold Task_run.
  destruct (task_heap s !! self) as [t|] eqn:Ht.
  2: { exists Unallocated, s. do 2 (split; [done|]). by intros [? ?]. }
  set (chosen := match agent_arg with Some a => Ok a | None => _ end).
  assert (Hchosen : is_Some agent_arg → ∃ a, chosen = Ok a).
  { intros [a ->]. by exists a. }
  destruct chosen as [a|e].
  2: { exists e, s. do 2 (split; [done|]).
       intros _ Hsome _. by destruct (Hchosen Hsome). }
  set (s0 := mkState _ _ _ _).
  pose proof (add_tasks_to_flow_log [self] s0) as Hlog.
  assert (Hflow : (∀ w, (flow_add_task self w).1 = Ok tt) →
            (add_tasks_to_flow [self] s0).1 = Ok tt).
  { intros Hok. simpl. unfold bind, external.
    specialize (Hok (task_heap s0, ext s0)).
    by destruct (flow_add_task self _) as [[[]|e] [h x]]. }
  destruct (add_tasks_to_flow [self] s0) as [[[]|e] s1]; simpl in Hlog.
  - eexists _, s1. unfold call_run. simpl. by do 2 (split; [done|]).
  - exists e, s1. do 2 (split; [done|]).
    intros _ _ Hok. by specialize (Hflow Hok).
Qed.

End OrchestrationProperties.

(** * The properties on the sample inputs *)

(** Scenario A of the specification: of two tasks, the second depending on
    the first, only the first is active; once the first has succeeded, only
    the second. *)
Example scenario_a :
  @active_tasks sample_runtime two_tasks (mkOrchestrator "Marvin" [1; 2]%nat [])
  = Ok [1%nat]
  ∧ @active_tasks sample_runtime
      (@mark_successful sample_runtime 1 (PyStr "done") true two_tasks).2
      (mkOrchestrator "Marvin" [1; 2]%nat [])
    = Ok [2%nat].
Proof. split; reflexivity. Qed.

(** Adopting task 2 as a subtask of task 1. *)
Lemma add_subtask_spec_witness :
  ∃ h', add_subtask 1 2 two_tasks = (Ok tt, h')
        ∧ parent <$> h' !! 2%nat = Some (Some 1%nat).
Proof.
  destruct (add_subtask_spec two_tasks 1 2 _ _ eq_refl eq_refl)
    as (Hnew & _ & _).
  apply Hnew. reflexivity.
Defined.

(** C2 as stated fails: a task with no dependency and no subtask, so with
    none incomplete, whose result type is a tuple of options; marking it
    successful with the default result [None] raises, and the task stays
    PENDING. *)
Lemma mark_successful_rejects_result :
  depends_on choice_task = ∅
  ∧ _subtasks choice_task = ∅
  ∧ status choice_task = PENDING
  ∧ @mark_successful sample_runtime 1 PyNone true choice_heap
    = (Raise (ValueError "Result is not in the list of valid result types"),
       choice_heap).
Proof. repeat split. Qed.

(** Task 2 can be marked successful once task 1 has failed: a failed
    dependency is complete. *)
Lemma mark_successful_upstream_witness :
  ∃ h', @mark_successful sample_runtime 2 (PyStr "ok") true after_failure
        = (Ok tt, h')
        ∧ status <$> h' !! 2%nat = Some SUCCESSFUL
        ∧ result <$> h' !! 2%nat = Some (PyStr "ok").
Proof.
  destruct (@mark_successful_upstream sample_runtime after_failure 2 _
              (PyStr "ok") eq_refl) as [_ Hok].
  apply Hok. intros u d Hu Hd.
  assert (u = 1%nat) as -> by (simpl in Hu; set_solver).
  vm_compute in Hd. injection Hd as <-. right. left. reflexivity.
Defined.

(** C3 as stated fails: a SUCCESSFUL task is moved to FAILED by
    [mark_failed] and back to RUNNING by [mark_running], neither of which
    raises. *)
Lemma terminal_status_can_change :
  status <$> done_heap !! 1%nat = Some SUCCESSFUL
  ∧ (mark_failed 1 None done_heap).1 = Ok tt
  ∧ status <$> (mark_failed 1 None done_heap).2 !! 1%nat = Some FAILED
  ∧ (mark_running 1 done_heap).1 = Ok tt
  ∧ status <$> (mark_running 1 done_heap).2 !! 1%nat = Some RUNNING.
Proof. repeat split. Qed.

(** Skipping a task that is SUCCESSFUL, and the success tool on it. *)
Lemma status_transitions_unconditional_witness :
  (∃ h', mark_skipped 1 done_heap = (Ok tt, h')
         ∧ status <$> h' !! 1%nat = Some SKIPPED)
  ∧ ∃ msg, @succeed sample_runtime 1 [] (PyStr "again") done_heap
           = (Raise (ValueError msg), done_heap).
Proof.
  destruct (@status_transitions_unconditional sample_runtime done_heap 1 _
              eq_refl) as (_ & _ & Hskip & _ & Htool).
  split; [exact Hskip|]. apply Htool. reflexivity.
Defined.

(** C4 as stated fails in its last part: the success tool of a task with
    three options and a result validator, called with index 1, commits what
    the validator made of option 1, which is not option 1. *)
Lemma success_tool_commits_validator_output :
  abc !! 1%nat = Some (PyStr "b")
  ∧ ∃ tool msg h',
      @create_success_tool sample_runtime 1 shouting_heap = Ok tool
      ∧ tool (PyInt 1) shouting_heap = (Ok msg, h')
      ∧ result <$> h' !! 1%nat = Some (PyStr "B").
Proof. split; [reflexivity|]. do 3 eexists. repeat split. Qed.

(** Scenario B of the specification: index 1 commits option 1. *)
Lemma result_validation_witness :
  ∃ msg h',
    @succeed sample_runtime 1 abc (PyInt 1) choice_heap
    = (Ok msg, h')
    ∧ result <$> h' !! 1%nat = Some (PyStr "b").
Proof.
  destruct (@result_validation sample_runtime choice_heap 1 _
              eq_refl) as [_ Hopts].
  destruct (Hopts abc eq_refl) as (_ & _ & _ & Hcommit).
  apply (Hcommit 1%nat); reflexivity || discriminate.
Defined.

(** C9 as stated fails in its second half, whatever the hash and [repr]
    are: two tasks whose contexts hold two different tasks of the same id
    and objective (they differ in their names) get the same id. *)
Lemma different_contexts_same_id :
  ¬ ∃ R : Runtime, ∀ (h : gmap nat Task) (t1 t2 : Task),
      objective t1 = objective t2 →
      instructions t1 = instructions t2 →
      result_type t1 = result_type t2 →
      prompt t1 = prompt t2 →
      context t1 ≠ context t2 →
      @_generate_id R h t1 ≠ @_generate_id R h t2.
Proof.
  intros [R Hclaim].
  pose (source := with_id (Some (@_generate_id R ∅ (fresh_task "collect")))
                    (fresh_task "collect")).
  apply (Hclaim
    {[ 1%nat := with_name (Some "first") source;
       2%nat := with_name (Some "second") source ]}
    (with_context [("data", CTask 1)] (fresh_task "report"))
    (with_context [("data", CTask 2)] (fresh_task "report")));
    try reflexivity.
  simpl. congruence.
Qed.

(** The task [report] constructed twice: two objects, at 3 and at 4, with
    one id. *)
Lemma generate_id_deterministic_witness :
  first_report.1 = Ok 3%nat
  ∧ second_report.1 = Ok 4%nat
  ∧ id <$> second_report.2 !! 3%nat = id <$> second_report.2 !! 4%nat.
Proof.
  assert (E1 : @Task_init sample_runtime report two_tasks
               = (Ok 3%nat, first_report.2)) by (vm_compute; reflexivity).
  assert (E2 : @Task_init sample_runtime report first_report.2
               = (Ok 4%nat, second_report.2)) by (vm_compute; reflexivity).
  assert (Hexists : ∀ c, c ∈ context_tasks (context report) →
            is_Some (two_tasks !! c)).
  { intros c Hc. apply list_elem_of_singleton in Hc as ->.
    eexists. reflexivity. }
  destruct (@generate_id_deterministic sample_runtime two_tasks report report
              eq_refl eq_refl eq_refl) as (_ & _ & Hinit).
  destruct (Hinit eq_refl eq_refl eq_refl eq_refl Hexists _ _ _ _ E1 E2)
    as (_ & Hid1 & Hid2).
  split; [vm_compute; reflexivity|]. split; [vm_compute; reflexivity|].
  by rewrite Hid1, Hid2.
Defined.

(** A session whose model fails: the error signal, then the end signal,
    once; [run] raises what the model raised. *)
Lemma run_session_end_once_witness :
  ∃ r s3,
    @run sample_runtime nat (scripted true) 3 sample_state = Some (r, s3)
    ∧ count_emitted OrchestratorEnd (log s3) = 1%nat
    ∧ r = Raise (ExternalError 1).
Proof.
  assert (Hstart : @handle_event nat (scripted true)
            (@lifecycle nat (scripted true) OrchestratorStart) sample_state
          = (Ok tt, failing_started)) by (vm_compute; reflexivity).
  assert (Hloop : @session_loop sample_runtime nat (scripted true) 3
            failing_started
          = Some (Raise (ExternalError 1), failing_stopped))
    by (vm_compute; reflexivity).
  destruct (@run_session_end_once sample_runtime nat (scripted true) 3
              sample_state _ _ _ Hstart Hloop)
    as (r & s3 & Hrun & Hend & _ & _ & Herr).
  exists r, s3. split; [exact Hrun|]. split; [exact Hend|].
  apply Herr; vm_compute; reflexivity.
Defined.

(** An event to persist, handled by the two handlers of the sample. *)
Lemma handle_event_spec_witness :
  log (@handle_event nat (scripted false) (mkEvent (AgentEvent 7) true)
         sample_state).2
  = [ Emitted (mkEvent (AgentEvent 7) true);
      Handled 0 (mkEvent (AgentEvent 7) true);
      Handled 1 (mkEvent (AgentEvent 7) true);
      Persisted [mkEvent (AgentEvent 7) true] ].
Proof.
  destruct (@handle_event_spec nat (scripted false)
              (mkEvent (AgentEvent 7) true) sample_state
              (λ _ _ _, eq_refl)) as (l & Hlog & -> & _).
  exact Hlog.
Defined.

(** The current agent is available even with no task of its own. *)
Lemma current_agent_available_witness :
  ∃ l, @get_available_agents sample_runtime (task_heap idle_agent_state)
         (orchestrator idle_agent_state) = Ok l
       ∧ "Nobody" ∈ l
       ∧ @agent_unavailable sample_runtime nat idle_agent_state
         = (Ok false, idle_agent_state).
Proof.
  eexists. split; [vm_compute; reflexivity|].
  apply (@current_agent_available sample_runtime nat idle_agent_state).
  vm_compute. reflexivity.
Defined.

(** [Task.run] with a limit of one turn. *)
Example Task_run_with_max_turns :
  @Task_run sample_runtime nat (scripted false) 1 (Some "Marvin")
    PyNone (PyInt 1) 3 sample_state
  = Some (Raise (TypeError
            "run() got an unexpected keyword argument max_calls_per_turn"),
          mkState (mkOrchestrator "Marvin" [1%nat] [0%nat]) one_task 0%nat []).
Proof. reflexivity. Qed.

(** [run] has no cutoff of its own: with a model that completes nothing and
    a strategy that ends nothing, a turn makes more model calls than any
    number given, and so the session does not end. *)
Lemma turn_without_cutoff (fuel : nat) (l : list Obs) :
  @turn_loop sample_runtime nat stalling fuel (stalled l) = None.
Proof.
  revert l. induction fuel as [|n IH]; intros l; [reflexivity|].
  cbn [turn_loop].
  assert (E1 : @external nat bool (@should_end_turn nat stalling) (stalled l)
               = (Ok false, stalled l)) by reflexivity.
  assert (E2 : @invoke_agent sample_runtime nat stalling (stalled l)
               = (Ok "Marvin", stalled (l ++ [Invoked "Marvin"])))
    by (vm_compute; reflexivity).
  assert (E3 : @consume_events nat stalling (S n) "Marvin"
                 (stalled (l ++ [Invoked "Marvin"]))
               = Some (Ok tt, stalled (l ++ [Invoked "Marvin"])))
    by reflexivity.
  assert (E4 : @reading nat _ (@active_tasks sample_runtime)
                 (stalled (l ++ [Invoked "Marvin"]))
               = (Ok [1%nat], stalled (l ++ [Invoked "Marvin"])))
    by (vm_compute; reflexivity).
  assert (E5 : @agent_unavailable sample_runtime nat
                 (stalled (l ++ [Invoked "Marvin"]))
               = (Ok false, stalled (l ++ [Invoked "Marvin"])))
    by (vm_compute; reflexivity).
  rewrite E1, E2, E3, E4, E5. apply IH.
Qed.

Lemma run_without_cutoff (fuel : nat) :
  @run sample_runtime nat stalling fuel (stalled []) = None.
Proof.
  unfold run.
  assert (E0 : @handle_event nat stalling
                 (@lifecycle nat stalling OrchestratorStart) (stalled [])
               = (Ok tt, stalled [Emitted (mkEvent OrchestratorStart false)]))
    by reflexivity.
  rewrite E0. destruct fuel as [|n]; [reflexivity|].
  cbn [session_loop].
  assert (E1 : @reading nat _ (@active_tasks sample_runtime)
                 (stalled [Emitted (mkEvent OrchestratorStart false)])
               = (Ok [1%nat], stalled [Emitted (mkEvent OrchestratorStart false)]))
    by (vm_compute; reflexivity).
  rewrite E1.
  assert (E2 : @external nat bool (@should_end_session nat stalling)
                 (stalled [Emitted (mkEvent OrchestratorStart false)])
               = (Ok false, stalled [Emitted (mkEvent OrchestratorStart false)]))
    by reflexivity.
  rewrite E2. unfold run_turn.
  assert (E3 : @external nat unit (@begin_turn nat stalling)
                 (stalled [Emitted (mkEvent OrchestratorStart false)])
               = (Ok tt, stalled [Emitted (mkEvent OrchestratorStart false)]))
    by reflexivity.
  rewrite E3. by rewrite turn_without_cutoff.
Qed.

(** * Further properties *)

(** ** Edges *)

Lemma with_depends_on_same (t : Task) (v : gset nat) :
  v = depends_on t → with_depends_on v t = t.
Proof. intros ->. by destruct t. Qed.

Lemma with_downstreams_same (t : Task) (v : gset nat) :
  v = _downstreams t → with_downstreams v t = t.
Proof. intros ->. by destruct t. Qed.

Lemma with_parent_same (t : Task) (v : option nat) :
  v = parent t → with_parent v t = t.
Proof. intros ->. by destruct t. Qed.

Lemma adopt_same (task : nat) (t : Task) :
  task ∈ _subtasks t → task ∈ depends_on t → adopt task t = t.
Proof.
  intros Hs Hd. unfold adopt.
  assert ({[task]} ∪ _subtasks t = _subtasks t) as -> by set_solver.
  assert ({[task]} ∪ depends_on t = depends_on t) as -> by set_solver.
  by destruct t.
Qed.

(** X1.  [add_dependency(a, b)] on two existing tasks never raises; it puts
    [b] into [a.depends_on] and [a] into [b._downstreams], leaves every
    other task as it was, and doing it a second time changes nothing. *)
Theorem add_dependency_edges (h : heap) (self task : nat) (a b : Task) :
  h !! self = Some a →
  h !! task = Some b →
  ∃ h', add_dependency self task h = (Ok tt, h')
        ∧ depends_on <$> h' !! self = Some ({[task]} ∪ depends_on a)
        ∧ _downstreams <$> h' !! task = Some ({[self]} ∪ _downstreams b)
        ∧ (∀ x, x ≠ self → x ≠ task → h' !! x = h !! x)
        ∧ add_dependency self task h' = (Ok tt, h').
Proof.
  intros Ha Hb. unfold add_dependency, on_task. rewrite Ha, Hb.
  set (f := λ s : Task, with_depends_on ({[task]} ∪ depends_on s) s).
  set (g := λ d : Task, with_downstreams ({[self]} ∪ _downstreams d) d).
  assert (Hself : ∃ a', alter g task (alter f self h) !! self = Some a'
            ∧ depends_on a' = {[task]} ∪ depends_on a).
  { destruct (decide (task = self)) as [->|Hne].
    - rewrite !lookup_alter_eq, Ha. by eexists.
    - rewrite lookup_alter_ne, lookup_alter_eq, Ha by done. by eexists. }
  assert (Htask : ∃ b', alter g task (alter f self h) !! task = Some b'
            ∧ _downstreams b' = {[self]} ∪ _downstreams b).
  { rewrite lookup_alter_eq. destruct (decide (self = task)) as [->|Hne].
    - rewrite lookup_alter_eq, Ha. simpl. eexists. split; [done|].
      simpl. congruence.
    - rewrite lookup_alter_ne, Hb by done. by eexists. }
  destruct Hself as (a' & Ha' & Hda'), Htask as (b' & Hb' & Hdb').
  eexists. split; [done|]. split; [by rewrite Ha'; simpl; rewrite Hda'|].
  split; [by rewrite Hb'; simpl; rewrite Hdb'|]. split.
  - intros x Hx1 Hx2. by rewrite !lookup_alter_ne.
  - rewrite Ha', Hb'. f_equal.
    rewrite (alter_id f).
    + apply alter_id. intros y Hy. rewrite Hb' in Hy. injection Hy as <-.
      apply with_downstreams_same. rewrite Hdb'. set_solver.
    + intros y Hy. rewrite Ha' in Hy. injection Hy as <-.
      apply with_depends_on_same. rewrite Hda'. set_solver.
Qed.

(** What a successful [add_subtask] has done to the heap. *)
Lemma add_subtask_ok_inv (h h' : heap) (self task : nat) :
  add_subtask self task h = (Ok tt, h') →
  ∃ pt ct, h !! self = Some pt ∧ h !! task = Some ct
    ∧ h' = alter (adopt task) self (alter (with_parent (Some self)) task h).
Proof.
  unfold add_subtask, on_task.
  destruct (h !! self) as [pt|] eqn:Hp; [|done].
  destruct (h !! task) as [ct|] eqn:Hc; [|done].
  destruct (parent ct) as [q|] eqn:Hq.
  - destruct (decide (q = self)) as [->|]; [|done]. intros [= <-].
    exists pt, ct. do 2 (split; [done|]).
    f_equal. symmetry. apply alter_id. intros y Hy.
    apply with_parent_same. congruence.
  - intros [= <-]. by exists pt, ct.
Qed.

Lemma adopted_child (h : heap) (self task : nat) (pt ct : Task) :
  h !! self = Some pt →
  h !! task = Some ct →
  ∃ ct', alter (adopt task) self (alter (with_parent (Some self)) task h)
           !! task = Some ct'
         ∧ parent ct' = Some self ∧ status ct' = status ct.
Proof.
  intros Hp Hc. destruct (decide (self = task)) as [->|Hne].
  - rewrite !lookup_alter_eq, Hc. by eexists.
  - rewrite lookup_alter_ne, lookup_alter_eq, Hc by done. by eexists.
Qed.

Lemma adopted_parent (h : heap) (self task : nat) (pt ct : Task) :
  h !! self = Some pt →
  h !! task = Some ct →
  ∃ pt', alter (adopt task) self (alter (with_parent (Some self)) task h)
           !! self = Some pt'
         ∧ _subtasks pt' = {[task]} ∪ _subtasks pt
         ∧ depends_on pt' = {[task]} ∪ depends_on pt
         ∧ status pt' = status pt.
Proof.
  intros Hp Hc. rewrite lookup_alter_eq.
  destruct (decide (task = self)) as [->|Hne].
  - rewrite lookup_alter_eq, Hp. by eexists.
  - rewrite lookup_alter_ne, Hp by done. by eexists.
Qed.

(** X2.  Once [add_subtask(p, c)] has succeeded, [c] cannot be given to
    another parent: [add_subtask(q, c)] raises [ValueError] for every other
    task [q] and changes nothing, while [add_subtask(p, c)] again succeeds
    and changes nothing either. *)
Theorem adopted_child_keeps_parent (h h' : heap) (p c : nat) :
  add_subtask p c h = (Ok tt, h') →
  add_subtask p c h' = (Ok tt, h')
  ∧ ∀ q, q ≠ p → is_Some (h' !! q) →
      ∃ msg, add_subtask q c h' = (Raise (ValueError msg), h').
Proof.
  intros (pt & ct & Hp & Hc & ->)%add_subtask_ok_inv.
  destruct (adopted_child h p c pt ct Hp Hc) as (ct' & Hc' & Hpar & _).
  destruct (adopted_parent h p c pt ct Hp Hc) as (pt' & Hp' & Hsub & Hdep & _).
  set (h' := alter _ p _) in *. split.
  - unfold add_subtask, on_task. rewrite Hp', Hc', Hpar.
    rewrite decide_True by done. f_equal.
    apply alter_id. intros y Hy. rewrite Hp' in Hy. injection Hy as <-.
    apply adopt_same; [rewrite Hsub|rewrite Hdep]; set_solver.
  - intros q Hq [qt Hqt]. unfold add_subtask, on_task.
    rewrite Hqt, Hc', Hpar. rewrite decide_False by done. by eexists.
Qed.

(** X3.  After [add_subtask(p, c)] with a child that is PENDING or RUNNING,
    the parent is not ready and cannot be marked successful: the subtask is
    one of its dependencies. *)
Theorem incomplete_subtask_blocks_parent `{Runtime} (h h' : heap) (p c : nat)
    (ct : Task) :
  add_subtask p c h = (Ok tt, h') →
  h !! c = Some ct →
  is_incomplete ct = true →
  ∃ pt', h' !! p = Some pt'
         ∧ c ∈ depends_on pt'
         ∧ is_ready h' pt' = false
         ∧ ∀ r, ∃ msg, mark_successful p r true h' = (Raise (ValueError msg), h').
Proof.
  intros (pt & ct0 & Hp & Hc & ->)%add_subtask_ok_inv Hc0 Hinc.
  assert (ct0 = ct) as -> by congruence.
  destruct (adopted_child h p c pt ct Hp Hc) as (ct' & Hc' & _ & Hst).
  destruct (adopted_parent h p c pt ct Hp Hc) as (pt' & Hp' & _ & Hdep & _).
  set (h' := alter _ p _) in *.
  assert (Hin : c ∈ depends_on pt') by (rewrite Hdep; set_solver).
  assert (Hc'inc : is_incomplete ct' = true).
  { unfold is_incomplete in *. by rewrite Hst. }
  exists pt'. split; [done|]. split; [done|]. split.
  - unfold is_ready. apply andb_false_iff. right.
    apply not_true_iff_false. intros Hall.
    apply (proj1 (forallb_elements _ _)) with (r := c) in Hall; [|done].
    unfold at_ref in Hall. rewrite Hc' in Hall.
    rewrite is_complete_negb, Hc'inc in Hall. done.
  - intros r. rewrite (mark_successful_unfold h' p pt' r true Hp').
    assert (any_incomplete h' (depends_on pt') = true) as ->.
    { apply any_incomplete_true. exists c, ct'.
      by rewrite <- is_incomplete_iff. }
    by eexists.
Qed.

(** A field that an update of one task keeps is kept by the heap. *)
Lemma fmap_alter_keeps {B} (g : Task → B) (f : Task → Task) (k : nat)
    (h : heap) (x : nat) :
  (∀ t, g (f t) = g t) → g <$> alter f k h !! x = g <$> h !! x.
Proof.
  intros Hf. destruct (decide (k = x)) as [->|Hne].
  - rewrite lookup_alter_eq. destruct (h !! x); simpl; [by rewrite Hf|done].
  - by rewrite lookup_alter_ne.
Qed.

(** X4.  Neither [add_subtask] nor [add_dependency] touches a status, a
    result, an id or a field ids are derived from, of any task; they leave
    the tasks other than their two arguments as they were, and when they
    raise they have changed nothing. *)
Theorem wiring_keeps_outcomes (h h' : heap) (a b : nat) (res : outcome unit) :
  add_subtask a b h = (res, h') ∨ add_dependency a b h = (res, h') →
  (∀ x, outcome_of <$> h' !! x = outcome_of <$> h !! x)
  ∧ (∀ x, described <$> h' !! x = described <$> h !! x)
  ∧ (∀ x, x ≠ a → x ≠ b → h' !! x = h !! x)
  ∧ (∀ e, res = Raise e → h' = h).
Proof.
  intros [Hop|Hop].
  - unfold add_subtask, on_task in Hop.
    destruct (h !! a); [|by injection Hop as <- <-].
    destruct (h !! b) as [ct|]; [|by injection Hop as <- <-].
    destruct (parent ct) as [q|].
    + destruct (decide (q = a)); injection Hop as <- <-; [|done].
      split; [intros x; by apply fmap_alter_keeps|].
      split; [intros x; by apply fmap_alter_keeps|].
      split; [|done]. intros x Hx _. by rewrite lookup_alter_ne.
    + injection Hop as <- <-.
      split; [intros x; by rewrite !fmap_alter_keeps|].
      split; [intros x; by rewrite !fmap_alter_keeps|].
      split; [|done]. intros x Hx1 Hx2. by rewrite !lookup_alter_ne.
  - unfold add_dependency, on_task in Hop.
    destruct (h !! a); [|by injection Hop as <- <-].
    destruct (h !! b); [|by injection Hop as <- <-].
    injection Hop as <- <-.
    split; [intros x; by rewrite !fmap_alter_keeps|].
    split; [intros x; by rewrite !fmap_alter_keeps|].
    split; [|done]. intros x Hx1 Hx2. by rewrite !lookup_alter_ne.
Qed.

(** ** Status transitions and the graph *)

(** The four transitions, with what they assign. *)
Lemma transition_inv `{Runtime} (h h' : heap) (self : nat) (res : outcome unit) :
  mark_running self h = (res, h')
  ∨ (∃ reason, mark_failed self reason h = (res, h'))
  ∨ mark_skipped self h = (res, h')
  ∨ (∃ r vu, mark_successful self r vu h = (res, h')) →
  (∃ e, res = Raise e ∧ h' = h)
  ∨ (∃ t st v, h !! self = Some t ∧ res = Ok tt
       ∧ h' = alter (with_status st) self (alter (with_result v) self h)
       ∧ (st = RUNNING ∨ is_complete (with_status st t) = true)).
Proof.
  intros [Hop|[[reason Hop]|[Hop|(r & vu & Hop)]]].
  - unfold mark_running, on_task in Hop.
    destruct (h !! self) as [t|] eqn:Ht; injection Hop as <- <-;
      [right|left; by eexists].
    exists t, RUNNING, (result t). do 2 (split; [done|]). split; [|by left].
    unfold set_status. f_equal. symmetry. apply alter_id.
    intros y Hy. assert (y = t) as -> by congruence. by destruct t.
  - unfold mark_failed, on_task in Hop.
    destruct (h !! self) as [t|] eqn:Ht; injection Hop as <- <-;
      [right|left; by eexists].
    eexists t, FAILED, _. do 2 (split; [done|]). split; [done|]. by right.
  - unfold mark_skipped, on_task in Hop.
    destruct (h !! self) as [t|] eqn:Ht; injection Hop as <- <-;
      [right|left; by eexists].
    exists t, SKIPPED, (result t). do 2 (split; [done|]). split; [|by right].
    unfold set_status. f_equal. symmetry. apply alter_id.
    intros y Hy. assert (y = t) as -> by congruence. by destruct t.
  - destruct (h !! self) as [t|] eqn:Ht.
    + rewrite (mark_successful_unfold h self t r vu Ht) in Hop.
      destruct (vu && _); [injection Hop as <- <-; left; by eexists|].
      destruct (validate_result t r) as [v|e]; injection Hop as <- <-;
        [right|left; by eexists].
      exists t, SUCCESSFUL, v. do 3 (split; [done|]). by right.
    + unfold mark_successful, on_task in Hop. rewrite Ht in Hop.
      injection Hop as <- <-. left. by eexists.
Qed.

(** X5.  The status transitions [mark_running], [mark_failed],
    [mark_skipped] and [mark_successful] never touch an edge of the graph
    (parent, [depends_on], subtasks, downstreams), an id or a field ids are
    derived from; they change no task but the one they are called on, and
    when they raise they have changed nothing. *)
Theorem status_transitions_keep_graph `{Runtime} (h h' : heap) (self : nat)
    (res : outcome unit) :
  mark_running self h = (res, h')
  ∨ (∃ reason, mark_failed self reason h = (res, h'))
  ∨ mark_skipped self h = (res, h')
  ∨ (∃ r vu, mark_successful self r vu h = (res, h')) →
  (∀ x, edges <$> h' !! x = edges <$> h !! x)
  ∧ (∀ x, described <$> h' !! x = described <$> h !! x)
  ∧ (∀ x, x ≠ self → h' !! x = h !! x)
  ∧ (∀ e, res = Raise e → h' = h).
Proof.
  intros [(e & -> & ->)|(t & st & v & Ht & -> & -> & _)]%transition_inv.
  - done.
  - split; [intros x; by rewrite !fmap_alter_keeps|].
    split; [intros x; by rewrite !fmap_alter_keeps|].
    split; [|done]. intros x Hx. by rewrite !lookup_alter_ne.
Qed.

(** X6.  A dependency that reaches a terminal status, FAILED and SKIPPED
    included, no longer blocks: when a task that depends on [d] is
    incomplete and its other dependencies are complete, it is ready as soon
    as [d] has been marked failed, skipped or successful. *)
Theorem terminal_dependency_unblocks `{Runtime} (h h' : heap) (t d : nat)
    (T : Task) :
  h !! t = Some T →
  t ≠ d →
  is_incomplete T = true →
  d ∈ depends_on T →
  (∀ u, u ∈ depends_on T → u ≠ d →
     ∃ U, h !! u = Some U ∧ is_complete U = true) →
  (∃ reason, mark_failed d reason h = (Ok tt, h'))
  ∨ mark_skipped d h = (Ok tt, h')
  ∨ (∃ r vu, mark_successful d r vu h = (Ok tt, h')) →
  h' !! t = Some T ∧ is_ready h' T = true.
Proof.
  intros Ht Hne Hinc Hd Hothers Hop.
  assert (Hinv : (∃ e, Ok tt = Raise e ∧ h' = h)
    ∨ (∃ D st v, h !! d = Some D ∧ Ok tt = Ok tt
         ∧ h' = alter (with_status st) d (alter (with_result v) d h)
         ∧ (st = RUNNING ∨ is_complete (with_status st D) = true))).
  { apply transition_inv. naive_solver. }
  destruct Hinv as [(e & [=] & _)|(D & st & v & HD & _ & -> & Hst)].
  assert (Hst' : is_complete (with_status st D) = true).
  { destruct Hst as [->|]; [|done]. exfalso.
    destruct Hop as [[reason Hop]|[Hop|(r & vu & Hop)]].
    - unfold mark_failed, on_task in Hop. rewrite HD in Hop.
      injection Hop as Hop.
      apply (f_equal (λ m : heap, status <$> m !! d)) in Hop.
      unfold set_status in Hop. rewrite !lookup_alter_eq, HD in Hop. done.
    - unfold mark_skipped, on_task in Hop. rewrite HD in Hop.
      injection Hop as Hop.
      apply (f_equal (λ m : heap, status <$> m !! d)) in Hop.
      unfold set_status in Hop. rewrite !lookup_alter_eq, HD in Hop. done.
    - rewrite (mark_successful_unfold h d D r vu HD) in Hop.
      destruct (vu && _); [done|].
      destruct (validate_result D r) as [v'|]; [|done].
      injection Hop as Hop.
      apply (f_equal (λ m : heap, status <$> m !! d)) in Hop.
      unfold set_status in Hop. rewrite !lookup_alter_eq, HD in Hop. done. }
  split; [by rewrite !lookup_alter_ne|].
  unfold is_ready. rewrite Hinc. simpl. apply forallb_elements.
  intros u Hu. apply at_ref_true.
  destruct (decide (u = d)) as [->|Hud].
  - rewrite !lookup_alter_eq, HD. simpl. eexists. split; [done|].
    unfold is_complete in *. done.
  - rewrite !lookup_alter_ne by done. by apply Hothers.
Qed.

(** X7.  [validate_upstreams=False] switches the upstream check off and
    nothing else: for a task with an incomplete dependency and a result
    that validates, the default call raises, and the call with the flag
    off succeeds, leaving a SUCCESSFUL task whose dependency is still
    incomplete. *)
Theorem upstream_check_can_be_skipped `{Runtime} (h : heap) (self u : nat)
    (t d : Task) (r v : pyval) :
  h !! self = Some t →
  u ∈ depends_on t →
  u ≠ self →
  h !! u = Some d →
  is_incomplete d = true →
  validate_result t r = Ok v →
  (∃ msg, mark_successful self r true h = (Raise (ValueError msg), h))
  ∧ ∃ h', mark_successful self r false h = (Ok tt, h')
          ∧ status <$> h' !! self = Some SUCCESSFUL
          ∧ result <$> h' !! self = Some v
          ∧ h' !! u = Some d.
Proof.
  intros Ht Hu Hne Hd Hinc Hv. split.
  - rewrite (mark_successful_unfold h self t r true Ht).
    assert (any_incomplete h (depends_on t) = true) as ->.
    { apply any_incomplete_true. exists u, d. by rewrite <- is_incomplete_iff. }
    by eexists.
  - rewrite (mark_successful_unfold h self t r false Ht), Hv. simpl.
    eexists. split; [done|].
    destruct (mark_successful_committed h self t v Ht) as [-> ->].
    do 2 (split; [done|]). unfold set_status. by rewrite !lookup_alter_ne.
Qed.

(** ** The success tool *)


(** ** Agents of a task *)

(** X9.  When the [agents] field of every task has passed its validator (it
    is [None] or a non-empty list), [get_agents] never returns an empty
    list: whenever it returns, it names an agent, the task's own, an
    ancestor's, the flow's or the default one. *)
Theorem get_agents_never_empty `{Runtime} (h : heap) (t : Task)
    (l : list Agent) :
  (∀ r u, h !! r = Some u → ∃ v, _validate_agents (agents u) = Ok v) →
  (∃ v, _validate_agents (agents t) = Ok v) →
  get_agents h t = Ok l →
  l ≠ [].
Proof.
  intros Hheap. unfold get_agents. generalize recursion_limit as depth.
  intros depth. revert t. induction depth as [|d IH]; intros t [v Hv]; simpl.
  - destruct (agents t) as [[|a l0]|]; [done|by intros [= <-]|].
    destruct (parent t); [done|]. by destruct flow_agent; intros [= <-].
  - destruct (agents t) as [[|a l0]|]; [done|by intros [= <-]|].
    destruct (parent t) as [p|].
    + destruct (h !! p) as [pt|] eqn:Hp; [|done].
      apply IH. by eapply Hheap.
    + by destruct flow_agent; intros [= <-].
Qed.

(** ** Collecting tasks *)

Section CollectionProperties.
Context `{Runtime}.

Lemma task_in_app (h : heap) (task : nat) (l more : list nat) :
  task_in h task l = true → task_in h task (l ++ more) = true.
Proof. unfold task_in. rewrite existsb_app. by intros ->. Qed.

Lemma task_in_member (h : heap) (task : nat) (l : list nat) :
  task ∈ l → task_in h task l = true.
Proof.
  intros Hin. unfold task_in. apply existsb_exists. exists task.
  split; [by apply list_elem_of_In|]. by rewrite bool_decide_eq_true_2.
Qed.

Lemma task_in_false (h : heap) (task : nat) (l : list nat) :
  task_in h task l = false → task ∉ l.
Proof.
  intros Hf Hin. by rewrite (task_in_member h task l Hin) in Hf.
Qed.

Lemma foldl_try_raise {A B} (f : B → A → outcome A) (e : exn) (l : list B) :
  foldl (λ m x, try_ m (f x)) (Raise e) l = Raise e.
Proof. by induction l. Qed.

Lemma subtasks_members (h : heap) (t : Task) (s : nat) :
  s ∈ subtasks h t ↔ s ∈ _subtasks t.
Proof.
  unfold subtasks. rewrite merge_sort_Permutation. apply elem_of_elements.
Qed.

Lemma well_collected_extend (h : heap) (roots : list nat)
    (acc : list nat * list nat) (task : nat) (t : Task) :
  well_collected h roots acc →
  h !! task = Some t →
  reaches h roots task →
  task_in h task acc.1 = false →
  well_collected h roots
    (acc.1 ++ [task],
     if true && is_ready h t then acc.2 ++ [task] else acc.2).
Proof.
  intros (Hnd & Hall & Hact) Ht Hreach Hnew%task_in_false.
  split; [|split]; simpl.
  - apply NoDup_app. split; [done|]. split; [|apply NoDup_singleton].
    intros x Hx ->%list_elem_of_singleton. done.
  - intros r [Hr| ->%list_elem_of_singleton]%elem_of_app; [by apply Hall|].
    by rewrite Ht.
  - rewrite List.filter_app, Hact. simpl.
    assert (at_ref h (is_ready h) task = is_ready h t) as ->
      by (unfold at_ref; by rewrite Ht).
    destruct (is_ready h t); [done|]. by rewrite app_nil_r.
Qed.

Lemma collects_fold (depth : nat) (h : heap) (roots : list nat) :
  collects depth h roots →
  ∀ l acc acc',
    foldl (λ m task, try_ m (collect_tasks depth h true task)) (Ok acc) l
      = Ok acc' →
    well_collected h roots acc →
    (∀ s, s ∈ l → reaches h roots s) →
    ∃ more,
      acc'.1 = acc.1 ++ more
      ∧ well_collected h roots acc'
      ∧ (∀ s, s ∈ l → task_in h s acc'.1 = true)
      ∧ (∀ p P s, p ∈ more → h !! p = Some P → s ∈ _subtasks P →
           task_in h s acc'.1 = true).
Proof.
  intros Hone l. induction l as [|x l IH]; intros acc acc' Hfold Hwell Hreach.
  - injection Hfold as <-. exists []. rewrite app_nil_r.
    split; [done|]. split; [done|]. split; [by intros s ?%elem_of_nil|].
    by intros p P s ?%elem_of_nil.
  - simpl in Hfold.
    destruct (collect_tasks depth h true x acc) as [acc1|e] eqn:E1;
      [|by rewrite foldl_try_raise in Hfold].
    destruct (Hone x acc acc1 E1 Hwell (Hreach x ltac:(set_solver)))
      as (more1 & Hm1 & Hwell1 & Hx & Hclosed1).
    destruct (IH acc1 acc' Hfold Hwell1 ltac:(set_solver))
      as (more2 & Hm2 & Hwell2 & Hl & Hclosed2).
    exists (more1 ++ more2).
    split; [by rewrite Hm2, Hm1, <- app_assoc|]. split; [done|]. split.
    + intros s [->|Hs]%elem_of_cons; [|by apply Hl].
      rewrite Hm2. by apply task_in_app.
    + intros p P s [Hp|Hp]%elem_of_app HP Hs.
      * rewrite Hm2. apply task_in_app. by eapply Hclosed1.
      * by eapply Hclosed2.
Qed.

Lemma collects_all (h : heap) (roots : list nat) (depth : nat) :
  collects depth h roots.
Proof.
  induction depth as [|d IH]; intros task acc acc' Hc Hwell Hreach; [done|].
  simpl in Hc. destruct (h !! task) as [t|] eqn:Ht; [|done].
  destruct (task_in h task acc.1) eqn:Hin.
  - injection Hc as <-. exists []. rewrite app_nil_r.
    split; [done|]. split; [done|]. split; [done|].
    by intros p P s ?%elem_of_nil.
  - pose proof (well_collected_extend h roots acc task t Hwell Ht Hreach Hin)
      as Hwell0.
    destruct (collects_fold d h roots IH _ _ _ Hc Hwell0)
      as (more & Hm & Hwell' & Hsubs & Hclosed).
    { intros s Hs%subtasks_members. by eapply reaches_subtask. }
    simpl in Hm. exists ([task] ++ more).
    split; [by rewrite Hm, <- app_assoc|]. split; [done|]. split.
    + rewrite Hm. apply task_in_member. set_solver.
    + intros p P s [->%list_elem_of_singleton|Hp]%elem_of_app HP Hs.
      * assert (P = t) as -> by congruence.
        apply Hsubs. by apply subtasks_members.
      * by eapply Hclosed.
Qed.

(** X10.  Whenever [get_tasks] has collected the tasks without raising:
    no task is collected twice; every collected task exists and is reached
    from the root tasks through subtask edges; the active tasks are the
    ready ones among the collected, in the order of collection; and the
    collection holds (up to the equality of tasks) every root and every
    subtask of a collected task. *)
Theorem get_tasks_collects (h : heap) (o : Orchestrator)
    (all_tasks active : list nat) :
  collect_roots h (tasks o) = Ok (all_tasks, active) →
  active_tasks h o = Ok active
  ∧ NoDup all_tasks
  ∧ (∀ r, r ∈ all_tasks → is_Some (h !! r) ∧ reaches h (tasks o) r)
  ∧ active = List.filter (at_ref h (is_ready h)) all_tasks
  ∧ (∀ r, r ∈ tasks o → task_in h r all_tasks = true)
  ∧ (∀ p P s, p ∈ all_tasks → h !! p = Some P → s ∈ _subtasks P →
       task_in h s all_tasks = true).
Proof.
  intros Hc. split; [unfold active_tasks; by rewrite Hc|].
  unfold collect_roots in Hc.
  destruct (collects_fold recursion_limit h (tasks o)
              (collects_all h (tasks o) recursion_limit)
              (tasks o) ([], []) (all_tasks, active) Hc)
    as (more & Hm & (Hnd & Hall & Hact) & Hroots & Hclosed).
  - split; [apply NoDup_nil_2|]. split; [by intros r ?%elem_of_nil|done].
  - intros s Hs. by apply reaches_root.
  - simpl in *. subst more. done.
Qed.

End CollectionProperties.

(** ** Assigned tasks and available agents *)

Section AssignmentProperties.
Context `{Runtime}.

Lemma assigned_among_spec (h : heap) (a : Agent) (active l : list nat) :
  assigned_among h a active = Ok l →
  sublist l active
  ∧ ∀ r, r ∈ l ↔
      r ∈ active ∧ ∃ t ag, h !! r = Some t ∧ get_agents h t = Ok ag ∧ a ∈ ag.
Proof.
  revert l. induction active as [|x active IH]; intros l; simpl.
  - intros [= <-]. split; [done|]. set_solver.
  - destruct (h !! x) as [t|] eqn:Hx; [|done].
    destruct (get_agents h t) as [ag|] eqn:Hag; [|done]. simpl.
    destruct (assigned_among h a active) as [rest|]; [|done]. simpl.
    destruct (IH rest eq_refl) as [Hsub Hmem].
    intros [= <-]. destruct (bool_decide (a ∈ ag)) eqn:Ha.
    + apply bool_decide_eq_true in Ha. split; [by apply sublist_skip|].
      intros r. rewrite !elem_of_cons, Hmem. split.
      * intros [->|[Hr Hrest]]; [|by auto]. split; [by left|]. by exists t, ag.
      * intros [[->|Hr] Hrest]; [by left|by right].
    + apply bool_decide_eq_false in Ha. split; [by apply sublist_cons|].
      intros r. rewrite elem_of_cons, Hmem. split; [by intros [? ?]; auto|].
      intros [[->|Hr] Hrest]; [|done].
      destruct Hrest as (t' & ag' & Ht' & Hag' & Hin). congruence.
Qed.

(** X11.  Whenever [get_tasks("assigned")] returns, it returns active
    tasks in their order, and exactly those among the active ones whose
    agents, as [get_agents] resolves them, include the orchestrator's
    current agent. *)
Theorem assigned_tasks_spec (h : heap) (o : Orchestrator) (l : list nat) :
  assigned_tasks h o = Ok l →
  ∃ active,
    active_tasks h o = Ok active
    ∧ sublist l active
    ∧ ∀ r, r ∈ l ↔
        r ∈ active
        ∧ ∃ t ag, h !! r = Some t ∧ get_agents h t = Ok ag ∧ agent o ∈ ag.
Proof.
  unfold assigned_tasks.
  destruct (active_tasks h o) as [active|]; [|done]. simpl.
  intros Hl%assigned_among_spec. by exists active.
Qed.

Lemma agents_of_tasks_spec (h : heap) (active : list nat) (s : gset Agent) :
  agents_of_tasks h active = Ok s →
  ∀ a, a ∈ s ↔
    ∃ r t ag, r ∈ active ∧ h !! r = Some t ∧ get_agents h t = Ok ag ∧ a ∈ ag.
Proof.
  revert s. induction active as [|x active IH]; intros s; simpl.
  - intros [= <-] a. split; [set_solver|]. by intros (r & ? & ? & ?%elem_of_nil & ?).
  - destruct (h !! x) as [t|] eqn:Hx; [|done].
    destruct (get_agents h t) as [ag|] eqn:Hag; [|done]. simpl.
    destruct (agents_of_tasks h active) as [rest|]; [|done]. simpl.
    intros [= <-] a. rewrite elem_of_union, elem_of_list_to_set, (IH rest eq_refl).
    split.
    + intros [Ha|(r & t' & ag' & Hr & Ht' & Hag' & Ha)].
      * exists x, t, ag. split; [by left|done].
      * exists r, t', ag'. split; [by right|done].
    + intros (r & t' & ag' & [->|Hr]%elem_of_cons & Ht' & Hag' & Ha).
      * left. congruence.
      * right. by exists r, t', ag'.
Qed.

(** X12.  Whenever [get_available_agents] returns, it returns a list
    without repetition that holds the current agent, every agent of every
    active task, and nobody else. *)
Theorem available_agents_exact (h : heap) (o : Orchestrator) (l : list Agent) :
  get_available_agents h o = Ok l →
  NoDup l
  ∧ ∃ active,
      active_tasks h o = Ok active
      ∧ ∀ a, a ∈ l ↔
          a = agent o
          ∨ ∃ r t ag, r ∈ active ∧ h !! r = Some t
                      ∧ get_agents h t = Ok ag ∧ a ∈ ag.
Proof.
  unfold get_available_agents.
  destruct (active_tasks h o) as [active|]; [|done]. simpl.
  destruct (agents_of_tasks h active) as [s|] eqn:Hs; [|done]. simpl.
  intros [= <-]. split; [apply NoDup_elements|].
  exists active. split; [done|]. intros a.
  rewrite elem_of_elements, elem_of_union, elem_of_singleton.
  rewrite (agents_of_tasks_spec h active s Hs). tauto.
Qed.

End AssignmentProperties.

(** ** Handlers that raise, sessions that do not start *)

Section SessionProperties.
Context `{Runtime} {X : Type} `{Collaborators X}.

Lemma external_fst {A}
    (f : gmap nat Task * X → outcome A * (gmap nat Task * X)) (s : State X) :
  (external f s).1 = (f (task_heap s, ext s)).1.
Proof. unfold external. by destruct (f _) as [r [h x]]. Qed.

Lemma for_handlers_aborts (hs1 hs2 : list nat) (handler : nat)
    (event : Event) (e : exn) (s : State X) :
  (∀ h' w, h' ∈ hs1 → (handle h' event w).1 = Ok tt) →
  (∀ w, (handle handler event w).1 = Raise e) →
  (for_handlers (hs1 ++ handler :: hs2) event s).1 = Raise e
  ∧ log (for_handlers (hs1 ++ handler :: hs2) event s).2
    = log s ++ map (λ k, Handled k event) (hs1 ++ [handler]).
Proof.
  revert s. induction hs1 as [|k hs1 IH]; intros s Hok Hraise.
  - simpl app. rewrite for_handlers_cons.
    set (s0 := mkState _ _ _ _).
    pose proof (external_log (handle handler event) s0) as [Hl _].
    pose proof (external_fst (handle handler event) s0) as Hr.
    rewrite Hraise in Hr.
    destruct (external (handle handler event) s0) as [[[]|e'] s1];
      simpl in *; [done|]. split; [done|]. by rewrite Hl.
  - simpl app. rewrite for_handlers_cons.
    set (s0 := mkState _ _ _ _).
    pose proof (external_log (handle k event) s0) as [Hl _].
    pose proof (external_fst (handle k event) s0) as Hr.
    rewrite Hok in Hr by set_solver.
    destruct (external (handle k event) s0) as [[[]|e'] s1];
      simpl in *; [|done].
    destruct (IH s1) as [Hres Hlog]; [intros; apply Hok; set_solver|done|].
    split; [done|]. rewrite Hlog, Hl. subst s0. simpl.
    by rewrite <- app_assoc.
Qed.

(** X13.  When a handler raises on an event, [handle_event] raises what
    the handler raised; the handlers registered before it have been called,
    in order, those registered after it have not, and the event is not
    persisted, whatever its [persist] flag says. *)
Theorem handle_event_aborts (event : Event) (s : State X)
    (hs1 hs2 : list nat) (handler : nat) (e : exn) :
  handlers (orchestrator s) = hs1 ++ handler :: hs2 →
  (∀ h' w, h' ∈ hs1 → (handle h' event w).1 = Ok tt) →
  (∀ w, (handle handler event w).1 = Raise e) →
  (handle_event event s).1 = Raise e
  ∧ log (handle_event event s).2
    = log s ++ Emitted event :: map (λ k, Handled k event) (hs1 ++ [handler]).
Proof.
  intros Hhs Hok Hraise. rewrite handle_event_unfold, Hhs.
  set (s0 := mkState _ _ _ _).
  destruct (for_handlers_aborts hs1 hs2 handler event e s0 Hok Hraise)
    as [Hres Hlog].
  destruct (for_handlers _ event s0) as [[[]|e'] s1]; simpl in *; [done|].
  split; [done|]. rewrite Hlog. subst s0. simpl. by rewrite <- app_assoc.
Qed.

(** X14.  When the handling of the start signal raises, [run] raises the
    same exception at once: no turn is run, no agent invoked, and neither
    an error signal nor the session-end signal is emitted. *)
Theorem run_start_failure (fuel : nat) (s s1 : State X) (e : exn) :
  handle_event (lifecycle OrchestratorStart) s = (Raise e, s1) →
  run fuel s = Some (Raise e, s1)
  ∧ count_invoked (log s1) = count_invoked (log s)
  ∧ count_emitted OrchestratorEnd (log s1)
    = count_emitted OrchestratorEnd (log s)
  ∧ ∀ exc, count_emitted (OrchestratorError exc) (log s1)
           = count_emitted (OrchestratorError exc) (log s).
Proof.
  intros Hstart. unfold run. rewrite Hstart. split; [done|].
  destruct (handle_event_log (lifecycle OrchestratorStart) s) as (l & G & D).
  rewrite Hstart in G. unfold grows_by in G. simpl in G. rewrite G.
  destruct (delivery_counts l D) as [He Hi].
  split; [|split; [|intros exc]].
  - change (Emitted ?ev :: l) with ([Emitted ev] ++ l).
    rewrite !count_invoked_app, Hi. simpl. lia.
  - rewrite count_emitted_app, count_emitted_cons, He.
    rewrite bool_decide_eq_false_2 by (simpl; congruence). lia.
  - rewrite count_emitted_app, count_emitted_cons, He.
    rewrite bool_decide_eq_false_2 by (simpl; congruence). lia.
Qed.

(** X15.  An exception of the turn loop that is no [Exception] (a
    [KeyboardInterrupt], say) gets no error signal: [run] emits the
    session-end signal, once, and nothing else, and raises the exception
    itself unless the handling of the end signal raises. *)
Theorem run_base_exception (fuel : nat) (s s1 s2 : State X) (exc : exn) :
  handle_event (lifecycle OrchestratorStart) s = (Ok tt, s1) →
  session_loop fuel s1 = Some (Raise exc, s2) →
  is_Exception exc = false →
  ∃ r s3 l,
    run fuel s = Some (r, s3)
    ∧ log s3 = log s2 ++ Emitted (lifecycle OrchestratorEnd) :: l
    ∧ Forall is_delivery l
    ∧ (∀ e, count_emitted (OrchestratorError e) (log s3)
            = count_emitted (OrchestratorError e) (log s))
    ∧ (∃ e, r = Raise e)
    ∧ ((handle_event (lifecycle OrchestratorEnd) s2).1 = Ok tt →
       r = Raise exc).
Proof.
  intros Hstart Hloop Hexc. unfold run. rewrite Hstart, Hloop, Hexc.
  destruct (handle_event_log (lifecycle OrchestratorStart) s) as (l0 & G0 & D0).
  rewrite Hstart in G0. simpl in G0.
  destruct (quiet_session_loop _ _ _ _ Hloop) as (lq & Gq & Qq).
  destruct (finally_end_log (Raise exc) s2) as (l & G & D & Hraise & Hr).
  destruct (finally_end (Raise exc) s2) as [r s3]. simpl in *.
  unfold grows_by in *.
  exists r, s3, l. do 3 (split; [done|]). split; [|split; [by eapply Hraise|done]].
  intros e. rewrite G, Gq, G0, !count_emitted_app, !count_emitted_cons.
  rewrite (Qq (OrchestratorError e) eq_refl).
  rewrite (proj1 (delivery_counts l0 D0)), (proj1 (delivery_counts l D)).
  rewrite !bool_decide_eq_false_2 by (simpl; congruence). lia.
Qed.

End SessionProperties.

(** ** What a turn and a session keep, and why they end *)

Section TurnProperties.
Context `{Runtime} {X : Type} `{Collaborators X}.

Lemma same_turn_refl (s : State X) : same_turn s s.
Proof.
  split; [done|]. exists []. split; [by rewrite app_nil_r|].
  by intros b ?%elem_of_nil.
Qed.

Lemma same_turn_trans (s1 s2 s3 : State X) :
  same_turn s1 s2 → same_turn s2 s3 → same_turn s1 s3.
Proof.
  intros (O1 & l1 & L1 & I1) (O2 & l2 & L2 & I2). split; [congruence|].
  exists (l1 ++ l2). split; [by rewrite L2, L1, app_assoc|].
  intros b [Hb|Hb]%elem_of_app; [by apply I1|]. rewrite <- O1. by apply I2.
Qed.

Lemma turn_step_run {A} (m : M A) (s s' : State X) (r : outcome A) :
  turn_step (X:=X) m → m s = (r, s') → same_turn s s'.
Proof. intros Hm Hs. specialize (Hm s). by rewrite Hs in Hm. Qed.

Lemma turn_step_ret {A} (a : A) : turn_step (X:=X) (ret a).
Proof. intros s. apply same_turn_refl. Qed.

Lemma turn_step_reading {A} (f : heap → Orchestrator → outcome A) :
  turn_step (X:=X) (reading f).
Proof. intros s. apply same_turn_refl. Qed.

Lemma turn_step_external {A}
    (f : gmap nat Task * X → outcome A * (gmap nat Task * X)) :
  turn_step (X:=X) (external f).
Proof.
  intros s. destruct (external_log f s) as [Hl Ho]. split; [done|].
  exists []. split; [by rewrite app_nil_r|]. by intros b ?%elem_of_nil.
Qed.

Lemma turn_step_note (o : Obs) :
  (∀ b, o ≠ Invoked b) → turn_step (X:=X) (note o).
Proof.
  intros Ho s. split; [done|]. exists [o]. split; [done|].
  intros b Hb%list_elem_of_singleton. by destruct (Ho b).
Qed.

Lemma turn_step_bind {A B} (m : M A) (k : A → M B) :
  turn_step (X:=X) m → (∀ a, turn_step (X:=X) (k a)) →
  turn_step (X:=X) (bind m k).
Proof.
  intros Hm Hk s. unfold bind. specialize (Hm s).
  destruct (m s) as [[a|e] s1]; [|done].
  eapply same_turn_trans; [exact Hm|]. apply Hk.
Qed.

Ltac turn_steps :=
  repeat first
    [ apply turn_step_reading | apply turn_step_external | apply turn_step_ret
    | apply turn_step_note; by intros ?
    | apply turn_step_bind; [|intros ?] ].

Lemma turn_step_for_handlers (hs : list nat) (event : Event) :
  turn_step (X:=X) (for_handlers hs event).
Proof.
  induction hs as [|handler rest IH]; simpl; [apply turn_step_ret|].
  apply turn_step_bind; [turn_steps|intros _].
  apply turn_step_bind; [turn_steps|intros _]. exact IH.
Qed.

Lemma turn_step_handle_event (event : Event) :
  turn_step (X:=X) (handle_event event).
Proof.
  unfold handle_event.
  apply turn_step_bind; [turn_steps|intros _].
  apply turn_step_bind; [turn_steps|intros hs].
  apply turn_step_bind; [apply turn_step_for_handlers|intros _].
  destruct (persist event); turn_steps.
Qed.

Lemma turn_step_get_tools : turn_step (X:=X) get_tools.
Proof. unfold get_tools. turn_steps. Qed.

Lemma turn_step_compile_messages : turn_step (X:=X) compile_messages.
Proof.
  unfold compile_messages, compile_prompt.
  apply turn_step_bind; [|intros ?; turn_steps].
  apply turn_step_bind; [apply turn_step_get_tools|intros ?; turn_steps].
Qed.

Lemma turn_step_invoke_agent : turn_step (X:=X) invoke_agent.
Proof.
  unfold invoke_agent.
  apply turn_step_bind; [apply turn_step_compile_messages|intros messages].
  apply turn_step_bind; [apply turn_step_get_tools|intros tools].
  intros s. unfold bind, reading, note, ret. simpl.
  set (s0 := mkState _ _ _ _).
  pose proof (external_log (run_model (agent (orchestrator s)) messages tools) s0)
    as [Hl Ho].
  destruct (external _ s0) as [[[]|e] s1]; simpl in *.
  all: split; [done|]; exists [Invoked (agent (orchestrator s))].
  all: split; [by rewrite Hl|]; by intros b [= ->]%list_elem_of_singleton.
Qed.

Lemma same_turn_consume_events (fuel : nat) (a : Agent) (s s' : State X)
    (r : outcome unit) :
  consume_events fuel a s = Some (r, s') → same_turn s s'.
Proof.
  revert s. induction fuel as [|n IH]; intros s; simpl; [done|].
  destruct (external (next_event a) s) as [[[[payload p]|]|e] s1] eqn:E1;
    pose proof (turn_step_run _ _ _ _ (turn_step_external _) E1) as Q1.
  - destruct (handle_event (mkEvent (AgentEvent payload) p) s1)
      as [[[]|e] s2] eqn:E2;
      pose proof (turn_step_run _ _ _ _
        (turn_step_handle_event (mkEvent (AgentEvent payload) p)) E2) as Q2.
    + intros Hrec%IH. eauto using same_turn_trans.
    + intros [= <- <-]. eauto using same_turn_trans.
  - by intros [= <- <-].
  - by intros [= <- <-].
Qed.

(** The test that ends a turn when the agent is not available never
    succeeds, and changes nothing. *)
Lemma agent_unavailable_result (s s' : State X) (r : bool) :
  agent_unavailable s = (Ok r, s') → r = false ∧ s' = s.
Proof.
  unfold agent_unavailable, bind, reading, ret.
  destruct (get_available_agents (task_heap s) (orchestrator s))
    as [l|e] eqn:Hl; [|done].
  intros [= <- <-]. split; [|done].
  apply bool_decide_eq_false_2. intros Hn. apply Hn.
  unfold get_available_agents in Hl.
  destruct (active_tasks _ _) as [active|e]; [|done]. simpl in Hl.
  destruct (agents_of_tasks _ active) as [set|e]; [|done]. simpl in Hl.
  injection Hl as <-. apply elem_of_elements. set_solver.
Qed.

Lemma agent_unavailable_state (s s' : State X) (r : outcome bool) :
  agent_unavailable s = (r, s') → s' = s.
Proof.
  unfold agent_unavailable, bind, reading, ret.
  destruct (get_available_agents _ _); by intros [= <- <-].
Qed.

Lemma same_turn_turn_loop (fuel : nat) (s s' : State X) (r : outcome unit) :
  turn_loop fuel s = Some (r, s') → same_turn s s'.
Proof.
  revert s. induction fuel as [|n IH]; intros s; [done|].
  cbn [turn_loop].
  destruct (external should_end_turn s) as [[[]|e] s1] eqn:E1;
    pose proof (turn_step_run _ _ _ _ (turn_step_external _) E1) as Q1;
    try by intros [= <- <-].
  destruct (invoke_agent s1) as [[a|e] s2] eqn:E2;
    pose proof (turn_step_run _ _ _ _ turn_step_invoke_agent E2) as Q2;
    [|intros [= <- <-]; eauto using same_turn_trans].
  destruct (consume_events (S n) a s2) as [[[[]|e] s3]|] eqn:E3; [| |done].
  2: { intros [= <- <-]. apply same_turn_consume_events in E3.
       eauto using same_turn_trans. }
  apply same_turn_consume_events in E3.
  unfold reading at 1.
  destruct (active_tasks (task_heap s3) (orchestrator s3)) as [[|t ts]|e];
    try (intros [= <- <-]; eauto 6 using same_turn_trans).
  destruct (agent_unavailable s3) as [[[]|e] s5] eqn:E5;
    apply agent_unavailable_state in E5; subst s5;
    try (intros [= <- <-]; eauto 7 using same_turn_trans).
  intros Hrec%IH. eauto 8 using same_turn_trans.
Qed.


Lemma same_session_refl (s : State X) : same_session s s.
Proof. done. Qed.

Lemma same_session_trans (s1 s2 s3 : State X) :
  same_session s1 s2 → same_session s2 s3 → same_session s1 s3.
Proof. intros [? ?] [? ?]. split; congruence. Qed.

Lemma same_turn_session (s s' : State X) : same_turn s s' → same_session s s'.
Proof. intros [Ho _]. unfold same_session. by rewrite Ho. Qed.

Lemma same_session_run_turn (fuel : nat) (s s' : State X) (r : outcome unit) :
  run_turn fuel s = Some (r, s') → same_session s s'.
Proof.
  unfold run_turn.
  destruct (external begin_turn s) as [[[]|e] s1] eqn:E1;
    pose proof (turn_step_run _ _ _ _ (turn_step_external _) E1) as Q1.
  2: { intros [= <- <-]. by apply same_turn_session. }
  destruct (turn_loop fuel s1) as [[[[]|e] s2]|] eqn:E2; [| |done];
    apply same_turn_turn_loop in E2;
    pose proof (same_turn_session _ _ (same_turn_trans _ _ _ Q1 E2)) as Q2.
  2: { by intros [= <- <-]. }
  unfold bind, reading, set_agent.
  destruct (get_available_agents _ _) as [available|e]; [|by intros [= <- <-]].
  pose proof (external_log
    (get_next_agent (agent (orchestrator s2)) available) s2) as [_ Ho3].
  destruct (external _ s2) as [[next|e] s3]; simpl in *.
  - intros [= <- <-]. destruct Q2 as [? ?]. split; simpl; congruence.
  - intros [= <- <-]. destruct Q2 as [? ?]. split; congruence.
Qed.

Lemma same_session_session_loop (fuel : nat) (s s' : State X)
    (r : outcome unit) :
  session_loop fuel s = Some (r, s') → same_session s s'.
Proof.
  revert s. induction fuel as [|n IH]; intros s; [done|].
  cbn [session_loop]. unfold reading at 1.
  destruct (active_tasks (task_heap s) (orchestrator s)) as [[|t ts]|e];
    try by intros [= <- <-].
  destruct (external should_end_session s) as [[[]|e] s2] eqn:E2;
    pose proof (same_turn_session _ _
      (turn_step_run _ _ _ _ (turn_step_external _) E2)) as Q2;
    try by intros [= <- <-].
  destruct (run_turn (S n) s2) as [[[[]|e] s3]|] eqn:E3; [| |done];
    apply same_session_run_turn in E3.
  - intros Hrec%IH. eauto using same_session_trans.
  - intros [= <- <-]. eauto using same_session_trans.
Qed.

Lemma same_session_handle_event (event : Event) (s : State X) :
  same_session s (handle_event event s).2.
Proof. apply same_turn_session, turn_step_handle_event. Qed.

Lemma same_session_finally_end (r : outcome unit) (s : State X) :
  same_session s (finally_end r s).2.
Proof.
  unfold finally_end.
  pose proof (same_session_handle_event (lifecycle OrchestratorEnd) s) as Q.
  by destruct (handle_event _ s) as [[[]|e] s1].
Qed.

(** X17.  However [run] ends, it leaves the orchestrator with the tasks
    and the handlers it started with: a session changes neither, whatever
    the strategy, the handlers and the agents do. *)
Theorem run_keeps_tasks_and_handlers (fuel : nat) (s s' : State X)
    (r : outcome unit) :
  run fuel s = Some (r, s') →
  tasks (orchestrator s') = tasks (orchestrator s)
  ∧ handlers (orchestrator s') = handlers (orchestrator s).
Proof.
  unfold run.
  pose proof (same_session_handle_event (lifecycle OrchestratorStart) s) as Q1.
  destruct (handle_event _ s) as [[[]|e] s1]; simpl in Q1;
    [|by intros [= <- <-]].
  destruct (session_loop fuel s1) as [[[[]|exc] s2]|] eqn:E2; [| |done];
    apply same_session_session_loop in E2;
    pose proof (same_session_trans _ _ _ Q1 E2) as Q2.
  - intros [= Hr]. pose proof (same_session_finally_end (Ok tt) s2) as Q3.
    rewrite Hr in Q3. by apply (same_session_trans _ _ _ Q2).
  - destruct (is_Exception exc).
    + pose proof (same_session_handle_event
        (lifecycle (OrchestratorError exc)) s2) as Q3.
      destruct (handle_event _ s2) as [[[]|e] s3]; simpl in Q3.
      * intros [= Hr]. pose proof (same_session_finally_end (Raise exc) s3) as Q4.
        rewrite Hr in Q4.
        exact (same_session_trans _ _ _ Q2 (same_session_trans _ _ _ Q3 Q4)).
      * intros [= Hr]. pose proof (same_session_finally_end (Raise e) s3) as Q4.
        rewrite Hr in Q4.
        exact (same_session_trans _ _ _ Q2 (same_session_trans _ _ _ Q3 Q4)).
    + intros [= Hr]. pose proof (same_session_finally_end (Raise exc) s2) as Q3.
      rewrite Hr in Q3. by apply (same_session_trans _ _ _ Q2).
Qed.

(** X18.  The loop of [run_turn] ends normally for one of two reasons
    only: the turn strategy said that the turn should end, or no active
    task is left.  The third exit of the source, taken when the agent is
    not among the available agents, is never taken. *)
Theorem turn_ends_by_strategy_or_idle (fuel : nat) (s s' : State X) :
  turn_loop fuel s = Some (Ok tt, s') →
  (∃ s0, external should_end_turn s0 = (Ok true, s'))
  ∨ active_tasks (task_heap s') (orchestrator s') = Ok [].
Proof.
  revert s. induction fuel as [|n IH]; intros s; [done|]. cbn [turn_loop].
  destruct (external should_end_turn s) as [[[]|e] s1] eqn:E1; [| |done].
  { intros [= <-]. left. by exists s. }
  destruct (invoke_agent s1) as [[a|e] s2]; [|done].
  destruct (consume_events (S n) a s2) as [[[[]|e] s3]|]; [| |done]; [|done].
  unfold reading at 1.
  destruct (active_tasks (task_heap s3) (orchestrator s3))
    as [[|t ts]|e] eqn:E4; [| |done].
  { intros [= <-]. by right. }
  destruct (agent_unavailable s3) as [[[]|e] s5] eqn:E5; [| |done].
  - by apply agent_unavailable_result in E5 as [? ?].
  - apply IH.
Qed.

(** X19.  The loop of [run] ends normally for one of two reasons only: no
    active task is left, or there was one and the turn strategy said that
    the session should end. *)
Theorem session_ends_idle_or_by_strategy (fuel : nat) (s s' : State X) :
  session_loop fuel s = Some (Ok tt, s') →
  active_tasks (task_heap s') (orchestrator s') = Ok []
  ∨ ∃ s0 t ts,
      active_tasks (task_heap s0) (orchestrator s0) = Ok (t :: ts)
      ∧ external should_end_session s0 = (Ok true, s').
Proof.
  revert s. induction fuel as [|n IH]; intros s; [done|]. cbn [session_loop].
  unfold reading at 1.
  destruct (active_tasks (task_heap s) (orchestrator s))
    as [[|t ts]|e] eqn:E1; [| |done].
  { intros [= <-]. by left. }
  destruct (external should_end_session s) as [[[]|e] s2] eqn:E2; [| |done].
  { intros [= <-]. right. by exists s, t, ts. }
  destruct (run_turn (S n) s2) as [[[[]|e] s3]|]; [| |done]; [|done].
  apply IH.
Qed.

(** X20.  When no task is active once the start signal is handled, [run]
    runs no turn: it goes straight to the end signal, and no agent's model
    is invoked in the whole session. *)
Theorem run_without_active_tasks (fuel : nat) (s s1 : State X) :
  handle_event (lifecycle OrchestratorStart) s = (Ok tt, s1) →
  active_tasks (task_heap s1) (orchestrator s1) = Ok [] →
  run (S fuel) s = Some (finally_end (Ok tt) s1)
  ∧ count_invoked (log (finally_end (Ok tt) s1).2) = count_invoked (log s).
Proof.
  intros Hstart Hactive. unfold run. rewrite Hstart. cbn [session_loop].
  unfold reading at 1. rewrite Hactive. split; [done|].
  destruct (handle_event_log (lifecycle OrchestratorStart) s) as (l0 & G0 & D0).
  rewrite Hstart in G0. unfold grows_by in G0. simpl in G0.
  destruct (finally_end_log (Ok tt) s1) as (l & G & D & _).
  unfold grows_by in G. rewrite G, G0.
  change (Emitted ?ev :: ?l) with ([Emitted ev] ++ l).
  rewrite !count_invoked_app.
  rewrite (proj2 (delivery_counts l0 D0)), (proj2 (delivery_counts l D)).
  simpl. lia.
Qed.

End TurnProperties.

(** ** Construction *)

Section ConstructionProperties.
Context `{Runtime}.

Lemma edges_grow_refl (h : heap) : edges_grow h h.
Proof.
  intros x a Ha. exists a. split; [done|]. do 3 (split; [set_solver|]). done.
Qed.

Lemma edges_grow_trans (h1 h2 h3 : heap) :
  edges_grow h1 h2 → edges_grow h2 h3 → edges_grow h1 h3.
Proof.
  intros G1 G2 x a Ha.
  destruct (G1 x a Ha) as (b & Hb & D1 & S1 & W1 & P1).
  destruct (G2 x b Hb) as (c & Hc & D2 & S2 & W2 & P2).
  exists c. split; [done|]. do 3 (split; [set_solver|]).
  intros q Hq. by apply P2, P1.
Qed.

Lemma edges_grow_alter (f : Task → Task) (k : nat) (h : heap) :
  (∀ t, h !! k = Some t →
     depends_on t ⊆ depends_on (f t)
     ∧ _subtasks t ⊆ _subtasks (f t)
     ∧ _downstreams t ⊆ _downstreams (f t)
     ∧ (∀ q, parent t = Some q → parent (f t) = Some q)) →
  edges_grow h (alter f k h).
Proof.
  intros Hf x a Ha. destruct (decide (k = x)) as [->|Hne].
  - exists (f a). rewrite lookup_alter_eq, Ha. split; [done|]. by apply Hf.
  - exists a. rewrite lookup_alter_ne by done. split; [done|].
    do 3 (split; [set_solver|]). done.
Qed.

Ltac grown :=
  intros ? ?; simpl; split; [set_solver|]; split; [set_solver|];
  split; [set_solver|]; try done.

Lemma add_dependency_grows (self task : nat) (h h' : heap) (r : outcome unit) :
  add_dependency self task h = (r, h') → edges_grow h h'.
Proof.
  unfold add_dependency, on_task.
  destruct (h !! self); [|intros [= <- <-]; apply edges_grow_refl].
  destruct (h !! task); [|intros [= <- <-]; apply edges_grow_refl].
  intros [= <- <-].
  eapply edges_grow_trans; apply edges_grow_alter; grown.
Qed.

Lemma add_subtask_grows (self task : nat) (h h' : heap) (r : outcome unit) :
  add_subtask self task h = (r, h') → edges_grow h h'.
Proof.
  unfold add_subtask, on_task.
  destruct (h !! self); [|intros [= <- <-]; apply edges_grow_refl].
  destruct (h !! task) as [c|] eqn:Hc; [|intros [= <- <-]; apply edges_grow_refl].
  destruct (parent c) as [q|] eqn:Hq.
  - destruct (decide (q = self)); intros [= <- <-]; [|apply edges_grow_refl].
    apply edges_grow_alter. grown.
  - intros [= <- <-]. eapply edges_grow_trans; apply edges_grow_alter.
    + grown. intros q Hq'. congruence.
    + grown.
Qed.

Lemma and_then_raise_foldl (k : nat → heap → outcome unit * heap) (e : exn)
    (h : heap) (l : list nat) :
  foldl (λ m task, and_then m (k task)) (Raise e, h) l = (Raise e, h).
Proof. by induction l. Qed.

Lemma add_dependencies_cons (self d : nat) (l : list nat) (h : heap) :
  add_dependencies self (d :: l) h =
    match add_dependency self d h with
    | (Ok _, h1) => add_dependencies self l h1
    | (Raise e, h1) => (Raise e, h1)
    end.
Proof.
  unfold add_dependencies. simpl.
  destruct (add_dependency self d h) as [[[]|e] h1]; [done|].
  apply and_then_raise_foldl.
Qed.

Lemma add_dependencies_grows (self : nat) (l : list nat) (h h' : heap)
    (r : outcome unit) :
  add_dependencies self l h = (r, h') → edges_grow h h'.
Proof.
  revert h. induction l as [|d l IH]; intros h.
  - intros [= <- <-]. apply edges_grow_refl.
  - rewrite add_dependencies_cons.
    destruct (add_dependency self d h) as [[[]|e] h1] eqn:E1.
    + intros Hrest%IH. eapply edges_grow_trans; [|done].
      by eapply add_dependency_grows.
    + intros [= <- <-]. by eapply add_dependency_grows.
Qed.

Lemma wired_grows (h h' : heap) (self d : nat) :
  edges_grow h h' → wired h self d → wired h' self d.
Proof.
  intros G [(a & Ha & Hd) (b & Hb & Hs)].
  destruct (G self a Ha) as (a' & Ha' & D & _).
  destruct (G d b Hb) as (b' & Hb' & _ & _ & W & _).
  split; [exists a'|exists b']; (split; [done|set_solver]).
Qed.

Lemma add_dependency_wires (self d : nat) (h h' : heap) :
  add_dependency self d h = (Ok tt, h') → wired h' self d.
Proof.
  unfold add_dependency, on_task.
  destruct (h !! self) as [a|] eqn:Ha; [|done].
  destruct (h !! d) as [b|] eqn:Hb; [|done].
  intros [= <-]. split.
  - destruct (decide (d = self)) as [->|Hne].
    + rewrite !lookup_alter_eq, Ha. simpl. eexists. split; [done|].
      simpl. set_solver.
    + rewrite lookup_alter_ne, lookup_alter_eq, Ha by done. simpl.
      eexists. split; [done|]. simpl. set_solver.
  - rewrite lookup_alter_eq. destruct (decide (self = d)) as [->|Hne].
    + rewrite lookup_alter_eq, Ha. simpl. eexists. split; [done|].
      simpl. set_solver.
    + rewrite lookup_alter_ne, Hb by done. simpl.
      eexists. split; [done|]. simpl. set_solver.
Qed.

Lemma add_dependencies_wires (self : nat) (l : list nat) (h h' : heap) :
  add_dependencies self l h = (Ok tt, h') → ∀ d, d ∈ l → wired h' self d.
Proof.
  revert h. induction l as [|d0 l IH]; intros h.
  - by intros _ d ?%elem_of_nil.
  - rewrite add_dependencies_cons.
    destruct (add_dependency self d0 h) as [[[]|e] h1] eqn:E1; [|done].
    intros Hrest d [->|Hd]%elem_of_cons.
    + eapply wired_grows; [by eapply add_dependencies_grows|].
      by eapply add_dependency_wires.
    + by eapply IH.
Qed.

(** X21.  A construction that does not raise puts the new task at an
    address that was free; it removes no edge and no parent of an older
    task; every task given in [depends_on] or as a value of [context] is
    afterwards a dependency of the new task and has it among its
    downstreams; a given parent is the new task's parent, and has it among
    its subtasks and its dependencies; and an id that was given is kept. *)
Theorem Task_init_wires (fields : Task) (h h' : heap) (r : nat) :
  Task_init fields h = (Ok r, h') →
  h !! r = None
  ∧ edges_grow h h'
  ∧ ∃ t, h' !! r = Some t
      ∧ (∀ d, d ∈ depends_on fields ∨ d ∈ context_tasks (context fields) →
           wired h' r d)
      ∧ (∀ p, parent fields = Some p →
           parent t = Some p
           ∧ ∃ pt, h' !! p = Some pt ∧ r ∈ _subtasks pt ∧ r ∈ depends_on pt)
      ∧ (∀ i, id fields = Some i → id t = Some i).
Proof.
  unfold Task_init.
  set (self := fresh (dom h)).
  assert (Hfresh : h !! self = None).
  { apply not_elem_of_dom. apply is_fresh. }
  destruct (add_dependencies self (elements (depends_on fields))
              (<[self:=fields]> h)) as [[[]|e1] h1] eqn:E1; simpl; [|done].
  set (step2 := match parent fields with
                | Some p => add_subtask p self h1
                | None => (Ok tt, h1)
                end).
  assert (G2 : edges_grow h1 step2.2).
  { subst step2. destruct (parent fields) as [p|]; [|apply edges_grow_refl].
    destruct (add_subtask p self h1) as [r2 h2] eqn:E2.
    by eapply add_subtask_grows. }
  assert (D2 : ∀ x, described <$> step2.2 !! x = described <$> h1 !! x).
  { intros x. subst step2. destruct (parent fields) as [p|]; [|done].
    destruct (add_subtask p self h1) as [r2 h2] eqn:E2.
    by eapply add_subtask_described. }
  assert (P2 : ∀ p, parent fields = Some p → step2 = add_subtask p self h1).
  { intros p Hp. subst step2. by rewrite Hp. }
  destruct step2 as [[[]|e2] h2]; simpl in *; [|done].
  destruct (add_dependencies self (context_tasks (context fields)) h2)
    as [[[]|e3] h3] eqn:E3; simpl; [|done].
  intros [= <- <-].
  set (idf := λ t : Task, match id t with
                          | Some _ => t
                          | None => with_id (Some (_generate_id h3 t)) t
                          end).
  assert (G0 : edges_grow h (<[self:=fields]> h)).
  { intros x a Ha. exists a. rewrite lookup_insert_ne by congruence.
    split; [done|]. do 3 (split; [set_solver|]). done. }
  assert (G1 : edges_grow (<[self:=fields]> h) h1)
    by (by eapply add_dependencies_grows).
  assert (G3 : edges_grow h2 h3) by (by eapply add_dependencies_grows).
  assert (G4 : edges_grow h3 (alter idf self h3)).
  { apply edges_grow_alter. intros t _. subst idf. simpl.
    destruct (id t); simpl; (do 3 (split; [set_solver|])); done. }
  assert (G13 : edges_grow (<[self:=fields]> h) h3)
    by eauto using edges_grow_trans.
  split; [done|]. split; [eauto using edges_grow_trans|].
  destruct (G13 self fields) as (t3 & Ht3 & D3 & S3 & W3 & P3);
    [by rewrite lookup_insert_eq|].
  exists (idf t3). split; [by rewrite lookup_alter_eq, Ht3|].
  split; [|split].
  - intros d [Hd|Hd].
    + apply (wired_grows h1); [eauto using edges_grow_trans|].
      eapply add_dependencies_wires; [exact E1|]. by apply elem_of_elements.
    + apply (wired_grows h3); [done|].
      by eapply add_dependencies_wires.
  - intros p Hp. split.
    + subst idf. simpl. destruct (id t3); simpl; by apply P3.
    + symmetry in P2. specialize (P2 p Hp).
      apply add_subtask_ok_inv in P2 as (pt & ct & Hpt & Hct & ->).
      destruct (adopted_parent h1 p self pt ct Hpt Hct)
        as (pt' & Hpt' & Hsub & Hdep & _).
      destruct (G3 p pt' Hpt') as (pt3 & Hpt3 & Dp & Sp & _).
      destruct (G4 p pt3 Hpt3) as (pt4 & Hpt4 & Dp4 & Sp4 & _).
      exists pt4. split; [done|]. rewrite Hsub in Sp. rewrite Hdep in Dp.
      set_solver.
  - intros i Hi.
    assert (Hd : described <$> h3 !! self = Some (described fields)).
    { rewrite (add_dependencies_described _ _ _ _ _ self E3), D2.
      rewrite (add_dependencies_described _ _ _ _ _ self E1).
      by rewrite lookup_insert_eq. }
    rewrite Ht3 in Hd. simpl in Hd.
    assert (Hid : id t3 = Some i) by (unfold described in Hd; congruence).
    subst idf. simpl. by rewrite Hid.
Qed.

(** ** Agents and subtasks *)

Lemma get_agents_rec_mono (d : nat) (h : heap) (t : Task) (l : list Agent) :
  get_agents_rec d h t = Ok l → get_agents_rec (S d) h t = Ok l.
Proof.
  revert t. induction d as [|d IH]; intros t.
  - simpl. destruct (agents t); [done|]. by destruct (parent t).
  - intros Hd. cbn [get_agents_rec] in *.
    destruct (agents t); [done|]. destruct (parent t) as [p|]; [|done].
    destruct (h !! p) as [pt|]; [|done]. by apply IH.
Qed.

(** X22.  A task without agents of its own gets the agents of its parent:
    whenever [get_agents] returns for it, it returns for the parent too,
    and the same list. *)
Theorem agents_inherited (h : heap) (t pt : Task) (p : nat) (l : list Agent) :
  agents t = None →
  parent t = Some p →
  h !! p = Some pt →
  get_agents h t = Ok l →
  get_agents h pt = Ok l.
Proof.
  intros Ha Hp Hpt. unfold get_agents.
  generalize recursion_limit as depth. intros [|d]; simpl; rewrite Ha, Hp;
    [done|]. rewrite Hpt. apply get_agents_rec_mono.
Qed.

(** X23.  The property [subtasks] lists every subtask of the task, each
    once, and in the order of creation: no task of the list was created
    after one that follows it. *)
Theorem subtasks_sorted (h : heap) (t : Task) :
  Sorted (created_le h) (subtasks h t)
  ∧ NoDup (subtasks h t)
  ∧ ∀ s, s ∈ subtasks h t ↔ s ∈ _subtasks t.
Proof.
  unfold subtasks. split; [|split].
  - assert (Total (created_le h)) by (intros x y; unfold created_le; lia).
    apply (Sorted_merge_sort (created_le h)).
  - rewrite merge_sort_Permutation. apply NoDup_elements.
  - intros s. rewrite merge_sort_Permutation. apply elem_of_elements.
Qed.

(** ** The completion tools *)


(** X25.  A result type that pydantic has no schema for gets no success
    tool: [create_success_tool] raises [ValueError].  Yet the same task
    can be marked successful directly, and then the result is what calling
    the type on the raw result returns. *)
Theorem schemaless_type_has_no_success_tool (h : heap) (self : nat) (t : Task)
    (ty : PyType) (raw v : pyval) :
  h !! self = Some t →
  result_type t = RT_Type ty →
  TypeAdapter ty = None →
  result_validator t = None →
  call_type ty raw = Ok v →
  (∃ msg, create_success_tool self h = Raise (ValueError msg))
  ∧ ∃ h', mark_successful self raw false h = (Ok tt, h')
          ∧ outcome_of <$> h' !! self = Some (SUCCESSFUL, v).
Proof.
  intros Ht Hrt Hno Hval Hcall. split.
  - unfold create_success_tool. rewrite Ht, Hrt, Hno. by eexists.
  - rewrite (mark_successful_unfold h self t raw false Ht). simpl.
    unfold validate_result. rewrite Hrt, Hno, Hcall, Hval.
    eexists. split; [done|]. unfold set_status.
    by rewrite !lookup_alter_eq, Ht.
Qed.

(** ** All tasks of an orchestrator *)

Lemma collect_roots_well (h : heap) (roots : list nat)
    (acc : list nat * list nat) :
  collect_roots h roots = Ok acc → well_collected h roots acc.
Proof.
  intros Hc. unfold collect_roots in Hc.
  destruct (collects_fold recursion_limit h roots
              (collects_all h roots recursion_limit)
              roots ([], []) acc Hc)
    as (more & Hm & Hwell & _).
  - split; [apply NoDup_nil_2|]. split; [by intros r ?%elem_of_nil|done].
  - intros s Hs. by apply reaches_root.
  - done.
Qed.

Lemma ancestors_spec (fuel : nat) (h : heap) (current : option nat)
    (acc acc' : list nat) :
  ancestors fuel h current acc = Some (Ok acc') →
  ∃ more, acc' = acc ++ more
    ∧ (∀ a, a ∈ more → on_chain h current a)
    ∧ (NoDup acc → NoDup acc')
    ∧ (∀ a, on_chain h current a → task_in h a acc' = true).
Proof.
  assert (Hnone : ∃ more : list nat, acc = acc ++ more
            ∧ (∀ a, a ∈ more → on_chain h None a)
            ∧ (NoDup acc → NoDup acc)
            ∧ (∀ a, on_chain h None a → task_in h a acc = true)).
  { exists []. rewrite app_nil_r. split; [done|].
    split; [by intros a ?%elem_of_nil|]. split; [done|].
    intros a Ha. inversion Ha. }
  clear Hnone.
  revert current acc. induction fuel as [|n IH]; intros current acc;
    destruct current as [c|]; simpl; try done.
  - intros [= <-]. exists []. rewrite app_nil_r. split; [done|].
    split; [by intros a ?%elem_of_nil|]. split; [done|].
    intros a Ha. inversion Ha.
  - destruct (h !! c) as [t|] eqn:Hc; [|done]. intros Hrec.
    destruct (IH _ _ Hrec) as (more & Hacc & Hchain & Hnd & Hall).
    destruct (task_in h c acc) eqn:Hin.
    + exists more. split; [done|].
      split; [intros a Ha; eapply on_chain_up; eauto|]. split; [done|].
      intros a Ha. inversion Ha as [|c' t' a' Hc' Hup]; subst.
      * by apply task_in_app.
      * apply Hall. assert (t' = t) as -> by congruence. done.
    + exists ([c] ++ more). split; [by rewrite Hacc, <- app_assoc|]. split.
      * intros a [->%list_elem_of_singleton|Ha]%elem_of_app; [constructor|].
        eapply on_chain_up; eauto.
      * split.
        -- intros Hnd0. apply Hnd. apply NoDup_app. split; [done|].
           split; [|apply NoDup_singleton].
           intros x Hx ->%list_elem_of_singleton.
           by apply (task_in_false h c acc).
        -- intros a Ha. inversion Ha as [|c' t' a' Hc' Hup]; subst.
           ++ apply task_in_app, task_in_member. set_solver.
           ++ apply Hall. assert (t' = t) as -> by congruence. done.
  - intros [= <-]. exists []. rewrite app_nil_r. split; [done|].
    split; [by intros a ?%elem_of_nil|]. split; [done|].
    intros a Ha. inversion Ha.
Qed.

Lemma all_ancestors_spec (fuel : nat) (h : heap) (roots : list nat)
    (acc acc' : list nat) :
  all_ancestors fuel h roots acc = Some (Ok acc') →
  ∃ more, acc' = acc ++ more
    ∧ (∀ a, a ∈ more →
         ∃ r t, r ∈ roots ∧ h !! r = Some t ∧ on_chain h (parent t) a)
    ∧ (NoDup acc → NoDup acc')
    ∧ (∀ r t a, r ∈ roots → h !! r = Some t → on_chain h (parent t) a →
         task_in h a acc' = true).
Proof.
  revert acc. induction roots as [|x roots IH]; intros acc; simpl.
  - intros [= <-]. exists []. rewrite app_nil_r. split; [done|].
    split; [by intros a ?%elem_of_nil|]. split; [done|].
    by intros r t a ?%elem_of_nil.
  - destruct (h !! x) as [tx|] eqn:Hx; [|done].
    destruct (ancestors fuel h (parent tx) acc) as [[acc1|e]|] eqn:E1;
      [|done|done].
    intros Hrest.
    destruct (ancestors_spec _ _ _ _ _ E1) as (m1 & Hm1 & Hc1 & Hn1 & Ha1).
    destruct (IH _ Hrest) as (m2 & Hm2 & Hc2 & Hn2 & Ha2).
    exists (m1 ++ m2). split; [by rewrite Hm2, Hm1, <- app_assoc|]. split.
    + intros a [Ha|Ha]%elem_of_app.
      * exists x, tx. split; [by left|]. split; [done|]. by apply Hc1.
      * destruct (Hc2 a Ha) as (r & t & Hr & Ht & Hon).
        exists r, t. split; [by right|done].
    + split; [by intros ?; apply Hn2, Hn1|].
      intros r t a [->|Hr]%elem_of_cons Ht Hon.
      * assert (t = tx) as -> by congruence.
        rewrite Hm2. by apply task_in_app, Ha1.
      * by eapply Ha2.
Qed.

(** X26.  Whenever [get_tasks("all")] returns, it returns the collected
    tasks (the roots and what they reach through subtasks) followed by
    ancestors of the roots and nothing else; no task is listed twice; and
    every ancestor of a root, however far up, is listed (up to the
    equality of tasks). *)
Theorem get_tasks_all (fuel : nat) (h : heap) (o : Orchestrator)
    (l : list nat) :
  get_tasks fuel "all" h o = Some (Ok l) →
  ∃ all_tasks active more,
    collect_roots h (tasks o) = Ok (all_tasks, active)
    ∧ l = all_tasks ++ more
    ∧ NoDup l
    ∧ (∀ a, a ∈ more →
         ∃ r t, r ∈ tasks o ∧ h !! r = Some t ∧ on_chain h (parent t) a)
    ∧ (∀ r t a, r ∈ tasks o → h !! r = Some t → on_chain h (parent t) a →
         task_in h a l = true).
Proof.
  assert (Hall : get_tasks fuel "all" h o =
            match collect_roots h (tasks o) with
            | Raise e => Some (Raise e)
            | Ok acc => all_ancestors fuel h (tasks o) acc.1
            end) by reflexivity.
  rewrite Hall.
  destruct (collect_roots h (tasks o)) as [[all_tasks active]|e] eqn:Hc;
    [|done]. simpl.
  intros (more & Hm & Hchain & Hnd & Hup)%all_ancestors_spec.
  exists all_tasks, active, more. split; [done|]. split; [done|].
  split; [|done]. apply Hnd.
  by destruct (collect_roots_well _ _ _ Hc) as [? _].
Qed.

End ConstructionProperties.

(** * The further properties on the sample inputs *)

(** Task 1 made to depend on task 2, twice. *)
Lemma add_dependency_edges_witness :
  ∃ h', add_dependency 1 2 two_tasks = (Ok tt, h')
        ∧ add_dependency 1 2 h' = (Ok tt, h').
Proof.
  destruct (add_dependency_edges two_tasks 1 2 _ _ eq_refl eq_refl)
    as (h' & Hfirst & _ & _ & _ & Hagain).
  by exists h'.
Defined.

(** Task 2 of the family, a subtask of task 1, is refused by task 3. *)
Lemma adopted_child_keeps_parent_witness :
  ∃ msg, add_subtask 3 2 adopted = (Raise (ValueError msg), adopted).
Proof.
  assert (E : add_subtask 1 2 family = (Ok tt, adopted))
    by (vm_compute; reflexivity).
  destruct (adopted_child_keeps_parent family adopted 1 2 E) as [_ Hother].
  apply Hother; [lia|]. vm_compute. by eexists.
Defined.

(** The parent of the family cannot succeed while task 2 is pending. *)
Lemma incomplete_subtask_blocks_parent_witness :
  ∃ msg, @mark_successful sample_runtime 1 (PyStr "done") true adopted
         = (Raise (ValueError msg), adopted).
Proof.
  assert (E : add_subtask 1 2 family = (Ok tt, adopted))
    by (vm_compute; reflexivity).
  destruct (@incomplete_subtask_blocks_parent sample_runtime family adopted
              1 2 (with_parent (Some 1%nat) (fresh_task "left")) E
              eq_refl eq_refl) as (pt' & _ & _ & _ & Hmark).
  exact (Hmark (PyStr "done")).
Defined.

(** A new dependency between the two sample tasks changes no status and
    no result. *)
Lemma wiring_keeps_outcomes_witness :
  outcome_of <$> rewired !! 1%nat = outcome_of <$> two_tasks !! 1%nat
  ∧ outcome_of <$> rewired !! 2%nat = outcome_of <$> two_tasks !! 2%nat.
Proof.
  assert (E : add_dependency 1 2 two_tasks = (Ok tt, rewired))
    by (vm_compute; reflexivity).
  destruct (wiring_keeps_outcomes two_tasks rewired 1 2 (Ok tt) (or_intror E))
    as (Hout & _).
  split; apply Hout.
Defined.

(** Skipping task 1 leaves the edges between the two sample tasks. *)
Lemma status_transitions_keep_graph_witness :
  edges <$> skipped_first !! 1%nat = edges <$> two_tasks !! 1%nat
  ∧ edges <$> skipped_first !! 2%nat = edges <$> two_tasks !! 2%nat.
Proof.
  assert (E : mark_skipped 1 two_tasks = (Ok tt, skipped_first))
    by (vm_compute; reflexivity).
  destruct (@status_transitions_keep_graph sample_runtime two_tasks
              skipped_first 1 (Ok tt) (or_intror (or_intror (or_introl E))))
    as (Hedges & _).
  split; apply Hedges.
Defined.

(** Task 2 is ready once task 1 has failed. *)
Lemma terminal_dependency_unblocks_witness :
  ∃ T, failed_first !! 2%nat = Some T ∧ is_ready failed_first T = true.
Proof.
  assert (E : mark_failed 1 None two_tasks = (Ok tt, failed_first))
    by (vm_compute; reflexivity).
  eexists.
  apply (@terminal_dependency_unblocks sample_runtime two_tasks failed_first
           2 1 _ eq_refl).
  - lia.
  - reflexivity.
  - simpl. set_solver.
  - intros u Hu Hne. simpl in Hu. apply elem_of_singleton in Hu. congruence.
  - left. by exists None.
Defined.

(** Task 2 marked successful over its pending dependency. *)
Lemma upstream_check_can_be_skipped_witness :
  ∃ h', @mark_successful sample_runtime 2 (PyStr "ok") false two_tasks
        = (Ok tt, h')
        ∧ status <$> h' !! 2%nat = Some SUCCESSFUL
        ∧ status <$> h' !! 1%nat = Some PENDING.
Proof.
  destruct (@upstream_check_can_be_skipped sample_runtime two_tasks 2 1 _
              (with_downstreams {[2%nat]} (fresh_task "first"))
              (PyStr "ok") (PyStr "ok") eq_refl)
    as [_ (h' & Hok & Hst & _ & Hdep)];
    [simpl; set_solver|lia|reflexivity|reflexivity|reflexivity|].
  exists h'. split; [exact Hok|]. split; [exact Hst|]. by rewrite Hdep.
Defined.


(** The child of the staffed parent. *)
Lemma get_agents_never_empty_witness :
  ∃ l, @get_agents sample_runtime staffed
         (with_parent (Some 1%nat) (fresh_task "child")) = Ok l
       ∧ l ≠ [].
Proof.
  exists ["Ada"; "Bob"]. split; [vm_compute; reflexivity|].
  apply (@get_agents_never_empty sample_runtime staffed
           (with_parent (Some 1%nat) (fresh_task "child"))).
  - intros r u Hr. unfold staffed in Hr.
    apply lookup_insert_Some in Hr as [[<- <-]|[_ Hr]]; [by eexists|].
    apply lookup_singleton_Some in Hr as [<- <-]. by eexists.
  - by eexists.
  - vm_compute. reflexivity.
Defined.

(** The family collected from its parent: the children are active, the
    parent is not. *)
Lemma get_tasks_collects_witness :
  @active_tasks sample_runtime family (orchestrator sample_state)
  = Ok [2%nat; 3%nat]
  ∧ NoDup [1%nat; 2%nat; 3%nat].
Proof.
  assert (E : @collect_roots sample_runtime family
                (tasks (orchestrator sample_state))
              = Ok ([1%nat; 2%nat; 3%nat], [2%nat; 3%nat]))
    by (vm_compute; reflexivity).
  destruct (@get_tasks_collects sample_runtime family (orchestrator sample_state)
              _ _ E) as (Hactive & Hnd & _).
  by split.
Defined.

(** The child of the staffed parent is assigned to Ada. *)
Lemma assigned_tasks_spec_witness :
  ∃ active, @active_tasks sample_runtime staffed ada = Ok active
            ∧ sublist [2%nat] active.
Proof.
  assert (E : @assigned_tasks sample_runtime staffed ada = Ok [2%nat])
    by (vm_compute; reflexivity).
  destruct (@assigned_tasks_spec sample_runtime staffed ada _ E)
    as (active & Hactive & Hsub & _).
  by exists active.
Defined.

(** Ada and Bob are available, each once. *)
Lemma available_agents_exact_witness :
  NoDup ["Ada"; "Bob"].
Proof.
  assert (E : @get_available_agents sample_runtime staffed ada
              = Ok ["Ada"; "Bob"]) by (vm_compute; reflexivity).
  destruct (@available_agents_exact sample_runtime staffed ada _ E)
    as [Hnd _].
  exact Hnd.
Defined.

(** The second of two handlers refuses the event: it is not persisted. *)
Lemma handle_event_aborts_witness :
  log (@handle_event nat picky (mkEvent (AgentEvent 7) true) sample_state).2
  = [ Emitted (mkEvent (AgentEvent 7) true);
      Handled 0 (mkEvent (AgentEvent 7) true);
      Handled 1 (mkEvent (AgentEvent 7) true) ].
Proof.
  destruct (@handle_event_aborts nat picky (mkEvent (AgentEvent 7) true)
              sample_state [0%nat] [] 1%nat (ExternalError 2) eq_refl)
    as [_ Hlog].
  - intros h' w ->%list_elem_of_singleton. reflexivity.
  - intros w. reflexivity.
  - exact Hlog.
Defined.

(** A session whose start signal is refused. *)
Lemma run_start_failure_witness :
  @run sample_runtime nat picky 3 sample_state
  = Some (Raise (ExternalError 2), refused_start)
  ∧ count_emitted OrchestratorEnd (log refused_start) = 0%nat.
Proof.
  assert (E : @handle_event nat picky (@lifecycle nat picky OrchestratorStart)
                sample_state
              = (Raise (ExternalError 2), refused_start))
    by (vm_compute; reflexivity).
  destruct (@run_start_failure sample_runtime nat picky 3 sample_state
              refused_start (ExternalError 2) E) as (Hrun & _ & Hend & _).
  split; [exact Hrun|]. by rewrite Hend.
Defined.

(** A session interrupted from the keyboard. *)
Lemma run_base_exception_witness :
  ∃ s3, @run sample_runtime nat interrupted 3 sample_state
        = Some (Raise KeyboardInterrupt, s3)
        ∧ count_emitted (OrchestratorError KeyboardInterrupt) (log s3) = 0%nat.
Proof.
  assert (Hstart : @handle_event nat interrupted
            (@lifecycle nat interrupted OrchestratorStart) sample_state
          = (Ok tt, interrupted_started)) by (vm_compute; reflexivity).
  assert (Hloop : @session_loop sample_runtime nat interrupted 3
            interrupted_started
          = Some (Raise KeyboardInterrupt, interrupted_stopped))
    by (vm_compute; reflexivity).
  destruct (@run_base_exception sample_runtime nat interrupted 3
              sample_state _ _ _ Hstart Hloop eq_refl)
    as (r & s3 & l & Hrun & _ & _ & Herr & _ & Hexc).
  exists s3. split.
  - rewrite Hrun, Hexc; [reflexivity|]. vm_compute. reflexivity.
  - by rewrite Herr.
Defined.


(** The sample session. *)
Lemma run_keeps_tasks_and_handlers_witness :
  ∃ r s', @run sample_runtime nat (scripted false) 3 sample_state
          = Some (r, s')
          ∧ tasks (orchestrator s') = [1%nat]
          ∧ handlers (orchestrator s') = [0%nat; 1%nat].
Proof.
  destruct (@run sample_runtime nat (scripted false) 3 sample_state)
    as [[r s']|] eqn:E; [|vm_compute in E; discriminate].
  exists r, s'. split; [reflexivity|].
  exact (@run_keeps_tasks_and_handlers sample_runtime nat (scripted false)
           3 sample_state s' r E).
Defined.

(** The turn of the sample session ends because its task is done. *)
Lemma turn_ends_by_strategy_or_idle_witness :
  ∃ s', @turn_loop sample_runtime nat (scripted false) 3 sample_state
        = Some (Ok tt, s')
        ∧ @active_tasks sample_runtime (task_heap s') (orchestrator s') = Ok [].
Proof.
  destruct (@turn_loop sample_runtime nat (scripted false) 3 sample_state)
    as [[[[]|e] s']|] eqn:E; [|vm_compute in E; discriminate..].
  exists s'. split; [reflexivity|].
  destruct (@turn_ends_by_strategy_or_idle sample_runtime nat (scripted false)
              3 sample_state s' E) as [[s0 Hs0]|Hidle]; [|exact Hidle].
  unfold external in Hs0. simpl in Hs0. discriminate.
Defined.

(** So does the session. *)
Lemma session_ends_idle_or_by_strategy_witness :
  ∃ s', @session_loop sample_runtime nat (scripted false) 3 sample_state
        = Some (Ok tt, s')
        ∧ @active_tasks sample_runtime (task_heap s') (orchestrator s') = Ok [].
Proof.
  destruct (@session_loop sample_runtime nat (scripted false) 3 sample_state)
    as [[[[]|e] s']|] eqn:E; [|vm_compute in E; discriminate..].
  exists s'. split; [reflexivity|].
  destruct (@session_ends_idle_or_by_strategy sample_runtime nat
              (scripted false) 3 sample_state s' E)
    as [Hidle|(s0 & t & ts & _ & Hs0)]; [exact Hidle|].
  unfold external in Hs0. simpl in Hs0. discriminate.
Defined.

(** A session on a task that is done already. *)
Lemma run_without_active_tasks_witness :
  @run sample_runtime nat stalling 1 finished_state
  = Some (@finally_end nat stalling (Ok tt) finished_started)
  ∧ count_invoked (log (@finally_end nat stalling (Ok tt) finished_started).2)
    = 0%nat.
Proof.
  assert (Hstart : @handle_event nat stalling
            (@lifecycle nat stalling OrchestratorStart) finished_state
          = (Ok tt, finished_started)) by (vm_compute; reflexivity).
  assert (Hactive : @active_tasks sample_runtime (task_heap finished_started)
            (orchestrator finished_started) = Ok [])
    by (vm_compute; reflexivity).
  exact (@run_without_active_tasks sample_runtime nat stalling 0
           finished_state finished_started Hstart Hactive).
Defined.

(** The report on task 1, constructed at address 3. *)
Lemma Task_init_wires_witness :
  wired first_report.2 3 1.
Proof.
  assert (E : @Task_init sample_runtime report two_tasks
              = (Ok 3%nat, first_report.2)) by (vm_compute; reflexivity).
  destruct (@Task_init_wires sample_runtime report two_tasks first_report.2
              3 E) as (_ & _ & t & _ & Hw & _).
  apply Hw. right. apply list_elem_of_singleton. reflexivity.
Defined.

(** The child of the staffed parent gets the parent's agents. *)
Lemma agents_inherited_witness :
  ∃ pt, staffed !! 1%nat = Some pt
        ∧ @get_agents sample_runtime staffed pt = Ok ["Ada"; "Bob"].
Proof.
  eexists. split; [reflexivity|].
  apply (@agents_inherited sample_runtime staffed
           (with_parent (Some 1%nat) (fresh_task "child")) _ 1);
    [reflexivity|reflexivity|reflexivity|vm_compute; reflexivity].
Defined.


(** A task whose result type is a class of the user's. *)
Lemma schemaless_type_has_no_success_tool_witness :
  (∃ msg, @create_success_tool sample_runtime 1 schemaless
          = Raise (ValueError msg))
  ∧ ∃ h', @mark_successful sample_runtime 1 (PyInt 7) false schemaless
          = (Ok tt, h')
          ∧ outcome_of <$> h' !! 1%nat = Some (SUCCESSFUL, PyInt 7).
Proof.
  apply (@schemaless_type_has_no_success_tool sample_runtime schemaless 1 _
           "Custom" (PyInt 7) (PyInt 7) eq_refl);
    reflexivity.
Defined.

(** All tasks of an orchestrator for the left child: the child, then its
    parent. *)
Lemma get_tasks_all_witness :
  ∃ all_tasks active more,
    @collect_roots sample_runtime family (tasks left_child)
    = Ok (all_tasks, active)
    ∧ [2%nat; 1%nat] = all_tasks ++ more
    ∧ NoDup [2%nat; 1%nat].
Proof.
  assert (E : @get_tasks sample_runtime 3 "all" family left_child
              = Some (Ok [2%nat; 1%nat])) by (vm_compute; reflexivity).
  destruct (@get_tasks_all sample_runtime 3 family left_child _ E)
    as (all_tasks & active & more & Hc & Hl & Hnd & _).
  by exists all_tasks, active, more.
Defined.

(** * Further properties, continued *)

(** ** The signals of a session *)

Section SignalProperties.
Context `{Runtime} {X : Type} `{Collaborators X}.

(** X27.  However [run] ends, the start signal is the first thing it
    emits and is emitted once; what follows holds at most one end signal
    and at most one error signal in all. *)
Theorem run_start_once (fuel : nat) (s s' : State X) (r : outcome unit) :
  run fuel s = Some (r, s') →
  ∃ l, log s' = log s ++ Emitted (lifecycle OrchestratorStart) :: l
       ∧ count_emitted OrchestratorStart l = 0%nat
       ∧ (count_emitted OrchestratorEnd l ≤ 1)%nat
       ∧ (∀ e, count_emitted (OrchestratorError e) l ≤ 1)%nat
       ∧ (∀ e1 e2, e1 ≠ e2 →
            count_emitted (OrchestratorError e1) l
            + count_emitted (OrchestratorError e2) l ≤ 1)%nat.
Proof.
  unfold run.
  destruct (handle_event_log (lifecycle OrchestratorStart) s) as (l0 & G0 & D0).
  pose proof (delivery_counts l0 D0) as [C0 _].
  destruct (handle_event (lifecycle OrchestratorStart) s) as [[[]|e] s1];
    unfold grows_by in G0; simpl in G0.
  2: { intros [= <- <-]. exists l0. split; [done|].
       rewrite !C0. split; [done|]. split; [lia|].
       split; [intros; rewrite C0; lia|]. intros e1 e2 _. rewrite !C0. lia. }
  destruct (session_loop fuel s1) as [[[[]|exc] s2]|] eqn:E2; [| |done];
    destruct (quiet_session_loop _ _ _ _ E2) as (lq & Gq & Qq);
    unfold grows_by in Gq.
  - destruct (finally_end_log (Ok tt) s2) as (l & G & D & _).
    pose proof (delivery_counts l D) as [C _]. unfold grows_by in G.
    intros [= Hr]. rewrite Hr in G. simpl in G.
    exists (l0 ++ lq ++ Emitted (lifecycle OrchestratorEnd) :: l).
    split; [by rewrite G, Gq, G0, <- !app_assoc|].
    assert (Hcount : ∀ k, is_lifecycle k = true →
              count_emitted k (l0 ++ lq ++ Emitted (lifecycle OrchestratorEnd) :: l)
              = if bool_decide (OrchestratorEnd = k) then 1%nat else 0%nat).
    { intros k Hk. rewrite !count_emitted_app, count_emitted_cons, C0, C.
      rewrite (Qq k Hk). simpl. destruct (bool_decide _); lia. }
    split; [by rewrite Hcount|]. split; [by rewrite Hcount|].
    split; [intros e; rewrite Hcount by done; case_bool_decide; lia|].
    intros e1 e2 _. rewrite !Hcount by done.
    repeat case_bool_decide; simplify_eq; lia.
  - assert (Hend : ∀ (rr : outcome unit) (s3 : State X) (l1 : list Obs)
              (errs : list Obs),
              log s3 = log s2 ++ errs →
              (∀ k, is_lifecycle k = true →
                 count_emitted k errs
                 = match errs with
                   | [] => 0%nat
                   | _ => if bool_decide (OrchestratorError exc = k)
                          then 1%nat else 0%nat
                   end) →
              Some (finally_end rr s3) = Some (r, s') →
              ∃ l, log s' = log s ++ Emitted (lifecycle OrchestratorStart) :: l
                   ∧ count_emitted OrchestratorStart l = 0%nat
                   ∧ (count_emitted OrchestratorEnd l ≤ 1)%nat
                   ∧ (∀ e, count_emitted (OrchestratorError e) l ≤ 1)%nat
                   ∧ (∀ e1 e2, e1 ≠ e2 →
                        count_emitted (OrchestratorError e1) l
                        + count_emitted (OrchestratorError e2) l ≤ 1)%nat).
    { intros rr s3 _ errs G3 C3 [= Hr].
      destruct (finally_end_log rr s3) as (l & G & D & _).
      pose proof (delivery_counts l D) as [C _]. unfold grows_by in G.
      rewrite Hr in G. simpl in G.
      exists (l0 ++ lq ++ errs ++ Emitted (lifecycle OrchestratorEnd) :: l).
      split; [by rewrite G, G3, Gq, G0, <- !app_assoc|].
      assert (Hcount : ∀ k, is_lifecycle k = true →
                count_emitted k
                  (l0 ++ lq ++ errs ++ Emitted (lifecycle OrchestratorEnd) :: l)
                = (count_emitted k errs
                   + if bool_decide (OrchestratorEnd = k) then 1 else 0)%nat).
      { intros k Hk. rewrite !count_emitted_app, count_emitted_cons, C0, C.
        rewrite (Qq k Hk). simpl. destruct (bool_decide _); lia. }
      split; [rewrite Hcount, C3 by done; destruct errs; simpl; lia|].
      split; [rewrite Hcount, C3 by done; destruct errs; simpl; lia|].
      split.
      - intros e. rewrite Hcount, C3 by done. simpl.
        destruct errs; [lia|]. destruct (bool_decide _); lia.
      - intros e1 e2 Hne. rewrite !Hcount, !C3 by done. simpl.
        destruct errs; [lia|].
        repeat case_bool_decide; simplify_eq; lia. }
    destruct (is_Exception exc).
    + destruct (handle_event_log (lifecycle (OrchestratorError exc)) s2)
        as (l1 & G1 & D1).
      pose proof (delivery_counts l1 D1) as [C1 _]. unfold grows_by in G1.
      assert (C3 : ∀ k, is_lifecycle k = true →
                count_emitted k (Emitted (lifecycle (OrchestratorError exc)) :: l1)
                = if bool_decide (OrchestratorError exc = k)
                  then 1%nat else 0%nat).
      { intros k _. rewrite count_emitted_cons, C1. simpl.
        destruct (bool_decide _); lia. }
      destruct (handle_event (lifecycle (OrchestratorError exc)) s2)
        as [[[]|e] s3]; simpl in G1.
      * apply (Hend (Raise exc) s3 l1 _ G1 C3).
      * apply (Hend (Raise e) s3 l1 _ G1 C3).
    + apply (Hend (Raise exc) s2 [] []); [by rewrite app_nil_r|done].
Qed.

End SignalProperties.

(** ** The earlier task and controller *)

(** X28.  Neither [complete] nor [fail] of the earlier task looks at the
    status, and neither clears what the other has set: a task that failed
    and is then completed is COMPLETED and still holds the error message,
    and a task that was completed and then fails is FAILED and still holds
    the result.  No other task is touched. *)
Theorem complete_and_fail_overwrite (h : gmap nat Legacy.Task) (self : nat)
    (t : Legacy.Task) (r : pyval) (message : option string) (t1 t2 : Z) :
  h !! self = Some t →
  (∃ t', Legacy.complete self r t2 (Legacy.fail self message t1 h) !! self
         = Some t'
         ∧ Legacy.status t' = Legacy.COMPLETED
         ∧ Legacy.result t' = r
         ∧ Legacy.error t' = message
         ∧ Legacy.completed_at t' = Some t2)
  ∧ (∃ t', Legacy.fail self message t2 (Legacy.complete self r t1 h) !! self
           = Some t'
           ∧ Legacy.status t' = Legacy.FAILED
           ∧ Legacy.result t' = r
           ∧ Legacy.error t' = message
           ∧ Legacy.completed_at t' = Some t2)
  ∧ (∀ x, x ≠ self →
       Legacy.complete self r t2 (Legacy.fail self message t1 h) !! x = h !! x
       ∧ Legacy.fail self message t2 (Legacy.complete self r t1 h) !! x = h !! x).
Proof.
  intros Ht. unfold Legacy.complete, Legacy.fail. split; [|split].
  - rewrite !lookup_alter_eq, Ht. simpl. by eexists.
  - rewrite !lookup_alter_eq, Ht. simpl. by eexists.
  - intros x Hx. by rewrite !lookup_alter_ne.
Qed.

Section LegacyProperties.
Context {X : Type} `{Legacy.Surroundings X}.

Lemma task_tools_spec (h : gmap nat Legacy.Task) (x : X) (l : list nat)
    (acc tools : list Legacy.AssistantTool) :
  Legacy.task_tools h x l acc = Ok tools →
  ∃ more, tools = acc ++ more
    ∧ ∀ task, task ∈ l →
        ∃ t task_id, h !! task = Some t
          ∧ Legacy.flow_get_task_id task x = Ok task_id
          ∧ Legacy.complete_tool task task_id ∈ more
          ∧ Legacy.fail_tool task task_id ∈ more
          ∧ ∀ tool, tool ∈ Legacy.tools t → tool ∈ more.
Proof.
  revert acc. induction l as [|task0 l IH]; intros acc; simpl.
  - intros [= <-]. exists []. rewrite app_nil_r. split; [done|].
    by intros task ?%elem_of_nil.
  - destruct (Legacy.flow_get_task_id task0 x) as [id0|e] eqn:Hid; [|done].
    destruct (h !! task0) as [t0|] eqn:Ht0; [|done].
    intros (more & Hm & Hrest)%IH.
    exists (Legacy.get_tools task0 t0 id0 ++ more).
    split; [by rewrite Hm, <- app_assoc|].
    intros task [->|Hin]%elem_of_cons.
    + exists t0, id0. split; [done|]. split; [done|].
      unfold Legacy.get_tools. set_solver.
    + destruct (Hrest task Hin) as (t & id & Ht & Hi & Hc & Hf & Ho).
      exists t, id. split; [done|]. split; [done|]. set_solver.
Qed.

(** X29.  The tools that [run_agent] hands to the assistant hold, for
    every task of the controller, the task's complete tool and its fail
    tool under the id the flow has for the task, and the task's own
    tools, and this whatever the status of the task: a task that is
    completed or failed is offered again. *)
Theorem controller_tools_for_every_task (c : Legacy.Controller) (a : Agent)
    (h : gmap nat Legacy.Task) (x : X) (tools : list Legacy.AssistantTool) :
  Legacy.run_tools c a h x = Ok tools →
  ∀ task, task ∈ Legacy.tasks c →
    ∃ t task_id, h !! task = Some t
      ∧ Legacy.flow_get_task_id task x = Ok task_id
      ∧ Legacy.complete_tool task task_id ∈ tools
      ∧ Legacy.fail_tool task task_id ∈ tools
      ∧ ∀ tool, tool ∈ Legacy.tools t → tool ∈ tools.
Proof.
  unfold Legacy.run_tools. intros (more & -> & Hall)%task_tools_spec task Hin.
  destruct (Hall task Hin) as (t & id & Ht & Hi & Hc & Hf & Ho).
  exists t, id. split; [done|]. split; [done|]. set_solver.
Qed.


End LegacyProperties.

(** * The further properties on the sample inputs, continued *)

(** The sample session: its start signal comes first. *)
Lemma run_start_once_witness :
  ∃ r s' l,
    @run sample_runtime nat (scripted false) 3 sample_state = Some (r, s')
    ∧ log s' = Emitted (@lifecycle nat (scripted false) OrchestratorStart) :: l
    ∧ count_emitted OrchestratorStart l = 0%nat.
Proof.
  destruct (@run sample_runtime nat (scripted false) 3 sample_state)
    as [[r s']|] eqn:E; [|vm_compute in E; discriminate].
  destruct (@run_start_once sample_runtime nat (scripted false) 3
              sample_state s' r E) as (l & Hl & Hstart & _).
  exists r, s', l. split; [reflexivity|]. split; [exact Hl|exact Hstart].
Defined.

(** The draft, failed and then completed. *)
Lemma complete_and_fail_overwrite_witness :
  ∃ t', Legacy.complete 1 (PyStr "text") 7
          (Legacy.fail 1 (Some "stuck") 5 Legacy.draft) !! 1%nat = Some t'
        ∧ Legacy.status t' = Legacy.COMPLETED
        ∧ Legacy.error t' = Some "stuck".
Proof.
  destruct (complete_and_fail_overwrite Legacy.draft 1 _ (PyStr "text")
              (Some "stuck") 5 7 eq_refl)
    as [(t' & Ht' & Hst & _ & Herr & _) _].
  by exists t'.
Defined.

(** The tools for the draft. *)
Lemma controller_tools_for_every_task_witness :
  Legacy.complete_tool 1 11
  ∈ [Legacy.complete_tool 1 11; Legacy.fail_tool 1 11;
     Legacy.other_tool "search"].
Proof.
  assert (E : @Legacy.run_tools nat Legacy.diligent Legacy.solo "Marvin"
                Legacy.draft 0%nat
              = Ok [Legacy.complete_tool 1 11; Legacy.fail_tool 1 11;
                    Legacy.other_tool "search"]) by (vm_compute; reflexivity).
  destruct (@controller_tools_for_every_task nat Legacy.diligent Legacy.solo
              "Marvin" Legacy.draft 0%nat _ E 1%nat)
    as (t & id & _ & Hid & Hc & _); [set_solver|].
  injection Hid as <-. exact Hc.
Defined.

